(** * AI-Teacher: the command stream decoder and the command interpreter

    A shallow embedding of the JavaScript sources
      - [server.js]            (the streaming endpoint [/api/gemini] with
        [extractCommands], and the batch endpoint [/api/generate]),
      - [frontend/src/App.js]  in its two versions: the streaming one
        ([fetchStreamingResponse], [handleGenerate], [clearCanvas],
        [renderCommand], [MixedTextRenderer], [EquationRenderer]) and the
        batch one ([handleGenerate] over [/api/generate], with the separate
        [equations] list, the text layer, [clearCanvas], [handleSpeak]),
      - [frontend/src/utils/latexRenderer.js] ([MathRenderer]),
    followed by the properties of the specification proved about them and
    by further properties of the same code.

    Conventions.  A JavaScript string is the list of its UTF-16 code units.
    A JavaScript number is carried as the exact rational its literal
    denotes: the rounding to IEEE doubles is not modelled, except for
    underflow to zero, which decides truthiness.  A function that can throw
    returns an [outcome]. *)

From Stdlib Require Import String Ascii.
From Stdlib Require Import List Sorted NArith ZArith QArith Bool Lia DecimalN.
Import ListNotations.
Close Scope Q_scope.

Set Implicit Arguments.
Set Warnings "-register-all".

(* ================================================================== *)
(** * JavaScript strings *)
(* ================================================================== *)

Module Js.

Definition char := N.
Definition jsstring := list char.

(** Code units of an ASCII literal. *)
Definition str (s : string) : jsstring :=
  map N_of_ascii (list_ascii_of_string s).

(** The same, with every apostrophe standing for a double quote (code 34):
    used to write JSON texts as literals. *)
Definition quoted (s : string) : jsstring :=
  map (fun c => if (c =? 39)%N then 34%N else c) (str s).

Definition LF : char := 10%N.

Fixpoint str_eqb (a b : jsstring) : bool :=
  match a, b with
  | [], [] => true
  | x :: a', y :: b' => (x =? y)%N && str_eqb a' b'
  | _, _ => false
  end.

(** [WhiteSpace] and [LineTerminator] of ECMA-262, the code units removed by
    [String.prototype.trim]. *)
Definition is_space (c : char) : bool :=
  existsb (N.eqb c)
    [9; 10; 11; 12; 13; 32; 160; 5760; 8232; 8233; 8239; 8287; 12288; 65279]%N
  || ((8192 <=? c)%N && (c <=? 8202)%N).

Fixpoint trimStart (s : jsstring) : jsstring :=
  match s with
  | c :: r => if is_space c then trimStart r else s
  | [] => []
  end.

Definition trimEnd (s : jsstring) : jsstring := rev (trimStart (rev s)).

Definition trim (s : jsstring) : jsstring := trimEnd (trimStart s).

(** A string is truthy when it is not empty. *)
Definition str_truthy (s : jsstring) : bool :=
  match s with [] => false | _ :: _ => true end.

Fixpoint startsWith (s p : jsstring) {struct p} : bool :=
  match p, s with
  | [], _ => true
  | x :: p', y :: s' => (x =? y)%N && startsWith s' p'
  | _ :: _, [] => false
  end.

(** [s.substring(n)] with one argument. *)
Definition substring (s : jsstring) (n : nat) : jsstring := skipn n s.

(** [s.substring(a, b)] for [a <= b]. *)
Definition substring2 (s : jsstring) (a b : nat) : jsstring :=
  firstn (b - a) (skipn a s).

(** [s.split(sep)] for a separator of one code unit: never an empty array. *)
Fixpoint split (sep : char) (s : jsstring) : list jsstring :=
  match s with
  | [] => [[]]
  | c :: r =>
      if (c =? sep)%N then [] :: split sep r
      else match split sep r with
           | p :: ps => (c :: p) :: ps
           | [] => [[c]]
           end
  end.

(** [a.pop()]: the last element ([undefined], here [None], on an empty
    array) and the array that is left. *)
Definition pop {A : Type} (a : list A) : option A * list A :=
  match rev a with
  | [] => (None, [])
  | x :: r => (Some x, rev r)
  end.

(** The outcome of an evaluation that can throw; [e] stands for the error:
    its message where the program writes it, its name otherwise. *)
Inductive outcome (A : Type) : Type :=
| Ret (a : A)
| Throw (e : jsstring).
Arguments Throw {A} e.

Definition bind {A B : Type} (m : outcome A) (f : A -> outcome B) : outcome B :=
  match m with
  | Ret a => f a
  | Throw e => Throw e
  end.

Definition TypeError : jsstring := str "TypeError".

End Js.

Notation "x <- m ;; k" := (Js.bind m (fun x => k))
  (at level 61, m at next level, right associativity).

(* ================================================================== *)
(** * JavaScript values and [JSON.parse] *)
(* ================================================================== *)

Module Json.
Import Js.

(** The values [JSON.parse] builds, and [undefined].  An object is the list
    of its own properties in insertion order. *)
Inductive value : Type :=
| VUndefined
| VNull
| VBool (b : bool)
| VNum (q : Q)
| VStr (s : jsstring)
| VArr (items : list value)
| VObj (fields : list (jsstring * value)).

(** The double nearest to a non-zero rational is zero exactly when the
    rational is at most 2^-1075 in magnitude. *)
Definition num_is_zero (q : Q) : bool :=
  (Qnum q =? 0)%Z || (Z.abs (Qnum q) * 2 ^ 1075 <=? Zpos (Qden q))%Z.

(** [ToBoolean]. *)
Definition truthy (v : value) : bool :=
  match v with
  | VUndefined | VNull => false
  | VBool b => b
  | VNum q => negb (num_is_zero q)
  | VStr s => str_truthy s
  | VArr _ | VObj _ => true
  end.

Fixpoint lookup (fields : list (jsstring * value)) (k : jsstring) : option value :=
  match fields with
  | [] => None
  | (k', v) :: r => if str_eqb k' k then Some v else lookup r k
  end.

(** Defining a property: a repeated key keeps its place and takes the new
    value. *)
Fixpoint set_field (fields : list (jsstring * value)) (k : jsstring) (v : value)
  : list (jsstring * value) :=
  match fields with
  | [] => [(k, v)]
  | (k', v') :: r =>
      if str_eqb k' k then (k', v) :: r else (k', v') :: set_field r k v
  end.

(** [v.k] for the property names the program reads ([type], [text], [x],
    [children], [candidates], ...): no built-in prototype defines them, so
    on a primitive or an array the read gives [undefined]; on [null] and
    [undefined] it throws. *)
Definition get (v : value) (k : jsstring) : outcome value :=
  match v with
  | VUndefined | VNull => Throw TypeError
  | VObj fields =>
      match lookup fields k with Some x => Ret x | None => Ret VUndefined end
  | _ => Ret VUndefined
  end.

(** [v[0]]. *)
Definition get0 (v : value) : outcome value :=
  match v with
  | VUndefined | VNull => Throw TypeError
  | VArr items => match items with x :: _ => Ret x | [] => Ret VUndefined end
  | VStr s => match s with c :: _ => Ret (VStr [c]) | [] => Ret VUndefined end
  | VObj fields =>
      match lookup fields (str "0") with Some x => Ret x | None => Ret VUndefined end
  | _ => Ret VUndefined
  end.

(** [v.k] where the program goes on to show [err.message]: the text of
    the message of the [TypeError] is the engine's, [message v k] for the
    read of [k] on [v]. *)
Definition read (message : value -> jsstring -> jsstring)
  (v : value) (k : jsstring) : outcome value :=
  match get v k with
  | Ret x => Ret x
  | Throw _ => Throw (message v k)
  end.

(** A stand-in for the messages of the engine in the examples: the words
    of V8. *)
Definition v8_message (v : value) (k : jsstring) : jsstring :=
  str "Cannot read properties of "
  ++ match v with VNull => str "null" | _ => str "undefined" end
  ++ str " (reading '" ++ k ++ str "')".

(** [a === 'literal']. *)
Definition is_str (v : value) (s : jsstring) : bool :=
  match v with
  | VStr t => str_eqb t s
  | _ => false
  end.

(** [a || b]. *)
Definition js_or (a b : value) : value := if truthy a then a else b.

(** [ToPrimitive] does not throw on the value.  The values here come out
    of [JSON.parse]: none of their properties is callable.  On an object
    with an own [toString] property neither that property nor the
    [valueOf] of [Object.prototype], which returns the object, gives a
    primitive, and the conversion throws a [TypeError]; without it the
    [toString] of [Object.prototype] does.  An array is joined, which
    converts its elements other than [null] and [undefined]. *)
Fixpoint has_primitive (v : value) : bool :=
  match v with
  | VArr items => forallb has_primitive items
  | VObj fields =>
      match lookup fields (str "toString") with
      | Some _ => false
      | None => true
      end
  | _ => true
  end.

(** ** Tokens *)

Inductive token : Type :=
| TLBrace | TRBrace | TLBracket | TRBracket | TColon | TComma
| TString (s : jsstring)
| TNumber (q : Q)
| TTrue | TFalse | TNull.

Definition is_digit (c : char) : bool := ((48 <=? c) && (c <=? 57))%N.

Definition is_hex (c : char) : bool :=
  is_digit c || ((65 <=? c) && (c <=? 70))%N || ((97 <=? c) && (c <=? 102))%N.

Definition hex_value (c : char) : N :=
  if is_digit c then c - 48
  else if (c <=? 70)%N then c - 55
  else c - 87.

(** The four white space characters of the JSON grammar. *)
Definition is_json_ws (c : char) : bool :=
  ((c =? 32) || (c =? 9) || (c =? 10) || (c =? 13))%N.

(** Characters of numbers and of the literals [true], [false], [null]. *)
Definition is_word_char (c : char) : bool :=
  is_digit c || ((65 <=? c) && (c <=? 90))%N || ((97 <=? c) && (c <=? 122))%N
  || ((c =? 43) || (c =? 45) || (c =? 46))%N.

Fixpoint span_digits (s : jsstring) : jsstring * jsstring :=
  match s with
  | c :: r =>
      if is_digit c then let (d, r') := span_digits r in (c :: d, r')
      else ([], s)
  | [] => ([], [])
  end.

Definition digits_value (d : jsstring) : Z :=
  fold_left (fun acc c => (acc * 10 + Z.of_N (c - 48))%Z) d 0%Z.

(** The rational [m * 10^e], in lowest terms. *)
Definition decimal (m e : Z) : Q :=
  Qred (if (0 <=? e)%Z then Qmake (m * 10 ^ e) 1
        else Qmake m (Z.to_pos (10 ^ (- e)))).

(** The JSON number grammar: an optional minus sign; an integer part that
    is 0 or starts with a non-zero digit; an optional fraction, a point and
    at least one digit; an optional exponent, e or E, an optional sign and
    at least one digit. *)
Definition parse_exponent (s : jsstring) : option Z :=
  match s with
  | [] => Some 0%Z
  | c :: r =>
      if ((c =? 69) || (c =? 101))%N then
        let (sgn, r1) :=
          match r with
          | c' :: r' =>
              if (c' =? 43)%N then (1%Z, r')
              else if (c' =? 45)%N then ((-1)%Z, r')
              else (1%Z, r)
          | [] => (1%Z, r)
          end in
        match span_digits r1 with
        | ((_ :: _) as ed, []) => Some (sgn * digits_value ed)%Z
        | _ => None
        end
      else None
  end.

Definition parse_fraction (s : jsstring) : option (jsstring * jsstring) :=
  match s with
  | c :: r =>
      if (c =? 46)%N then
        match span_digits r with
        | ((_ :: _) as fd, r') => Some (fd, r')
        | _ => None
        end
      else Some ([], s)
  | [] => Some ([], s)
  end.

Definition parse_number (w : jsstring) : option Q :=
  let (neg, s1) :=
    match w with
    | c :: r => if (c =? 45)%N then (true, r) else (false, w)
    | [] => (false, w)
    end in
  match span_digits s1 with
  | ([], _) => None
  | ((d0 :: more) as ip, s2) =>
      if (d0 =? 48)%N && str_truthy more then None
      else
        match parse_fraction s2 with
        | None => None
        | Some (fd, s3) =>
            match parse_exponent s3 with
            | None => None
            | Some ex =>
                let m := digits_value (ip ++ fd) in
                Some (decimal (if neg then (- m)%Z else m)
                              (ex - Z.of_nat (length fd)))
            end
        end
  end.

Definition word_token (w : jsstring) : option token :=
  if str_eqb w (str "true") then Some TTrue
  else if str_eqb w (str "false") then Some TFalse
  else if str_eqb w (str "null") then Some TNull
  else option_map TNumber (parse_number w).

(** ** The lexer, one code unit at a time *)

Inductive lex_mode : Type :=
| LStart
| LWord (acc : jsstring)                 (* reversed *)
| LStr (acc : jsstring)                  (* reversed *)
| LEsc (acc : jsstring)                  (* after a backslash *)
| LHex (acc : jsstring) (n : nat) (code : N).  (* after [\u], [n] digits read *)

Definition punctuation (c : char) : option token :=
  if (c =? 123)%N then Some TLBrace
  else if (c =? 125)%N then Some TRBrace
  else if (c =? 91)%N then Some TLBracket
  else if (c =? 93)%N then Some TRBracket
  else if (c =? 58)%N then Some TColon
  else if (c =? 44)%N then Some TComma
  else None.

Definition lex_start (c : char) : option (lex_mode * list token) :=
  if is_json_ws c then Some (LStart, [])
  else if (c =? 34)%N then Some (LStr [], [])
  else match punctuation c with
       | Some t => Some (LStart, [t])
       | None => if is_word_char c then Some (LWord [c], []) else None
       end.

Definition escape (c : char) : option char :=
  if (c =? 34)%N then Some 34%N
  else if (c =? 92)%N then Some 92%N
  else if (c =? 47)%N then Some 47%N
  else if (c =? 98)%N then Some 8%N
  else if (c =? 102)%N then Some 12%N
  else if (c =? 110)%N then Some 10%N
  else if (c =? 114)%N then Some 13%N
  else if (c =? 116)%N then Some 9%N
  else None.

Definition lex_step (m : lex_mode) (c : char) : option (lex_mode * list token) :=
  match m with
  | LStart => lex_start c
  | LWord w =>
      if is_word_char c then Some (LWord (c :: w), [])
      else match word_token (rev w), lex_start c with
           | Some t, Some (m', ts) => Some (m', t :: ts)
           | _, _ => None
           end
  | LStr acc =>
      if (c =? 34)%N then Some (LStart, [TString (rev acc)])
      else if (c =? 92)%N then Some (LEsc acc, [])
      else if (c <? 32)%N then None
      else Some (LStr (c :: acc), [])
  | LEsc acc =>
      if (c =? 117)%N then Some (LHex acc 0 0%N, [])
      else match escape c with
           | Some e => Some (LStr (e :: acc), [])
           | None => None
           end
  | LHex acc n code =>
      if is_hex c then
        let code' := (code * 16 + hex_value c)%N in
        if Nat.eqb n 3 then Some (LStr (code' :: acc), [])
        else Some (LHex acc (S n) code', [])
      else None
  end.

Definition lex_end (m : lex_mode) : option (list token) :=
  match m with
  | LStart => Some []
  | LWord w => option_map (fun t => [t]) (word_token (rev w))
  | _ => None
  end.

Fixpoint lex (m : lex_mode) (s : jsstring) : option (list token) :=
  match s with
  | [] => lex_end m
  | c :: r =>
      match lex_step m c with
      | None => None
      | Some (m', ts) => option_map (app ts) (lex m' r)
      end
  end.

(** ** The parser, one token at a time *)

(** A container under construction. *)
Inductive frame : Type :=
| FArr (acc : list value)                                  (* reversed *)
| FObj (fields : list (jsstring * value)) (key : jsstring).

Inductive control : Type :=
| CValue      (* a value must follow *)
| CArrStart   (* after [[]: a value or []] *)
| CObjStart   (* after [{]: a key or [}] *)
| CKey        (* after [,] in an object: a key *)
| CColon      (* after a key *)
| CAfter      (* after a value inside a container *)
| CDone (v : value).

Definition pstate : Type := control * list frame.

(** A finished value goes to the innermost open container. *)
Definition supply (v : value) (stack : list frame) : pstate :=
  match stack with
  | [] => (CDone v, [])
  | FArr acc :: st => (CAfter, FArr (v :: acc) :: st)
  | FObj fields k :: st => (CAfter, FObj (set_field fields k v) k :: st)
  end.

Definition scalar (t : token) : option value :=
  match t with
  | TString s => Some (VStr s)
  | TNumber q => Some (VNum q)
  | TTrue => Some (VBool true)
  | TFalse => Some (VBool false)
  | TNull => Some VNull
  | _ => None
  end.

Definition start_value (t : token) (stack : list frame) : option pstate :=
  match t with
  | TLBracket => Some (CArrStart, FArr [] :: stack)
  | TLBrace => Some (CObjStart, FObj [] [] :: stack)
  | _ => option_map (fun v => supply v stack) (scalar t)
  end.

Definition close_array (stack : list frame) : option pstate :=
  match stack with
  | FArr acc :: st => Some (supply (VArr (rev acc)) st)
  | _ => None
  end.

Definition close_object (stack : list frame) : option pstate :=
  match stack with
  | FObj fields _ :: st => Some (supply (VObj fields) st)
  | _ => None
  end.

Definition set_key (k : jsstring) (stack : list frame) : option pstate :=
  match stack with
  | FObj fields _ :: st => Some (CColon, FObj fields k :: st)
  | _ => None
  end.

Definition parse_step (st : pstate) (t : token) : option pstate :=
  let (c, stack) := st in
  match c with
  | CValue => start_value t stack
  | CArrStart =>
      match t with
      | TRBracket => close_array stack
      | _ => start_value t stack
      end
  | CObjStart =>
      match t with
      | TRBrace => close_object stack
      | TString k => set_key k stack
      | _ => None
      end
  | CKey =>
      match t with
      | TString k => set_key k stack
      | _ => None
      end
  | CColon =>
      match t with
      | TColon => Some (CValue, stack)
      | _ => None
      end
  | CAfter =>
      match stack, t with
      | FArr _ :: _, TComma => Some (CValue, stack)
      | FArr _ :: _, TRBracket => close_array stack
      | FObj _ _ :: _, TComma => Some (CKey, stack)
      | FObj _ _ :: _, TRBrace => close_object stack
      | _, _ => None
      end
  | CDone _ => None
  end.

Fixpoint parse_tokens (st : pstate) (ts : list token) : option value :=
  match ts with
  | [] => match st with (CDone v, _) => Some v | _ => None end
  | t :: r =>
      match parse_step st t with
      | None => None
      | Some st' => parse_tokens st' r
      end
  end.

(** [JSON.parse(text)] without a reviver: [None] stands for the
    [SyntaxError] it throws. *)
Definition JSON_parse (text : jsstring) : option value :=
  match lex LStart text with
  | None => None
  | Some ts => parse_tokens (CValue, []) ts
  end.

End Json.

(* ================================================================== *)
(** * Regular expressions, as far as [server.js] uses them *)
(* ================================================================== *)

Module Regex.
Import Js.

Inductive atom : Type :=
| Lit (c : char)              (* an escaped or plain character *)
| NoneOf (cs : list char).    (* a negated class *)

Inductive item : Type :=
| One (a : atom)
| Star (a : atom).            (* greedy *)

Definition regex : Type := list item.

Definition atom_matches (a : atom) (c : char) : bool :=
  match a with
  | Lit x => (c =? x)%N
  | NoneOf cs => negb (existsb (N.eqb c) cs)
  end.

(** The length of the match of [re] at the start of [s], found as a
    backtracking matcher finds it: a star first takes one more character and
    gives it back when the rest of the pattern then fails. *)
Fixpoint match_here (re : regex) (s : jsstring) : option nat :=
  match re with
  | [] => Some 0
  | One a :: re' =>
      match s with
      | c :: r =>
          if atom_matches a c then option_map S (match_here re' r) else None
      | [] => None
      end
  | Star a :: re' =>
      (fix star (s : jsstring) : option nat :=
         match s with
         | c :: r =>
             if atom_matches a c then
               match star r with
               | Some n => Some (S n)
               | None => match_here re' s
               end
             else match_here re' s
         | [] => match_here re' s
         end) s
  end.

(** The matches of a global ([/g]) pattern with their start offsets, from
    offset [i]: after a match the search resumes at its end, and one code
    unit further after an empty match; [skip] counts the code units still
    inside the last match. *)
Fixpoint match_all (re : regex) (skip i : nat) (s : jsstring)
  : list (nat * jsstring) :=
  match skip with
  | S k =>
      match s with
      | _ :: r => match_all re k (S i) r
      | [] => []
      end
  | O =>
      match match_here re s with
      | Some n =>
          (i, firstn n s) ::
          match s with
          | _ :: r => match_all re (pred n) (S i) r
          | [] => []
          end
      | None =>
          match s with
          | _ :: r => match_all re 0 (S i) r
          | [] => []
          end
      end
  end.

(** [s.match(re)] for a global pattern: the array of the matched texts, or
    [null] (here [None]) when there is none. *)
Definition js_match (re : regex) (s : jsstring) : option (list jsstring) :=
  match match_all re 0 0 s with
  | [] => None
  | ms => Some (map snd ms)
  end.

End Regex.

(* ================================================================== *)
(** * [server.js]: the streaming proxy endpoint *)
(* ================================================================== *)

Module Server.
Import Js Json Regex.

(** The pattern of [extractCommands]: an opening brace, any number of
    characters that are not braces, a closing brace; global. *)
Definition command_pattern : regex :=
  [One (Lit 123%N); Star (NoneOf [123%N; 125%N]); One (Lit 125%N)].

(** The body of the [forEach] of [extractCommands]: [commands.push] behind
    the [try], for one match. *)
Definition extract_one (commands : list value) (m : jsstring) : list value :=
  match JSON_parse m with
  | None => commands                       (* catch: ignore invalid JSON *)
  | Some command =>
      match get command (str "type") with
      | Ret t => if truthy t then commands ++ [command] else commands
      | Throw _ => commands
      end
  end.

Definition extractCommands (text : jsstring) : list value :=
  match js_match command_pattern text with
  | Some jsonMatches => fold_left extract_one jsonMatches []
  | None => []
  end.

(** The calls the handler makes on the response [res]:
    [ResWrite c] is [res.write] of the frame [data: JSON.stringify(c)] and
    two line feeds, [ResEnd] is [res.end()]. *)
Inductive res_call : Type :=
| ResWrite (command : value)
| ResEnd.

Record state : Type := { buffer : jsstring; commandBuffer : jsstring }.

Definition initial : state := {| buffer := []; commandBuffer := [] |}.

(** Lines 98 to 107: the text is added to [commandBuffer]; when
    [extractCommands] finds commands they are written and the whole
    [commandBuffer] is emptied. *)
Definition accumulate (commandBuffer text : jsstring) : jsstring * list value :=
  let commandBuffer := commandBuffer ++ text in
  let commands := extractCommands commandBuffer in
  match commands with
  | [] => (commandBuffer, [])
  | _ :: _ => ([], commands)
  end.

(** The guard of line 96 and the read of line 97 on the parsed envelope:
    [None] when the guard is false. *)
Definition candidate_text (parsed : value) : outcome (option value) :=
  candidates <- get parsed (str "candidates") ;;
  if truthy candidates then
    first <- get0 candidates ;;
    if truthy first then
      content <- get first (str "content") ;;
      if truthy content then
        parts <- get content (str "parts") ;;
        part <- get0 parts ;;
        text <- get part (str "text") ;;
        Ret (Some text)
      else Ret None
    else Ret None
  else Ret None.

Section Handler.

(** [Number::toString], of ECMA-262: only reached when the upstream
    envelope carries a number where its text should be. *)
Variable number_to_string : Q -> jsstring.

Fixpoint join (sep : jsstring) (l : list jsstring) : jsstring :=
  match l with
  | [] => []
  | [a] => a
  | a :: r => a ++ sep ++ join sep r
  end.

(** The conversion to a string that [commandBuffer += text] applies to
    [text]: it throws where the value has no primitive (see
    [has_primitive]). *)
Fixpoint to_string (v : value) : outcome jsstring :=
  match v with
  | VUndefined => Ret (str "undefined")
  | VNull => Ret (str "null")
  | VBool true => Ret (str "true")
  | VBool false => Ret (str "false")
  | VNum q => Ret (number_to_string q)
  | VStr s => Ret s
  | VArr items =>
      elements <-
        (fix each (l : list value) : outcome (list jsstring) :=
           match l with
           | [] => Ret []
           | x :: r =>
               e <- match x with
                    | VUndefined | VNull => Ret []
                    | _ => to_string x
                    end ;;
               es <- each r ;;
               Ret (e :: es)
           end) items ;;
      Ret (join (str ",") elements)
  | VObj fields =>
      match lookup fields (str "toString") with
      | Some _ => Throw TypeError
      | None => Ret (str "[object Object]")
      end
  end.

(** [chunk.toString()]: the bytes of one [Buffer] decoded as UTF-8 by
    themselves; a character whose bytes are cut by the end of the chunk
    comes out as U+FFFD. *)
Variable Buffer_toString : list N -> jsstring.

(** The [for] loop over the complete lines (lines 84 to 114), from the
    current [commandBuffer]: the [commandBuffer] it leaves and the calls on
    [res].  The [return] after [res.end()] leaves the loop. *)
Fixpoint on_lines (commandBuffer : jsstring) (lines : list jsstring)
  : jsstring * list res_call :=
  match lines with
  | [] => (commandBuffer, [])
  | line :: rest =>
      if str_truthy (trim line) then
        if startsWith line (str "data: ") then
          let data := substring line 6 in
          if str_eqb data (str "[DONE]") then (commandBuffer, [ResEnd])
          else
            match JSON_parse data with
            | None => on_lines commandBuffer rest          (* catch *)
            | Some parsed =>
                match candidate_text parsed with
                | Throw _ => on_lines commandBuffer rest   (* catch *)
                | Ret None => on_lines commandBuffer rest
                | Ret (Some text) =>
                    match to_string text with
                    | Throw _ => on_lines commandBuffer rest   (* catch *)
                    | Ret text =>
                        let (commandBuffer', commands) :=
                          accumulate commandBuffer text in
                        let (final, calls) := on_lines commandBuffer' rest in
                        (final, map ResWrite commands ++ calls)
                    end
                end
            end
        else on_lines commandBuffer rest
      else on_lines commandBuffer rest
  end.

(** The [data] handler (lines 76 to 115).  [split] never gives an empty
    array; were [pop] to give [undefined], the next [buffer += chunkStr]
    would start from the text [undefined]. *)
Definition on_data (st : state) (chunk : list N) : state * list res_call :=
  let chunkStr := Buffer_toString chunk in
  let buffer := buffer st ++ chunkStr in
  let lines := split LF buffer in
  let (last, lines) := pop lines in
  let buffer := match last with Some b => b | None => str "undefined" end in
  let (commandBuffer, calls) := on_lines (commandBuffer st) lines in
  ({| buffer := buffer; commandBuffer := commandBuffer |}, calls).

(** The handlers run over the chunks of the upstream body, then [end]. *)
Fixpoint serve (st : state) (chunks : list (list N)) : list res_call :=
  match chunks with
  | [] => [ResEnd]
  | chunk :: more =>
      let (st', calls) := on_data st chunk in calls ++ serve st' more
  end.

End Handler.

(** The texts handed to [accumulate] one after the other: the commands
    written over the whole run. *)
Fixpoint accumulate_all (commandBuffer : jsstring) (texts : list jsstring)
  : list value :=
  match texts with
  | [] => []
  | text :: more =>
      let (commandBuffer', commands) := accumulate commandBuffer text in
      commands ++ accumulate_all commandBuffer' more
  end.

End Server.

(* ================================================================== *)
(** * [utils/latexRenderer.js] *)
(* ================================================================== *)

Module LatexRenderer.
Import Js Json.

(** A span of math markup: the half-open range [start, stop) of the source
    text it covers, delimiters included, and the markup between the
    delimiters ([end] is a keyword here, hence [stop]). *)
Record MathSpan : Type := { start : nat; stop : nat; latex : jsstring }.

Definition dollar : char := 36%N.

(** Modelled from the spec: the pairing of the delimiters by
    [detectLatex], which the streaming [App.js] imports from
    [utils/latexRenderer] and which is not in the sources.  Section 4.2: the
    spans are the substrings delimited by a matched pair of inline-math
    delimiters, non-overlapping, in left-to-right order; the enclosed
    markup is not validated.  [scan i inside s] reads [s] from offset [i];
    [inside] holds the offset of the pending opening delimiter and the
    markup read since, reversed. *)
Fixpoint scan (i : nat) (inside : option (nat * jsstring)) (s : jsstring)
  : list MathSpan :=
  match s with
  | [] => []
  | c :: r =>
      match inside with
      | None =>
          if (c =? dollar)%N then scan (S i) (Some (i, [])) r
          else scan (S i) None r
      | Some (from, acc) =>
          if (c =? dollar)%N then
            {| start := from; stop := S i; latex := rev acc |}
            :: scan (S i) None r
          else scan (S i) (Some (from, c :: acc)) r
      end
  end.

(** The opening delimiter that still waits for its partner once [scan] has
    read the text [s], with the markup read since. *)
Fixpoint pending (i : nat) (inside : option (nat * jsstring)) (s : jsstring)
  : option (nat * jsstring) :=
  match s with
  | [] => inside
  | c :: r =>
      match inside with
      | None =>
          if (c =? dollar)%N then pending (S i) (Some (i, [])) r
          else pending (S i) None r
      | Some (from, acc) =>
          if (c =? dollar)%N then pending (S i) None r
          else pending (S i) (Some (from, c :: acc)) r
      end
  end.

(** Modelled from the spec: [detectLatex(text)] (section 4.2 and the
    testable properties of section 8): the spans of the matched pairs of
    the whole text; unbalanced delimiters return no spans, so a text in
    which a delimiter is left without its partner gives none. *)
Definition detectLatex (text : jsstring) : list MathSpan :=
  match pending 0 None text with
  | None => scan 0 None text
  | Some _ => []
  end.

(** [detectLatex] on the value of [command.text], for the examples: the
    model above on a string, no span on anything else. *)
Definition detect_value (v : value) : outcome (list MathSpan) :=
  match v with
  | VStr text => Ret (detectLatex text)
  | _ => Ret []
  end.

Section MathRenderer.

(** [katex.render(latex, element, {throwOnError: false, displayMode: true})]:
    the content it gives the element, or the exception it throws. *)
Variable katex_render : value -> outcome jsstring.

(** The effect of [MathRenderer] (lines 10 to 21) on the content of its
    container: the [catch] logs the error and leaves the container. *)
Definition MathRenderer_effect (latex : value) (container : jsstring)
  : outcome jsstring :=
  match katex_render latex with
  | Ret content => Ret content
  | Throw _ => Ret container
  end.

End MathRenderer.

End LatexRenderer.

(* ================================================================== *)
(** * The event loop: turns of asynchronous functions *)
(* ================================================================== *)

Module EventLoop.

(** An asynchronous function runs as a sequence of turns, one per [await];
    the turns of two calls in flight interleave, each call keeping its own
    order. *)
Inductive Interleave {A : Type} : list A -> list A -> list A -> Prop :=
| Interleave_nil : Interleave [] [] []
| Interleave_left : forall a l1 l2 l,
    Interleave l1 l2 l -> Interleave (a :: l1) l2 (a :: l)
| Interleave_right : forall a l1 l2 l,
    Interleave l1 l2 l -> Interleave l1 (a :: l2) (a :: l).

(** The settlement of a promise. *)
Inductive settled (A : Type) : Type :=
| Fulfilled (a : A)
| Rejected (reason : Js.jsstring).
Arguments Rejected {A} reason.

(** [p.then(f)] and [p.catch(g)] for handlers that do not throw. *)
Definition promise_then {A B : Type} (p : settled A) (f : A -> B) : settled B :=
  match p with
  | Fulfilled a => Fulfilled (f a)
  | Rejected e => Rejected e
  end.

Definition promise_catch {A : Type} (p : settled A) (g : Js.jsstring -> A)
  : settled A :=
  match p with
  | Fulfilled a => Fulfilled a
  | Rejected e => Fulfilled (g e)
  end.

End EventLoop.

(* ================================================================== *)
(** * [App.js], streaming version *)
(* ================================================================== *)

Module Client.
Import Js Json LatexRenderer EventLoop.

Fixpoint uint_chars (u : Decimal.uint) : jsstring :=
  match u with
  | Decimal.Nil => []
  | Decimal.D0 r => 48%N :: uint_chars r
  | Decimal.D1 r => 49%N :: uint_chars r
  | Decimal.D2 r => 50%N :: uint_chars r
  | Decimal.D3 r => 51%N :: uint_chars r
  | Decimal.D4 r => 52%N :: uint_chars r
  | Decimal.D5 r => 53%N :: uint_chars r
  | Decimal.D6 r => 54%N :: uint_chars r
  | Decimal.D7 r => 55%N :: uint_chars r
  | Decimal.D8 r => 56%N :: uint_chars r
  | Decimal.D9 r => 57%N :: uint_chars r
  end.

(** The decimal digits of a natural number, as a template literal prints
    it. *)
Definition N_to_string (n : N) : jsstring := uint_chars (N.to_uint n).

(** ** The stream decoder *)

(** What the [fetch] of the request comes to.  [NoResponse]: the promise
    rejects, with an error of this message.  [Response]: it resolves;
    [body] is the sequence of the texts the [TextDecoder] gives for the
    chunks read (see [decode_stream] below), and [failure] the message of
    the error that ends the reading where one does, a [read] that rejects
    or [getReader] on a response without body; it is [None] when the
    stream is read to its end. *)
Inductive response : Type :=
| NoResponse (message : jsstring)
| Response (ok : bool) (status : N) (body : list jsstring)
           (failure : option jsstring).

(** [response.ok], [response.status] and the chunks read, where there is
    a response. *)
Definition ok (r : response) : bool :=
  match r with
  | Response ok _ _ _ => ok
  | NoResponse _ => false
  end.

Definition status (r : response) : N :=
  match r with
  | Response _ status _ _ => status
  | NoResponse _ => 0%N
  end.

Definition body (r : response) : list jsstring :=
  match r with
  | Response _ _ body _ => body
  | NoResponse _ => []
  end.

Section TextDecoder.

(** [new TextDecoder()]: a decoder of the Encoding standard is a handler
    that is run over the bytes of the stream one at a time, keeps a state
    between them (the bytes of a sequence not yet complete, the byte order
    mark seen) and gives for each byte the code units then known. *)
Variable dstate : Type.
Variable handler : dstate -> N -> dstate * jsstring.

(** [decoder.decode(value, { stream: true })]: the state is kept for the
    next chunk. *)
Fixpoint decode_chunk (st : dstate) (value : list N) : dstate * jsstring :=
  match value with
  | [] => (st, [])
  | b :: r =>
      let (st1, out) := handler st b in
      let (st2, outs) := decode_chunk st1 r in
      (st2, out ++ outs)
  end.

(** The texts the decoder gives for the chunks read, one after the
    other. *)
Fixpoint decode_stream (st : dstate) (chunks : list (list N)) : list jsstring :=
  match chunks with
  | [] => []
  | value :: more =>
      let (st', text) := decode_chunk st value in
      text :: decode_stream st' more
  end.

End TextDecoder.

(** The [for] loop over the complete lines (lines 71 to 85): the commands
    handed to [onCommand].  The [break] leaves this loop. *)
Fixpoint process_parts (parts : list jsstring) : list value :=
  match parts with
  | [] => []
  | part :: rest =>
      if str_truthy (trim part) then
        if startsWith part (str "data: ") then
          let data := substring part 6 in
          if str_eqb data (str "[DONE]") then []             (* break *)
          else
            match JSON_parse data with
            | Some command => command :: process_parts rest  (* onCommand *)
            | None => process_parts rest                     (* catch *)
            end
        else process_parts rest
      else process_parts rest
  end.

(** The [while] loop (lines 61 to 86), one iteration per chunk read: the
    commands each iteration hands to [onCommand].  What is left in [buffer]
    when the stream is done is dropped.  [split] never gives an empty array;
    were [pop] to give [undefined], [buffer += ...] would go on from the
    text [undefined]. *)
Fixpoint read_loop (buffer : jsstring) (chunks : list jsstring)
  : list (list value) :=
  match chunks with
  | [] => []                                                 (* done *)
  | value :: more =>
      let buffer := buffer ++ value in
      let parts := split LF buffer in
      let (last, parts) := pop parts in
      let buffer := match last with Some b => b | None => str "undefined" end in
      process_parts parts :: read_loop buffer more
  end.

(** [fetchStreamingResponse(prompt, onCommand)], given what its [fetch]
    comes to: the calls of [onCommand], read by read, and the message of
    the error it throws in the end, if it does. *)
Definition fetchStreamingResponse (r : response)
  : list (list value) * option jsstring :=
  match r with
  | NoResponse message => ([], Some message)
  | Response ok status body failure =>
      if ok then (read_loop [] body, failure)
      else ([], Some (str "HTTP error! status: " ++ N_to_string status))
  end.

(** The sequence of commands a stream of chunks hands to [onCommand]. *)
Definition decode (chunks : list jsstring) : list value :=
  concat (read_loop [] chunks).

(** ** The state of [App] and [handleGenerate] *)

Record app_state : Type :=
  { commands : list value; loading : bool; error : jsstring }.

(** The [useState] defaults. *)
Definition initial : app_state :=
  {| commands := []; loading := false; error := [] |}.

Inductive update : Type :=
| SetLoading (b : bool)
| SetError (e : jsstring)
| SetCommands (l : list value)
| AddCommand (c : value).      (* [setCommands(prev => [...prev, command])] *)

Definition apply_update (s : app_state) (u : update) : app_state :=
  match u with
  | SetLoading b => {| commands := commands s; loading := b; error := error s |}
  | SetError e => {| commands := commands s; loading := loading s; error := e |}
  | SetCommands l => {| commands := l; loading := loading s; error := error s |}
  | AddCommand c =>
      {| commands := commands s ++ [c]; loading := loading s; error := error s |}
  end.

(** A turn of the event loop: the state updates of a stretch of
    [handleGenerate] between two [await]s, or the settlement of the promise
    of one [EquationRenderer], whose handlers call the setters of that
    component only. *)
Inductive turn : Type :=
| Updates (us : list update)
| TypesetSettled (result : settled value).

Definition apply_turn (s : app_state) (t : turn) : app_state :=
  match t with
  | Updates us => fold_left apply_update us s
  | TypesetSettled _ => s
  end.

Definition run (s : app_state) (ts : list turn) : app_state :=
  fold_left apply_turn ts s.

(** [handleGenerate] (lines 89 to 106) for the prompt in the state and
    what its [fetch] comes to: its turns.  The commands of the reads are
    added as they come; an error thrown after them leaves them in place. *)
Definition handleGenerate (prompt : jsstring) (r : response) : list turn :=
  if str_truthy (trim prompt) then
    Updates [SetLoading true; SetError []; SetCommands []] ::
    let (reads, thrown) := fetchStreamingResponse r in
    map (fun cs => Updates (map AddCommand cs)) reads
    ++ [Updates match thrown with
                | None => [SetLoading false]
                | Some message =>
                    [SetError (str "Error: " ++ message); SetLoading false]
                end]
  else [].

(** ** The command interpreter *)

(** [v * k] with a numeric literal [k]: the product is kept symbolic; the
    conversion of [v] to a number throws on a value without primitive. *)
Inductive scaled : Type := Times (v : value) (k : Q).

Definition times (v : value) (k : Q) : outcome scaled :=
  if has_primitive v then Ret (Times v k) else Throw TypeError.

(** The template literal of line 114, [`${command.type}-${index}`].  The
    key is the identity React reconciles by and no part of the drawable;
    what is kept of it is that it converts the type to a string, which
    throws on a value without primitive.  The index is a number, or for a
    child the string of line 185. *)
Definition key_of (type : value) : outcome unit :=
  if has_primitive type then Ret tt else Throw TypeError.

Record text_props : Type :=
  { t_x : value; t_y : value; t_text : value; t_fontSize : value;
    t_fill : jsstring; t_fontFamily : jsstring;
    t_align : option jsstring; t_fontStyle : option jsstring }.

(** The elements [renderCommand] and the components return; [key] is the
    identity React reconciles by and is not part of the drawable. *)
Inductive element : Type :=
| ENull
| Text (p : text_props)
| MixedTextRenderer (text x y fontSize : value) (latexMatches : list MathSpan)
| EquationRenderer (latex x y fontSize : value)
| Line (points : value) (stroke : jsstring) (strokeWidth : value)
       (lineCap lineJoin : jsstring)
| Rect (x y width height : value) (stroke : jsstring) (strokeWidth : value)
       (fill : jsstring)
| Group (x y : value) (children : list element)
| GroupOf (x y : value) (children : value)   (* [children] is falsy *)
| KonvaImage (x y image : value) (width height : scaled).

Fixpoint map_outcome {A B : Type} (f : A -> outcome B) (l : list A)
  : outcome (list B) :=
  match l with
  | [] => Ret []
  | a :: r => b <- f a ;; bs <- map_outcome f r ;; Ret (b :: bs)
  end.

Section Interpreter.

(** [detectLatex] of [utils/latexRenderer], applied to whatever
    [command.text] is. *)
Variable detectLatex : value -> outcome (list MathSpan).

(** The body of [renderCommand] (lines 114 to 192): the key, then the
    [switch]; [children] is [command.children.map(...)], evaluated in the
    [group] case only. *)
Definition render_switch (command : value) (children : outcome (list element))
  : outcome element :=
  type <- get command (str "type") ;;
  _ <- key_of type ;;
  if is_str type (str "text") then
    text <- get command (str "text") ;;
    latexMatches <- detectLatex text ;;
    x <- get command (str "x") ;;
    y <- get command (str "y") ;;
    fontSize <- get command (str "fontSize") ;;
    match latexMatches with
    | _ :: _ =>
        Ret (MixedTextRenderer text (js_or x (VNum 20)) y
               (js_or fontSize (VNum 16)) latexMatches)
    | [] =>
        Ret (Text {| t_x := js_or x (VNum 20); t_y := y; t_text := text;
                     t_fontSize := js_or fontSize (VNum 16);
                     t_fill := str "#000"; t_fontFamily := str "Arial";
                     t_align := Some (str "left"); t_fontStyle := None |})
    end
  else if is_str type (str "equation") then
    latex <- get command (str "latex") ;;
    text <- get command (str "text") ;;
    x <- get command (str "x") ;;
    y <- get command (str "y") ;;
    fontSize <- get command (str "fontSize") ;;
    Ret (EquationRenderer (js_or latex text) x y (js_or fontSize (VNum 18)))
  else if is_str type (str "line") then
    points <- get command (str "points") ;;
    strokeWidth <- get command (str "strokeWidth") ;;
    Ret (Line points (str "#000") (js_or strokeWidth (VNum 2))
           (str "round") (str "round"))
  else if is_str type (str "rect") then
    x <- get command (str "x") ;;
    y <- get command (str "y") ;;
    width <- get command (str "width") ;;
    height <- get command (str "height") ;;
    Ret (Rect x y width height (str "#000") (VNum 2) (str "transparent"))
  else if is_str type (str "group") then
    x <- get command (str "x") ;;
    y <- get command (str "y") ;;
    kids <- get command (str "children") ;;
    if truthy kids then
      match kids with
      | VArr _ => es <- children ;; Ret (Group x y es)
      | _ => Throw TypeError           (* [children.map] is not a function *)
      end
    else Ret (GroupOf x y kids)
  else Ret ENull.

(** [renderCommand(command, index)].  The recursion goes through the
    [children] property of the command; it is written over the fields so
    that it is structural. *)
Fixpoint renderCommand (command : value) : outcome element :=
  render_switch command
    match command with
    | VObj fields =>
        (fix find (fs : list (jsstring * value)) : outcome (list element) :=
           match fs with
           | [] => Ret []
           | (k, v) :: r =>
               if str_eqb k (str "children") then
                 match v with
                 | VArr items =>
                     (fix each (l : list value) : outcome (list element) :=
                        match l with
                        | [] => Ret []
                        | c :: l' =>
                            e <- renderCommand c ;;
                            es <- each l' ;;
                            Ret (e :: es)
                        end) items
                 | _ => Ret []
                 end
               else find r
           end) fields
    | _ => Ret []
    end.

(** [commands.map((command, index) => renderCommand(command, index))]. *)
Definition render_all (cmds : list value) : outcome (list element) :=
  map_outcome renderCommand cmds.

End Interpreter.

(** ** [EquationRenderer] *)

(** [useState(null)] and [useState(false)]. *)
Record eq_state : Type := { imageData : value; failed : bool }.

Definition eq_initial : eq_state := {| imageData := VNull; failed := false |}.

Section EquationRenderer.

(** [renderLatexToCanvas] of [utils/latexRenderer], not in the sources: the
    settlement of the promise it returns. *)
Variable renderLatexToCanvas : value -> value -> value -> value -> settled value.

(** The effect (lines 287 to 296): the promise chain, settled with the
    setter call its handlers make.  [failed] is the state the source calls
    [error]. *)
Definition EquationRenderer_effect (latex x y fontSize : value)
  : settled (eq_state -> eq_state) :=
  promise_catch
    (promise_then (renderLatexToCanvas latex x y fontSize)
       (fun result st => {| imageData := result; failed := failed st |}))
    (fun err st => {| imageData := imageData st; failed := true |}).

(** The state of the component once the chain has settled; a rejection
    left unhandled would change nothing. *)
Definition EquationRenderer_settle (latex x y fontSize : value) (st : eq_state)
  : eq_state :=
  match EquationRenderer_effect latex x y fontSize with
  | Fulfilled set => set st
  | Rejected _ => st
  end.

End EquationRenderer.

(** What [EquationRenderer] returns (lines 298 to 335). *)
Definition EquationRenderer_render (latex x y fontSize : value) (st : eq_state)
  : outcome element :=
  if failed st then
    Ret (Text {| t_x := x; t_y := y; t_text := latex; t_fontSize := fontSize;
                 t_fill := str "#000"; t_fontFamily := str "Arial";
                 t_align := None; t_fontStyle := Some (str "italic") |})
  else if negb (truthy (imageData st)) then
    Ret (Text {| t_x := x; t_y := y; t_text := VStr (str "Rendering equation...");
                 t_fontSize := fontSize;
                 t_fill := str "#666"; t_fontFamily := str "Arial";
                 t_align := None; t_fontStyle := None |})
  else
    ix <- get (imageData st) (str "x") ;;
    iy <- get (imageData st) (str "y") ;;
    image <- get (imageData st) (str "image") ;;
    w <- get (imageData st) (str "width") ;;
    width <- times w (8 # 10) ;;
    h <- get (imageData st) (str "height") ;;
    height <- times h (8 # 10) ;;
    Ret (KonvaImage ix iy image width height).

End Client.

(* ================================================================== *)
(** * [App.js], batch version *)
(* ================================================================== *)

Module Batch.
Import Js Json EventLoop.

Record equation : Type :=
  { id : jsstring; latex : value; x : value; y : value; fontSize : value }.

Record app_state : Type :=
  { commands : list value; equations : list equation;
    loading : bool; error : jsstring }.

(** The [useState] defaults. *)
Definition initial : app_state :=
  {| commands := []; equations := []; loading := false; error := [] |}.

Inductive update : Type :=
| SetLoading (b : bool)
| SetError (e : jsstring)
| SetCommands (l : list value)
| AddCommand (c : value)        (* [setCommands(prev => [...prev, command])] *)
| SetEquations (l : list equation)
| AddEquation (e : equation).   (* [setEquations(prev => [...prev, {...}])] *)

Definition apply_update (s : app_state) (u : update) : app_state :=
  match u with
  | SetLoading b =>
      {| commands := commands s; equations := equations s;
         loading := b; error := error s |}
  | SetError e =>
      {| commands := commands s; equations := equations s;
         loading := loading s; error := e |}
  | SetCommands l =>
      {| commands := l; equations := equations s;
         loading := loading s; error := error s |}
  | AddCommand c =>
      {| commands := commands s ++ [c]; equations := equations s;
         loading := loading s; error := error s |}
  | SetEquations l =>
      {| commands := commands s; equations := l;
         loading := loading s; error := error s |}
  | AddEquation e =>
      {| commands := commands s; equations := equations s ++ [e];
         loading := loading s; error := error s |}
  end.

(** The state updates of one stretch between two [await]s. *)
Definition turn : Type := list update.

Definition run (s : app_state) (ts : list turn) : app_state :=
  fold_left (fun s us => fold_left apply_update us s) ts s.

(** What the [fetch] of the request comes to.  [NoReply]: the promise
    rejects, with an error of this message.  [Reply]: it resolves; [data]
    is what [response.json()] settles to, the value of the body or the
    rejection of a body that is no JSON text. *)
Inductive reply : Type :=
| NoReply (message : jsstring)
| Reply (ok : bool) (status : N) (data : settled value).

Section Handler.

(** The parts of the language left to the engine: the message of the
    [TypeError] of a read on [null] or [undefined], and the comparison
    [i < v] of an index with a value [v] that is neither a number nor
    [undefined] (it converts [v] to a number and can throw, with the message
    given). *)
Variable TypeError_message : value -> jsstring -> jsstring.
Variable less_than : nat -> value -> outcome bool.

(** The body of the [for] loop (lines 41 to 55) at index [i]; the read of
    [command.type] is the one that can throw. *)
Definition deliver (i : nat) (command : value) : outcome update :=
  type <- read TypeError_message command (str "type") ;;
  if is_str type (str "equation") then
    latex <- get command (str "latex") ;;
    text <- get command (str "text") ;;
    x <- get command (str "x") ;;
    y <- get command (str "y") ;;
    fontSize <- get command (str "fontSize") ;;
    Ret (AddEquation
           {| id := str "eq-" ++ Client.N_to_string (N.of_nat i);
              latex := js_or latex text; x := x; y := y;
              fontSize := js_or fontSize (VNum 20) |})
  else Ret (AddCommand command).

(** What the [catch] and the [finally] do for an error of this message. *)
Definition failed (message : jsstring) : turn :=
  [SetError (str "Error: " ++ message); SetLoading false].

(** The loop from index [i] over the items it is to meet: one turn per
    item, each after its 800 ms timer.  The turn of the last item runs on
    into [closing], what follows the test that ends the loop. *)
Fixpoint deliver_all (i : nat) (items : list value) (closing : turn)
  : list turn :=
  match items with
  | [] => []
  | command :: rest =>
      match deliver i command with
      | Throw message => [failed message]
      | Ret u =>
          match rest with
          | [] => [u :: closing]
          | _ :: _ => [u] :: deliver_all (S i) rest closing
          end
      end
  end.

(** The test [i < data.commands.length] for the [length] of an object. *)
Definition below (i : nat) (length : value) : outcome bool :=
  match length with
  | VNum q => Ret (negb (Qle_bool q (inject_Z (Z.of_nat i))))
  | VUndefined => Ret false
  | _ => less_than i length
  end.

(** The items the loop meets on an object, [data.commands[i]] for the
    indices [i] in turn while the test holds, and the message of the error
    of the test that ends the loop, if it throws.  A property that is
    missing is [undefined], on which the body of the loop throws: nothing
    is met after it.  Every index has its property only up to the number
    of the properties, so the indices up to that number are all the loop
    can reach. *)
Fixpoint object_items (fields : list (jsstring * value)) (length : value)
  (indices : list nat) : list value * option jsstring :=
  match indices with
  | [] => ([], None)
  | i :: more =>
      match below i length with
      | Throw message => ([], Some message)
      | Ret false => ([], None)
      | Ret true =>
          match lookup fields (Client.N_to_string (N.of_nat i)) with
          | Some command =>
              let (items, thrown) := object_items fields length more in
              (command :: items, thrown)
          | None => ([VUndefined], None)
          end
      end
  end.

(** The items of the loop of lines 38 to 56 for a truthy [data.commands]:
    the elements of an array, the code units of a string, the indexed
    properties of an object; a number and [true] have no [length]. *)
Definition items_of (commands : value) : list value * option jsstring :=
  match commands with
  | VArr items => (items, None)
  | VStr s => (map (fun c => VStr [c]) s, None)
  | VObj fields =>
      object_items fields
        match lookup fields (str "length") with
        | Some length => length
        | None => VUndefined
        end
        (seq 0 (S (length fields)))
  | _ => ([], None)
  end.

(** Lines 37 to 61 on the value of the body. *)
Definition on_data (data : value) : list turn :=
  match read TypeError_message data (str "commands") with
  | Throw message => [failed message]
  | Ret commands =>
      if truthy commands then
        let (items, thrown) := items_of commands in
        let closing :=
          match thrown with
          | None => [SetLoading false]
          | Some message => failed message
          end in
        match items with
        | [] => [closing]
        | _ :: _ => deliver_all 0 items closing
        end
      else
        match data with
        | VStr text =>
            [[SetCommands
                [VObj [(str "type", VStr (str "text")); (str "text", VStr text);
                       (str "x", VNum 20); (str "y", VNum 20);
                       (str "fontSize", VNum 16)]];
              SetLoading false]]
        | _ => [[SetError (str "Unexpected response format"); SetLoading false]]
        end
  end.

(** [handleGenerate] (lines 24 to 67) for the prompt in the state and what
    its [fetch] comes to: its turns. *)
Definition handleGenerate (prompt : jsstring) (r : reply) : list turn :=
  if str_truthy (trim prompt) then
    [SetLoading true; SetError []; SetCommands []; SetEquations []] ::
    match r with
    | NoReply message => [failed message]
    | Reply ok status data =>
        if ok then
          match data with
          | Fulfilled data => on_data data
          | Rejected message => [failed message]
          end
        else
          [failed (str "HTTP error! status: " ++ Client.N_to_string status)]
    end
  else [].

End Handler.

(** A stand-in for the comparison of the engine in the examples. *)
Definition never_less (i : nat) (v : value) : outcome bool := Ret false.

End Batch.

(* ================================================================== *)
(** * The presentation layer: absolute positions *)
(* ================================================================== *)

Module Konva.
Import Js Json Client.

Record box : Type := { left : Q; top : Q; width : Q; height : Q }.

(** A coordinate that is not given counts as 0. *)
Definition coord (v : value) : Q :=
  match v with
  | VNum q => q
  | _ => 0%Q
  end.

Definition add (a b : Q) : Q := Qred (a + b).

(** The rectangles of an element in stage coordinates, the element being
    drawn in a parent whose origin is at [(ox, oy)]: a [Group] moves the
    origin of its children by its own [x] and [y]; no node of this program
    is scaled or rotated. *)
Fixpoint absolute_rects (ox oy : Q) (e : element) : list box :=
  match e with
  | Rect x y w h _ _ _ =>
      [{| left := add ox (coord x); top := add oy (coord y);
          width := coord w; height := coord h |}]
  | Group x y children =>
      flat_map (absolute_rects (add ox (coord x)) (add oy (coord y))) children
  | _ => []
  end.


(** The items of the [children] array of a command. *)
Definition children_items (command : value) : list value :=
  match command with
  | VObj fields =>
      match lookup fields (str "children") with
      | Some (VArr items) => items
      | _ => []
      end
  | _ => []
  end.

Definition translate (dx dy : Q) (b : box) : box :=
  {| left := add (left b) dx; top := add (top b) dy;
     width := width b; height := height b |}.

End Konva.

(* ================================================================== *)
(** * The vocabulary of the properties *)
(* ================================================================== *)

Module Frames.
Import Js Json Client.

(** The frame the server writes for a payload (line 104 of [server.js]). *)
Definition frame (payload : jsstring) : jsstring :=
  str "data: " ++ payload ++ [LF; LF].

(** A payload is well formed for a command when it is on one line and is the
    JSON text of the command. *)
Definition well_formed (payload : jsstring) (command : value) : Prop :=
  ~ In LF payload /\ JSON_parse payload = Some command.

(** The complete lines of a text and the fragment after the last line
    feed. *)
Definition lines_of (s : jsstring) : list jsstring := snd (pop (split LF s)).

(** The line is a sentinel frame. *)
Definition is_sentinel (part : jsstring) : bool :=
  str_truthy (trim part) && startsWith part (str "data: ")
  && str_eqb (substring part 6) (str "[DONE]").

(** What one line that is not the sentinel gives to [onCommand]. *)
Definition line_commands (part : jsstring) : list value :=
  if startsWith part (str "data: ") then
    match JSON_parse (substring part 6) with
    | Some command => [command]
    | None => []
    end
  else [].

(** The five variants of the command schema. *)
Definition recognized (type : value) : bool :=
  is_str type (str "text") || is_str type (str "equation")
  || is_str type (str "line") || is_str type (str "rect")
  || is_str type (str "group").

(** A JSON object that carries a recognized [type]. *)
Definition typed_object (v : value) : bool :=
  match v with
  | VObj fields =>
      match lookup fields (str "type") with
      | Some type => recognized type
      | None => false
      end
  | _ => false
  end.

(** A text, or the bytes of a stream, delivered one at a time. *)
Definition one_by_one (text : list N) : list (list N) :=
  map (fun c => [c]) text.

(** A handler for the examples: on a byte below 128 the UTF-8 decoder
    gives the code unit of the same value and keeps no state. *)
Definition ascii_handler (st : unit) (b : N) : unit * jsstring := (st, [b]).

(** The same for [chunk.toString()]: the text of a chunk of bytes below
    128. *)
Definition ascii_text (chunk : list N) : jsstring := chunk.

End Frames.

Module Patterns.
Import Js Json Regex Server.

Definition lbrace : char := 123%N.
Definition rbrace : char := 125%N.

Definition brace_free (s : jsstring) : Prop :=
  ~ In lbrace s /\ ~ In rbrace s.

(** A bracket-balanced text without nested braces: an opening brace, a body
    without braces, a closing brace. *)
Definition flat_object (m : jsstring) : Prop :=
  exists body, m = lbrace :: body ++ [rbrace] /\ brace_free body.

(** The text [m] is the substring of [text] that starts at offset [i]. *)
Definition occurs_at (text : jsstring) (i : nat) (m : jsstring) : Prop :=
  exists pre post, text = pre ++ m ++ post /\ length pre = i.

(** In the words of the spec: the command a substring gives when it parses
    as JSON with a truthy [type] field, and nothing otherwise. *)
Definition typed_command (m : jsstring) : list value :=
  match JSON_parse m with
  | Some (VObj fields as command) =>
      match lookup fields (str "type") with
      | Some type => if truthy type then [command] else []
      | None => []
      end
  | _ => []
  end.

(** The matches of the pattern of [extractCommands] in a text, with their
    offsets. *)
Definition matches (text : jsstring) : list (nat * jsstring) :=
  match_all command_pattern 0 0 text.

(** A line of the upstream body that is a frame whose envelope carries the
    string [text]. *)
Definition envelope (text line : jsstring) : Prop :=
  startsWith line (str "data: ") = true
  /\ exists parsed,
       JSON_parse (substring line 6) = Some parsed
       /\ candidate_text parsed = Ret (Some (VStr text)).

(** The pattern after its opening brace. *)
Definition body_close (s : jsstring) : option nat :=
  match_here [Star (NoneOf [lbrace; rbrace]); One (Lit rbrace)] s.

End Patterns.

Module Spans.
Import Js Json LatexRenderer EventLoop.

(** The delimiters of a text are balanced. *)
Definition balanced (text : jsstring) : Prop := pending 0 None text = None.

(** A span delimits, in the source, its markup between two delimiters. *)
Definition delimits (text : jsstring) (sp : MathSpan) : Prop :=
  substring2 text (start sp) (stop sp) = dollar :: latex sp ++ [dollar]
  /\ ~ In dollar (latex sp).

(** The state of the scan is sound for the text read so far: the pending
    delimiter is where the state says and the markup read since holds no
    delimiter. *)
Definition state_ok (pre : jsstring) (inside : option (nat * jsstring)) : Prop :=
  match inside with
  | None => True
  | Some (from, acc) =>
      exists p0, pre = p0 ++ dollar :: rev acc /\ length p0 = from
                 /\ ~ In dollar acc
  end.

(** The depth of braces at the end of a markup, [None] when a closing brace
    has no opening one. *)
Fixpoint brace_depth (depth : nat) (s : jsstring) : option nat :=
  match s with
  | [] => Some depth
  | c :: r =>
      if (c =? 123)%N then brace_depth (S depth) r
      else if (c =? 125)%N then
        match depth with
        | O => None
        | S d => brace_depth d r
        end
      else brace_depth depth r
  end.

(** A typesetter for the examples: it rejects a markup whose braces do not
    match and gives an image of a fixed size otherwise. *)
Definition typeset_matched (latex x y fontSize : value) : settled value :=
  match latex with
  | VStr s =>
      match brace_depth 0 s with
      | Some O =>
          Fulfilled (VObj [(str "x", x); (str "y", y);
                           (str "image", VStr s);
                           (str "width", VNum 100); (str "height", VNum 20)])
      | _ => Rejected (str "ParseError")
      end
  | _ => Rejected (str "TypeError")
  end.

End Spans.

Module Requests.
Import Js Json EventLoop Frames.

(** A turn that leaves the lists of the canvas alone: it sets neither
    [commands] nor [equations].  The settlement of a typeset promise is
    one, and so is the [finally] of a request. *)
Definition update_quiet (u : Client.update) : bool :=
  match u with
  | Client.SetCommands _ | Client.AddCommand _ => false
  | _ => true
  end.

Definition quiet (t : Client.turn) : bool :=
  match t with
  | Client.Updates us => forallb update_quiet us
  | Client.TypesetSettled _ => true
  end.

Definition batch_update_quiet (u : Batch.update) : bool :=
  match u with
  | Batch.SetLoading _ | Batch.SetError _ => true
  | _ => false
  end.

Definition batch_quiet (t : Batch.turn) : bool := forallb batch_update_quiet t.

(** What a turn does to [commands], and to the two lists of the batch
    version. *)
Definition commands_update (cs : list value) (u : Client.update) : list value :=
  match u with
  | Client.SetCommands l => l
  | Client.AddCommand c => cs ++ [c]
  | _ => cs
  end.

Definition commands_turn (cs : list value) (t : Client.turn) : list value :=
  match t with
  | Client.Updates us => fold_left commands_update us cs
  | Client.TypesetSettled _ => cs
  end.

Definition lists_update (p : list value * list Batch.equation) (u : Batch.update)
  : list value * list Batch.equation :=
  match u with
  | Batch.SetCommands l => (l, snd p)
  | Batch.AddCommand c => (fst p ++ [c], snd p)
  | Batch.SetEquations l => (fst p, l)
  | Batch.AddEquation e => (fst p, snd p ++ [e])
  | _ => p
  end.

Definition lists_turn (p : list value * list Batch.equation) (t : Batch.turn)
  : list value * list Batch.equation :=
  fold_left lists_update t p.

Definition lists (s : Batch.app_state) : list value * list Batch.equation :=
  (Batch.commands s, Batch.equations s).

(** The example of a prompt issued while the stream of the one before is
    still read: the earlier request has shown an equation, whose typesetting
    is pending, and has one more frame to come. *)
Definition old_equation : value :=
  VObj [(str "type", VStr (str "equation")); (str "latex", VStr (str "a^2"))].

Definition old_text : value :=
  VObj [(str "type", VStr (str "text")); (str "text", VStr (str "old"))].

Definition new_text : value :=
  VObj [(str "type", VStr (str "text")); (str "text", VStr (str "new"))].

Definition old_response : Client.response :=
  Client.Response true 200%N
    [frame (quoted "{'type':'equation','latex':'a^2'}");
     frame (quoted "{'type':'text','text':'old'}")]
    None.

Definition new_response : Client.response :=
  Client.Response true 200%N
    [frame (quoted "{'type':'text','text':'new'}")] None.

(** The turns of the earlier request still to come when the new prompt is
    issued: the settlement of the typesetting, the second frame, the
    [finally]. *)
Definition old_pending : list Client.turn :=
  [Client.TypesetSettled (Fulfilled (VObj [(str "width", VNum 100)]));
   Client.Updates [Client.AddCommand old_text];
   Client.Updates [Client.SetLoading false]].

(** The turns of the whole run: the earlier request up to its first frame,
    the new prompt, then the pending turns of the earlier request and the
    turns of the new one as they come. *)
Definition stale_run : list Client.turn :=
  [Client.Updates [Client.SetLoading true; Client.SetError [];
                   Client.SetCommands []];
   Client.Updates [Client.AddCommand old_equation];
   Client.Updates [Client.SetLoading true; Client.SetError [];
                   Client.SetCommands []];
   Client.TypesetSettled (Fulfilled (VObj [(str "width", VNum 100)]));
   Client.Updates [Client.AddCommand old_text];
   Client.Updates [Client.AddCommand new_text];
   Client.Updates [Client.SetLoading false];
   Client.Updates [Client.SetLoading false]].

End Requests.

(* ================================================================== *)
(** * [App.js], streaming version: the rest of the component *)
(* ================================================================== *)

Module Canvas.
Import Js Json LatexRenderer EventLoop Client.

(** [clearCanvas] (lines 108 to 111): one turn, the click on Clear. *)
Definition clearCanvas : turn := Updates [SetCommands []; SetError []].

(** The run [ts] with the turn [t] taking place after its first [n]
    turns. *)
Definition insert_turn (n : nat) (t : turn) (ts : list turn) : list turn :=
  firstn n ts ++ t :: skipn n ts.

End Canvas.

Module Boundaries.
Import Js Json Regex Server Patterns.

(** The text is empty or ends with a closing brace. *)
Definition closed_end (s : jsstring) : Prop :=
  s = [] \/ exists s', s = s' ++ [rbrace].

(** The text holds a brace. *)
Definition has_brace (s : jsstring) : Prop := In lbrace s \/ In rbrace s.

(** The lines of an upstream body, each with its line feed. *)
Definition join_lines (lines : list jsstring) : jsstring :=
  concat (map (fun l => l ++ [LF]) lines).

End Boundaries.

Module Shapes.
Import Js Json LatexRenderer Client.

Section WithDetector.

Variable detectLatex : value -> outcome (list MathSpan).

(** The commands [renderCommand] takes without throwing: the [type] can be
    read and, for the key, converted to a string; for a text the detector
    returns; for a group [children] is falsy, or an array of such
    commands. *)
Inductive renderable : value -> Prop :=
| Renderable_text : forall c type text spans,
    get c (str "type") = Ret type -> is_str type (str "text") = true ->
    get c (str "text") = Ret text -> detectLatex text = Ret spans ->
    renderable c
| Renderable_plain : forall c type,
    get c (str "type") = Ret type -> has_primitive type = true ->
    is_str type (str "text") = false ->
    is_str type (str "group") = false ->
    renderable c
| Renderable_childless : forall c type kids,
    get c (str "type") = Ret type -> is_str type (str "group") = true ->
    get c (str "children") = Ret kids -> truthy kids = false ->
    renderable c
| Renderable_group : forall c type items,
    get c (str "type") = Ret type -> is_str type (str "group") = true ->
    get c (str "children") = Ret (VArr items) ->
    Forall renderable items ->
    renderable c.

End WithDetector.

End Shapes.

Module Mixed.
Import Js Json LatexRenderer Client.

(** The horizontal position of a part of [MixedTextRenderer]: the [x] of
    the component, moved on by the widths the effect adds; kept
    symbolic. *)
Inductive position : Type :=
| At (x : value)
| AfterText (p : position) (len : nat) (fontSize : value)
                                    (* [p + len * fontSize * 0.6] *)
| AfterLatex (p : position).        (* [p + 100] *)

Inductive part_type : Type := PText | PLatex.

Record part : Type :=
  { p_type : part_type; p_content : jsstring;
    p_x : position; p_y : value; p_fontSize : value }.

(** The variables of the effect: [parts], [lastIndex], [currentXPos]. *)
Record layout : Type :=
  { parts : list part; lastIndex : nat; currentXPos : position }.

Section Effect.

(** The props; [text] is a string, the one the spans were found in: on
    another value [substring] is no function. *)
Variable text : jsstring.
Variables x y fontSize : value.

Definition text_part (content : jsstring) (at_x : position) : part :=
  {| p_type := PText; p_content := content; p_x := at_x; p_y := y;
     p_fontSize := fontSize |}.

Definition latex_part (content : jsstring) (at_x : position) : part :=
  {| p_type := PLatex; p_content := content; p_x := at_x; p_y := y;
     p_fontSize := fontSize |}.

(** The text before a span (lines 206 to 218). *)
Definition before_match (st : layout) (m : MathSpan) : layout :=
  if lastIndex st <? start m then
    let textPart := substring2 text (lastIndex st) (start m) in
    if str_truthy (trim textPart) then
      {| parts := parts st ++ [text_part textPart (currentXPos st)];
         lastIndex := lastIndex st;
         currentXPos :=
           AfterText (currentXPos st) (length textPart) fontSize |}
    else st
  else st.

(** The callback of the [forEach] (lines 204 to 231); [stop] is the [end]
    of the span. *)
Definition each_match (st : layout) (m : MathSpan) : layout :=
  let st := before_match st m in
  {| parts := parts st ++ [latex_part (latex m) (currentXPos st)];
     lastIndex := stop m;
     currentXPos := AfterLatex (currentXPos st) |}.

(** The text after the last span (lines 234 to 245). *)
Definition remaining (st : layout) : list part :=
  if lastIndex st <? length text then
    let remainingText := substring text (lastIndex st) in
    if str_truthy (trim remainingText) then
      parts st ++ [text_part remainingText (currentXPos st)]
    else parts st
  else parts st.

(** The effect of [MixedTextRenderer] (lines 199 to 248): the parts it
    hands to [setRenderedParts]. *)
Definition mixed_parts (latexMatches : list MathSpan) : list part :=
  remaining
    (fold_left each_match latexMatches
       {| parts := []; lastIndex := 0; currentXPos := At x |}).

End Effect.

(** The value of a position when the [x] and the font sizes in it are
    numbers; the products and sums are exact. *)
Fixpoint position_value (p : position) : option Q :=
  match p with
  | At (VNum q) => Some q
  | At _ => None
  | AfterText p len (VNum f) =>
      option_map (fun q => Qred (q + inject_Z (Z.of_nat len) * f * (6 # 10))%Q)
        (position_value p)
  | AfterText _ _ _ => None
  | AfterLatex p => option_map (fun q => Qred (q + 100)%Q) (position_value p)
  end.



(** The part at the left is not to the right of the other one. *)
Definition left_of (a b : part) : Prop :=
  exists qa qb,
    position_value (p_x a) = Some qa /\ position_value (p_x b) = Some qb
    /\ (qa <= qb)%Q.




(** The part is not to the right of the position [q]. *)
Definition reaches (q : Q) (p : part) : Prop :=
  exists qp, position_value (p_x p) = Some qp /\ (qp <= q)%Q.

End Mixed.

Module Board.
Import Js Json Batch.

(** [clearCanvas] of the batch application (lines 69 to 73). *)
Definition clearCanvas : turn := [SetCommands []; SetEquations []; SetError []].




(** A property of the value can be read: it is neither [null] nor
    [undefined]. *)
Definition readable (c : value) : bool :=
  match c with
  | VUndefined | VNull => false
  | _ => true
  end.

(** The command is one the loop of [handleGenerate] puts among the
    equations. *)
Definition is_equation (c : value) : bool :=
  match get c (str "type") with
  | Ret type => is_str type (str "equation")
  | Throw _ => false
  end.

Definition is_text (c : value) : bool :=
  match get c (str "type") with
  | Ret type => is_str type (str "text")
  | Throw _ => false
  end.

(** The indices, counted from [i], of the equation commands. *)
Fixpoint equation_positions (i : nat) (items : list value) : list nat :=
  match items with
  | [] => []
  | c :: rest =>
      if is_equation c then i :: equation_positions (S i) rest
      else equation_positions (S i) rest
  end.

(** The [id] the loop gives to the equation at index [i]. *)
Definition equation_id (i : nat) : jsstring :=
  str "eq-" ++ Client.N_to_string (N.of_nat i).



End Board.

Module Wire.
Import Js Json Server Frames.

Section WithStringify.

(** [JSON.stringify], of ECMA-262, on the commands written. *)
Variable JSON_stringify : value -> jsstring.

(** What the calls on [res] send to the client: the frames written (line
    104 of [server.js]) until the response is ended. *)
Fixpoint wire (calls : list res_call) : jsstring :=
  match calls with
  | [] => []
  | ResWrite command :: more => frame (JSON_stringify command) ++ wire more
  | ResEnd :: _ => []
  end.

End WithStringify.

(** The commands of the frames sent. *)
Fixpoint written (calls : list res_call) : list value :=
  match calls with
  | [] => []
  | ResWrite command :: more => command :: written more
  | ResEnd :: _ => []
  end.

(** A stand-in for [JSON.stringify] in the examples, right on the objects
    that hold a [type] only. *)
Definition stringify_type (v : value) : jsstring :=
  match v with
  | VObj [(_, VStr type)] => quoted "{'type':'" ++ type ++ quoted "'}"
  | _ => str "null"
  end.

End Wire.

Module Speech.
Import Js Json Batch.

(** A [SpeechSynthesisVoice]: its name and its language tag. *)
Record voice : Type := { v_name : jsstring; v_lang : jsstring }.

(** What [handleSpeak] does: an [alert], or, after [cancel()], [speak] of
    an utterance of the text with the preferred voice ([None]: the voice
    is not set). *)
Inductive speech : Type :=
| Alert (message : jsstring)
| Speak (text : jsstring) (preferred : option voice).

(** [s.includes(t)]. *)
Fixpoint includes (s t : jsstring) : bool :=
  startsWith s t
  || match s with
     | [] => false
     | _ :: r => includes r t
     end.

(** [s.replace(/\\/g, " ")]: every backslash becomes a space. *)
Definition replace_backslashes (s : jsstring) : jsstring :=
  map (fun c => if (c =? 92)%N then 32%N else c) s.

Section HandleSpeak.

(** [Number::toString] and [String.prototype.toLowerCase], of ECMA-262. *)
Variable number_to_string : Q -> jsstring.
Variable toLowerCase : jsstring -> jsstring.

(** The first [forEach] (lines 85 to 89), from the text so far;
    [cmd.text + ". "] converts the text to a string, which throws on a
    value without primitive. *)
Fixpoint speak_commands (textToSpeak : jsstring) (commands : list value)
  : outcome jsstring :=
  match commands with
  | [] => Ret textToSpeak
  | cmd :: rest =>
      type <- get cmd (str "type") ;;
      if is_str type (str "text") then
        text <- get cmd (str "text") ;;
        text <- Server.to_string number_to_string text ;;
        speak_commands (textToSpeak ++ text ++ str ". ") rest
      else speak_commands textToSpeak rest
  end.

(** The second [forEach] (lines 92 to 94): only a string has [replace]. *)
Fixpoint speak_equations (textToSpeak : jsstring) (equations : list equation)
  : outcome jsstring :=
  match equations with
  | [] => Ret textToSpeak
  | eq :: rest =>
      match latex eq with
      | VStr s =>
          speak_equations
            (textToSpeak ++ str "Equation: " ++ replace_backslashes s
             ++ str ". ")
            rest
      | _ => Throw TypeError
      end
  end.

(** [handleSpeak] (lines 76 to 114) in a browser that has speech synthesis
    or not, with the voices [getVoices()] gives. *)
Definition handleSpeak (supported : bool) (voices : list voice) (s : app_state)
  : outcome speech :=
  if negb supported then
    Ret (Alert (str "Speech synthesis not supported in this browser."))
  else
    textToSpeak <- speak_commands [] (commands s) ;;
    textToSpeak <- speak_equations textToSpeak (equations s) ;;
    if negb (str_truthy (trim textToSpeak)) then
      Ret (Alert (str "Nothing on the board to speak."))
    else
      let preferred :=
        match find (fun v => includes (toLowerCase (v_name v)) (str "female"))
                voices with
        | Some v => Some v
        | None => find (fun v => str_eqb (v_lang v) (str "en-US")) voices
        end in
      Ret (Speak textToSpeak preferred).

End HandleSpeak.

(** The markup of the equation is a string. *)
Definition has_markup (e : equation) : bool :=
  match latex e with
  | VStr _ => true
  | _ => false
  end.

(** A command that is no text of the board. *)
Definition silent (c : value) : bool :=
  Board.readable c && negb (Board.is_text c).

End Speech.

Module Generate.
Import Js Json.

(** The answer of the endpoint: [res.status(n).json(v)]; [res.json(v)]
    answers with status 200. *)
Record reply : Type := { r_status : N; r_body : value }.

(** What the [fetch] of the upstream comes to.  [Unreachable]: the promise
    of [fetch], or the one of the read of the body after it, rejects with
    an error of this message.  [Upstream]: both resolve, with [response.ok]
    and the text of the body. *)
Inductive upstream : Type :=
| Unreachable (message : jsstring)
| Upstream (ok : bool) (text : jsstring).

Definition up_ok (u : upstream) : bool :=
  match u with
  | Upstream ok _ => ok
  | Unreachable _ => false
  end.

Definition up_text (u : upstream) : jsstring :=
  match u with
  | Upstream _ text => text
  | Unreachable _ => []
  end.

Definition fence : jsstring := str "```".

(** The code unit is the letter [lower], in either case: what the flag [i]
    of a regular expression makes of an ASCII letter. *)
Definition same_letter (c lower : char) : bool :=
  (c =? lower)%N || (c =? lower - 32)%N.

Fixpoint startsWith_i (s p : jsstring) {struct p} : bool :=
  match p, s with
  | [], _ => true
  | x :: p', y :: s' => same_letter y x && startsWith_i s' p'
  | _ :: _, [] => false
  end.

(** [s.replace(/^```json\s*/i, '')] (line 220): an opening fence with its
    tag and the white space after it. *)
Definition strip_json_fence (s : jsstring) : jsstring :=
  if startsWith s fence && startsWith_i (skipn 3 s) (str "json")
  then trimStart (skipn 7 s) else s.

(** [s.replace(/^```\s*/i, '')] (line 221). *)
Definition strip_fence (s : jsstring) : jsstring :=
  if startsWith s fence then trimStart (skipn 3 s) else s.

(** [s.replace(/```\s*$/i, '')] (line 222): the first place where a fence
    stands with nothing but white space after it, cut off with all that
    follows. *)
Fixpoint strip_closing_fence (s : jsstring) : jsstring :=
  match s with
  | [] => []
  | c :: r =>
      if startsWith s fence && forallb is_space (skipn 3 s) then []
      else c :: strip_closing_fence r
  end.

(** The sanitizing of lines 219 to 222. *)
Definition sanitize (rawText : jsstring) : jsstring :=
  strip_closing_fence (strip_fence (strip_json_fence (trim rawText))).

(** The longest beginning of [s] that ends in a closing bracket: what
    [.*\]] matches at the head of [s] under the flag [s]. *)
Fixpoint upto_last_close (s : jsstring) : option jsstring :=
  match s with
  | [] => None
  | c :: r =>
      match upto_last_close r with
      | Some t => Some (c :: t)
      | None => if (c =? 93)%N then Some [c] else None
      end
  end.

(** [s.match(/\[.*\]/s)]: the match, from the first opening bracket that
    has a closing one after it to the last closing bracket. *)
Fixpoint match_array (s : jsstring) : option jsstring :=
  match s with
  | [] => None
  | c :: r =>
      if (c =? 91)%N then
        match upto_last_close r with
        | Some t => Some (c :: t)
        | None => match_array r
        end
      else match_array r
  end.

(** Lines 225 to 238: [commands], [None] while it is [null]. *)
Definition parse_commands (rawText : jsstring) : option value :=
  match JSON_parse rawText with
  | Some commands => Some commands
  | None =>
      match match_array rawText with
      | Some m => JSON_parse m
      | None => None
      end
  end.

(** Lines 219 to 245: the answer for the raw text of the model. *)
Definition respond (rawText : jsstring) : reply :=
  let rawText := sanitize rawText in
  match parse_commands rawText with
  | Some commands =>
      if truthy commands then
        {| r_status := 200; r_body := VObj [(str "commands", commands)] |}
      else {| r_status := 200; r_body := VStr rawText |}
  | None => {| r_status := 200; r_body := VStr rawText |}
  end.

Section Endpoint.

(** [JSON.stringify], of ECMA-262; [None] is [undefined]. *)
Variable JSON_stringify : value -> option jsstring.

(** The messages of the errors the [catch] of line 246 can meet: of the
    [TypeError] of a read on [null] or [undefined], and of the rejection of
    [response.json()] on a body that is no JSON text. *)
Variable TypeError_message : value -> jsstring -> jsstring.
Variable json_message : jsstring -> jsstring.

Definition stringified (v : value) : value :=
  match JSON_stringify v with
  | Some s => VStr s
  | None => VUndefined
  end.

(** Lines 208 to 213: the text of the first candidate, or the whole body
    as JSON. *)
Definition raw_text (body : value) : outcome value :=
  candidates <- read TypeError_message body (str "candidates") ;;
  if truthy candidates then
    first <- get0 candidates ;;
    if truthy first then
      content <- get first (str "content") ;;
      if truthy content then
        parts <- get content (str "parts") ;;
        if truthy parts then
          part <- get0 parts ;;
          read TypeError_message part (str "text")
        else Ret (stringified body)
      else Ret (stringified body)
    else Ret (stringified body)
  else Ret (stringified body).

(** Line 216, and the receiver of [trim] in line 219. *)
Definition as_string (rawText : value) : outcome jsstring :=
  match rawText with
  | VStr s => Ret s
  | _ =>
      match JSON_stringify rawText with
      | Some s => Ret s
      | None => Throw (TypeError_message VUndefined (str "trim"))
      end
  end.

(** The handler of [/api/generate] (lines 155 to 250) on the response of
    the upstream. *)
Definition generate (u : upstream) : reply :=
  match
    match u with
    | Unreachable message => Throw message
    | Upstream ok text =>
        if ok then
          match JSON_parse text with
          | Some body =>
              rawText <- raw_text body ;;
              rawText <- as_string rawText ;;
              Ret (respond rawText)
          | None => Throw (json_message text)
          end
        else
          Ret {| r_status := 500;
                 r_body := VObj [(str "error", VStr (str "Upstream API error"));
                                 (str "details", VStr text)] |}
    end
  with
  | Ret r => r
  | Throw message =>
      {| r_status := 500;
         r_body := VObj [(str "error", VStr (str "server error"));
                         (str "details", VStr message)] |}
  end.

End Endpoint.

(** A stand-in for [JSON.stringify] in the examples. *)
Definition stringify_none (v : value) : option jsstring := None.

End Generate.

(* ================================================================== *)
(** * Properties *)
(* ================================================================== *)

Unset Implicit Arguments.

(** ** Strings *)

Module JsFacts.
Import Js.

Lemma str_eqb_eq : forall a b, str_eqb a b = true <-> a = b.
Proof.
  induction a as [|x a IH]; destruct b as [|y b]; simpl; split;
    try congruence; try reflexivity.
  - rewrite andb_true_iff, N.eqb_eq, IH. intros [-> ->]. reflexivity.
  - intros H. injection H as -> ->. now rewrite N.eqb_refl, (proj2 (IH b)).
Qed.

Lemma str_eqb_refl : forall a, str_eqb a a = true.
Proof. intros a. now apply str_eqb_eq. Qed.

Lemma str_eqb_neq : forall a b, a <> b -> str_eqb a b = false.
Proof.
  intros a b H. destruct (str_eqb a b) eqn:E; [|reflexivity].
  apply str_eqb_eq in E. contradiction.
Qed.

Lemma startsWith_app : forall p s, startsWith (p ++ s) p = true.
Proof.
  induction p as [|x p IH]; intros s; simpl; [reflexivity|].
  now rewrite N.eqb_refl, IH.
Qed.

Lemma startsWith_inv : forall p s,
  startsWith s p = true -> s = p ++ substring s (length p).
Proof.
  induction p as [|x p IH]; intros s H; simpl in *; [reflexivity|].
  destruct s as [|y s]; [discriminate|].
  apply andb_true_iff in H as [Hxy H]. apply N.eqb_eq in Hxy. subst y.
  unfold substring in *. simpl. f_equal. now apply IH.
Qed.

Lemma substring_app : forall p s, substring (p ++ s) (length p) = s.
Proof.
  induction p as [|x p IH]; intros s; [reflexivity|]. apply IH.
Qed.

(** [trimStart] only removes white space. *)
Lemma trimStart_keeps : forall c s,
  In c s -> is_space c = false -> In c (trimStart s).
Proof.
  intros c s. induction s as [|x s IH]; intros Hin Hc; simpl in *; [assumption|].
  destruct (is_space x) eqn:Ex.
  - destruct Hin as [-> | Hin]; [congruence | now apply IH].
  - assumption.
Qed.

Lemma trim_keeps : forall c s,
  In c s -> is_space c = false -> In c (trim s).
Proof.
  intros c s Hin Hc. unfold trim, trimEnd.
  apply in_rev. rewrite rev_involutive.
  apply trimStart_keeps; [|assumption].
  apply -> in_rev. now apply trimStart_keeps.
Qed.

Lemma trim_truthy : forall c s,
  In c s -> is_space c = false -> str_truthy (trim s) = true.
Proof.
  intros c s Hin Hc. pose proof (trim_keeps c s Hin Hc) as H.
  destruct (trim s); [contradiction | reflexivity].
Qed.

(** A line that carries the frame prefix is never blank: the test
    [part.trim()] of the two loops only drops lines the prefix test drops
    as well. *)
Lemma prefixed_not_blank : forall part,
  startsWith part (str "data: ") = true -> str_truthy (trim part) = true.
Proof.
  intros part H. apply startsWith_inv in H. rewrite H.
  apply (trim_truthy 100%N); [|reflexivity].
  simpl. now left.
Qed.

Lemma pop_snoc : forall (A : Type) (l : list A) (x : A),
  pop (l ++ [x]) = (Some x, l).
Proof.
  intros A l x. unfold pop. rewrite rev_app_distr. simpl.
  now rewrite rev_involutive.
Qed.

(** [split] gives the complete lines followed by the fragment after the
    last separator. *)
Lemma split_snoc : forall sep s,
  exists init last,
    split sep s = init ++ [last] /\ ~ In sep last /\
    s = concat (map (fun l => l ++ [sep]) init) ++ last.
Proof.
  intros sep s. induction s as [|c s (init & last & Hs & Hl & Hc)]; simpl.
  - exists [], []. repeat split; auto.
  - destruct (N.eqb_spec c sep) as [-> | Hne].
    + exists ([] :: init), last. rewrite Hs. repeat split; auto.
      simpl. now rewrite <- Hc.
    + rewrite Hs. destruct init as [|p ps]; simpl in *.
      * exists [], (c :: last). repeat split; auto.
        -- simpl. intros [E | E]; [congruence | contradiction].
        -- now rewrite Hc.
      * exists ((c :: p) :: ps), last. repeat split; auto.
        simpl. now rewrite Hc.
Qed.

Lemma split_line : forall sep line s,
  ~ In sep line -> split sep (line ++ sep :: s) = line :: split sep s.
Proof.
  intros sep line s. induction line as [|c line IH]; intros Hn; simpl.
  - now rewrite N.eqb_refl.
  - destruct (N.eqb_spec c sep) as [-> | Hne].
    + exfalso. apply Hn. now left.
    + rewrite IH; [reflexivity|]. intros H. apply Hn. now right.
Qed.

Lemma split_no_sep : forall sep s, ~ In sep s -> split sep s = [s].
Proof.
  intros sep s. induction s as [|c s IH]; intros Hn; simpl; [reflexivity|].
  destruct (N.eqb_spec c sep) as [-> | Hne].
  - exfalso. apply Hn. now left.
  - rewrite IH; [reflexivity|]. intros H. apply Hn. now right.
Qed.

(** Splitting a text that goes on: the complete lines stay, the fragment is
    split with what follows. *)
Lemma split_app : forall sep a b init last,
  split sep a = init ++ [last] ->
  split sep (a ++ b) = init ++ split sep (last ++ b).
Proof.
  intros sep a. induction a as [|c a IH]; intros b init last H; simpl in *.
  - destruct init as [|p [|q r]]; simpl in H; try discriminate.
    now injection H as <-.
  - destruct (N.eqb_spec c sep) as [-> | Hne].
    + destruct init as [|p init]; simpl in H.
      * injection H as <-. destruct (split_snoc sep a) as (i & l & E & _).
        rewrite E in H. now destruct i.
      * injection H as <- H. simpl. f_equal. now apply IH.
    + destruct (split_snoc sep a) as (i & l & E & Hl & _).
      rewrite E in H. rewrite (IH b i l E).
      destruct i as [|p i]; simpl in *.
      * assert (init = [] /\ last = c :: l) as [-> ->].
        { destruct init as [|p init]; simpl in H.
          - now injection H as <-.
          - injection H as _ H. now destruct init. }
        simpl. rewrite (proj2 (N.eqb_neq c sep) Hne). reflexivity.
      * destruct init as [|p' init]; simpl in H.
        -- injection H as _ H. now destruct i.
        -- injection H as <- H. apply app_inj_tail in H as [-> ->].
           reflexivity.
Qed.

End JsFacts.

(** ** The stream decoder *)

Module DecoderFacts.
Import Js Json Client Frames JsFacts.

Lemma pop_split : forall s,
  exists init last,
    split LF s = init ++ [last] /\ pop (split LF s) = (Some last, init).
Proof.
  intros s. destruct (split_snoc LF s) as (init & last & E & _).
  exists init, last. split; [assumption|]. rewrite E. apply pop_snoc.
Qed.

Lemma lines_of_app : forall a b init last,
  split LF a = init ++ [last] ->
  lines_of (a ++ b) = init ++ lines_of (last ++ b).
Proof.
  intros a b init last E. unfold lines_of.
  rewrite (split_app LF a b init last E).
  destruct (pop_split (last ++ b)) as (i & l & E' & P).
  rewrite P, E', app_assoc, pop_snoc. reflexivity.
Qed.

Lemma process_parts_cons : forall part rest,
  process_parts (part :: rest) =
  if str_truthy (trim part) then
    if startsWith part (str "data: ") then
      if str_eqb (substring part 6) (str "[DONE]") then []
      else match JSON_parse (substring part 6) with
           | Some command => command :: process_parts rest
           | None => process_parts rest
           end
    else process_parts rest
  else process_parts rest.
Proof. reflexivity. Qed.

Lemma process_parts_step : forall part rest,
  is_sentinel part = false ->
  process_parts (part :: rest) = line_commands part ++ process_parts rest.
Proof.
  intros part rest H. rewrite process_parts_cons. unfold line_commands.
  unfold is_sentinel in H.
  destruct (startsWith part (str "data: ")) eqn:Ep.
  - rewrite (prefixed_not_blank part Ep) in *. rewrite !andb_true_l in H.
    rewrite H. now destruct (JSON_parse (substring part 6)).
  - now destruct (str_truthy (trim part)).
Qed.

(** Without a sentinel the loop gives every line its commands, in order. *)
Lemma process_parts_flat : forall parts,
  Forall (fun p => is_sentinel p = false) parts ->
  process_parts parts = flat_map line_commands parts.
Proof.
  induction 1 as [|part parts H _ IH]; [reflexivity|].
  rewrite process_parts_step by assumption. simpl. now rewrite IH.
Qed.

Lemma lines_of_fragment : forall s, ~ In LF s -> lines_of s = [].
Proof.
  intros s H. unfold lines_of. rewrite (split_no_sep LF s H). reflexivity.
Qed.

Lemma read_loop_cons : forall buffer chunk more init last,
  split LF (buffer ++ chunk) = init ++ [last] ->
  read_loop buffer (chunk :: more) = process_parts init :: read_loop last more.
Proof.
  intros buffer chunk more init last E. simpl. rewrite E, pop_snoc. reflexivity.
Qed.

(** The decoder on any chunking, when no complete line is a sentinel: the
    commands of the complete lines of the whole text. *)
Lemma read_loop_whole : forall chunks buffer,
  ~ In LF buffer ->
  Forall (fun p => is_sentinel p = false) (lines_of (buffer ++ concat chunks)) ->
  concat (read_loop buffer chunks)
  = flat_map line_commands (lines_of (buffer ++ concat chunks)).
Proof.
  induction chunks as [|chunk chunks IH]; intros buffer Hb H.
  - simpl. rewrite app_nil_r. now rewrite (lines_of_fragment buffer Hb).
  - destruct (split_snoc LF (buffer ++ chunk)) as (init & last & E & Hl & _).
    rewrite (read_loop_cons buffer chunk chunks init last E).
    simpl concat in *. rewrite app_assoc in *.
    rewrite (lines_of_app _ _ init last E) in *.
    apply Forall_app in H as [Hi Hr].
    rewrite flat_map_app, (IH last Hl Hr), (process_parts_flat init Hi).
    reflexivity.
Qed.

Lemma split_frames : forall payloads,
  Forall (fun p => ~ In LF p) payloads ->
  split LF (concat (map frame payloads))
  = flat_map (fun p => [str "data: " ++ p; []]) payloads ++ [[]].
Proof.
  induction 1 as [|p ps Hp _ IH]; [reflexivity|].
  change (concat (map frame (p :: ps)))
    with (frame p ++ concat (map frame ps)).
  unfold frame at 1. rewrite app_assoc, <- app_assoc.
  change ([LF; LF] ++ concat (map frame ps))
    with (LF :: ([] ++ LF :: concat (map frame ps))).
  rewrite split_line, split_line, IH; [reflexivity | easy |].
  intros H. apply in_app_or in H as [H | H]; [|contradiction].
  vm_compute in H. intuition discriminate.
Qed.

Lemma lines_of_frames : forall payloads,
  Forall (fun p => ~ In LF p) payloads ->
  lines_of (concat (map frame payloads))
  = flat_map (fun p => [str "data: " ++ p; []]) payloads.
Proof.
  intros payloads H. unfold lines_of.
  rewrite (split_frames payloads H), pop_snoc. reflexivity.
Qed.

Lemma sentinel_not_json : JSON_parse (str "[DONE]") = None.
Proof. reflexivity. Qed.

Lemma parsed_not_sentinel : forall payload command,
  JSON_parse payload = Some command -> str_eqb payload (str "[DONE]") = false.
Proof.
  intros payload command H. apply str_eqb_neq. intros ->.
  rewrite sentinel_not_json in H. discriminate.
Qed.

Lemma frame_line_commands : forall payload command,
  JSON_parse payload = Some command ->
  line_commands (str "data: " ++ payload) = [command].
Proof.
  intros payload command H. unfold line_commands.
  rewrite startsWith_app.
  change 6 with (length (str "data: ")). rewrite substring_app, H.
  reflexivity.
Qed.

Lemma frame_line_not_sentinel : forall payload command,
  JSON_parse payload = Some command ->
  is_sentinel (str "data: " ++ payload) = false.
Proof.
  intros payload command H. unfold is_sentinel.
  change 6 with (length (str "data: ")).
  rewrite substring_app, (parsed_not_sentinel payload command H).
  apply andb_false_r.
Qed.

Lemma frames_commands : forall payloads cmds,
  Forall2 well_formed payloads cmds ->
  Forall (fun p => ~ In LF p) payloads
  /\ Forall (fun p => is_sentinel p = false)
            (flat_map (fun p => [str "data: " ++ p; []]) payloads)
  /\ flat_map line_commands
       (flat_map (fun p => [str "data: " ++ p; []]) payloads) = cmds.
Proof.
  induction 1 as [|p c ps cs [Hn Hp] _ (IH1 & IH2 & IH3)].
  - repeat split; constructor.
  - repeat split.
    + now constructor.
    + simpl. constructor; [now apply (frame_line_not_sentinel p c)|].
      constructor; [reflexivity | assumption].
    + change (flat_map (fun p => [str "data: " ++ p; []]) (p :: ps))
        with ([str "data: " ++ p; []]
              ++ flat_map (fun p => [str "data: " ++ p; []]) ps).
      rewrite flat_map_app.
      change (flat_map line_commands [str "data: " ++ p; []])
        with (line_commands (str "data: " ++ p) ++ line_commands [] ++ []).
      rewrite (frame_line_commands p c Hp).
      change (c :: cs) with ([c] ++ [] ++ [] ++ cs).
      repeat f_equal. exact IH3.
Qed.

(** Any chunking of a stream of well-formed frames decodes to the commands
    of the frames. *)
Lemma decode_frames : forall payloads cmds chunks,
  Forall2 well_formed payloads cmds ->
  concat chunks = concat (map frame payloads) ->
  decode chunks = cmds.
Proof.
  intros payloads cmds chunks H E.
  destruct (frames_commands payloads cmds H) as (Hn & Hs & Hc).
  unfold decode. rewrite read_loop_whole.
  - simpl. rewrite E, (lines_of_frames payloads Hn). exact Hc.
  - intros [].
  - simpl. rewrite E, (lines_of_frames payloads Hn). exact Hs.
Qed.

Lemma concat_one_by_one : forall text, concat (one_by_one text) = text.
Proof.
  induction text as [|c text IH]; [reflexivity|].
  simpl. now rewrite IH.
Qed.

Lemma decode_chunk_app : forall (dstate : Type) handler (st : dstate) a b,
  decode_chunk handler st (a ++ b)
  = (let (st1, o1) := decode_chunk handler st a in
     let (st2, o2) := decode_chunk handler st1 b in
     (st2, o1 ++ o2)).
Proof.
  intros dstate handler st a. revert st.
  induction a as [|x a IH]; intros st b; cbn [app decode_chunk].
  - now destruct (decode_chunk handler st b).
  - destruct (handler st x) as [st1 out]. rewrite IH.
    destruct (decode_chunk handler st1 a) as [st2 o1].
    destruct (decode_chunk handler st2 b) as [st3 o2].
    now rewrite app_assoc.
Qed.

(** The texts a streaming decoder gives for the chunks add up to the text
    it gives for the whole stream. *)
Lemma decode_stream_concat : forall (dstate : Type) handler chunks (st : dstate),
  concat (decode_stream handler st chunks)
  = snd (decode_chunk handler st (concat chunks)).
Proof.
  intros dstate handler. induction chunks as [|value more IH]; intros st.
  - reflexivity.
  - cbn [decode_stream concat]. rewrite decode_chunk_app.
    destruct (decode_chunk handler st value) as [st1 text].
    cbn [concat]. rewrite IH.
    now destruct (decode_chunk handler st1 (concat more)).
Qed.

(** C1.  For every sequence of well-formed frames and every text decoder,
    however the bytes of the stream are cut into chunks, the decoder hands
    [onCommand] exactly the commands of the frames, one per frame and in
    order; in particular delivery one byte at a time gives the same commands
    as delivery of the whole stream at once. *)
Theorem decoder_one_command_per_frame :
  forall (dstate : Type) handler (st : dstate) payloads cmds bytes chunks,
  Forall2 well_formed payloads cmds ->
  snd (decode_chunk handler st bytes) = concat (map frame payloads) ->
  concat chunks = bytes ->
  decode (decode_stream handler st chunks) = cmds
  /\ length cmds = length payloads
  /\ decode (decode_stream handler st (one_by_one bytes))
     = decode (decode_stream handler st [bytes]).
Proof.
  intros dstate handler st payloads cmds bytes chunks H E Hc.
  assert (every : forall cs, concat cs = bytes ->
                    decode (decode_stream handler st cs) = cmds).
  { intros cs Hcs. apply (decode_frames payloads cmds _ H).
    now rewrite decode_stream_concat, Hcs. }
  repeat split.
  - now apply every.
  - symmetry. exact (Forall2_length H).
  - rewrite (every (one_by_one bytes)), (every [bytes]); trivial.
    + cbn. apply app_nil_r.
    + apply concat_one_by_one.
Qed.

Lemma decoder_one_command_per_frame_witness :
  let payloads :=
    [quoted "{'type':'rect','x':0,'y':0,'width':40,'height':40}";
     quoted "{'type':'text','text':'hi','x':20,'y':30}"] in
  let cmds :=
    [VObj [(str "type", VStr (str "rect")); (str "x", VNum 0);
           (str "y", VNum 0); (str "width", VNum 40); (str "height", VNum 40)];
     VObj [(str "type", VStr (str "text")); (str "text", VStr (str "hi"));
           (str "x", VNum 20); (str "y", VNum 30)]] in
  let chunks :=
    [quoted "data: {'type':'re";
     quoted "ct','x':0,'y':0,'width':40,'height':40}" ++ [LF];
     [LF] ++ quoted "data: {'type':'text','text':'hi','x':20,'y':30}" ++ [LF; LF]] in
  Forall2 well_formed payloads cmds
  /\ snd (decode_chunk ascii_handler tt (concat chunks))
     = concat (map frame payloads)
  /\ decode (decode_stream ascii_handler tt chunks) = cmds.
Proof.
  intros payloads cmds chunks.
  assert (H : Forall2 well_formed payloads cmds).
  { repeat constructor;
      solve [ intros H; vm_compute in H; intuition discriminate
            | vm_compute; reflexivity ]. }
  assert (E : snd (decode_chunk ascii_handler tt (concat chunks))
              = concat (map frame payloads))
    by (vm_compute; reflexivity).
  split; [exact H | split; [exact E|]].
  exact (proj1 (decoder_one_command_per_frame unit ascii_handler tt
                  payloads cmds (concat chunks) chunks H E eq_refl)).
Defined.

(** A line without the frame prefix gives nothing to [onCommand] and the
    loop goes on. *)
Lemma unprefixed_line_skipped : forall part rest,
  startsWith part (str "data: ") = false ->
  process_parts (part :: rest) = process_parts rest.
Proof.
  intros part rest H. rewrite process_parts_cons, H.
  now destruct (str_truthy (trim part)).
Qed.

(** The sentinel line gives nothing to [onCommand] and ends the loop over
    the lines of the chunk being read. *)
Lemma sentinel_line_breaks : forall rest,
  process_parts (str "data: [DONE]" :: rest) = [].
Proof. reflexivity. Qed.

(** C3, at the failing input.  A frame that arrives in a chunk after the one
    that held the sentinel is still decoded and handed to [onCommand]: the
    [break] leaves the loop over the lines and the [while] loop reads on.
    The same two lines in one chunk give no command. *)
Theorem frame_after_sentinel_is_emitted :
  decode [str "data: [DONE]" ++ [LF]; quoted "data: {'type':'rect'}" ++ [LF]]
  = [VObj [(str "type", VStr (str "rect"))]]
  /\ decode [str "data: [DONE]" ++ [LF] ++ quoted "data: {'type':'rect'}" ++ [LF]]
     = [].
Proof. split; reflexivity. Qed.

(** C4, as stated, fails: a payload that parses to a bare string, which is
    not an object with a recognized [type], is handed to [onCommand]; so is
    an object without [type]. *)
Lemma bare_string_payload_is_emitted :
  decode [quoted "data: 'abc'" ++ [LF]] = [VStr (str "abc")]
  /\ typed_object (VStr (str "abc")) = false
  /\ decode [quoted "data: {}" ++ [LF]] = [VObj []]
  /\ typed_object (VObj []) = false.
Proof. repeat split; reflexivity. Qed.

(** C4, amended.  For every complete line that carries the frame prefix and
    whose payload is not the sentinel, the decoder hands the payload to
    [onCommand] exactly when it parses as JSON, whatever value it parses to
    and with no look at a [type] field; a payload that does not parse is
    dropped and the loop goes on with the next line. *)
Theorem frame_emits_what_parses : forall payload rest,
  payload <> str "[DONE]" ->
  process_parts ((str "data: " ++ payload) :: rest)
  = match JSON_parse payload with
    | Some command => command :: process_parts rest
    | None => process_parts rest
    end.
Proof.
  intros payload rest H. rewrite process_parts_cons.
  rewrite (prefixed_not_blank _ (startsWith_app (str "data: ") payload)).
  rewrite startsWith_app.
  change 6 with (length (str "data: ")). rewrite substring_app.
  now rewrite (str_eqb_neq _ _ H).
Qed.

Lemma frame_emits_what_parses_witness :
  quoted "'abc'" <> str "[DONE]"
  /\ process_parts [str "data: " ++ quoted "'abc'"; quoted "data: {bad";
                    str "data: " ++ quoted "{'type':'sparkle'}"]
     = [VStr (str "abc"); VObj [(str "type", VStr (str "sparkle"))]].
Proof.
  assert (H : quoted "'abc'" <> str "[DONE]") by (vm_compute; discriminate).
  split; [exact H|].
  rewrite (frame_emits_what_parses (quoted "'abc'") _ H).
  reflexivity.
Defined.

End DecoderFacts.

(** ** [extractCommands] and the reset of [commandBuffer] *)

Module ExtractFacts.
Import Js Json Regex Server Patterns JsFacts.

Lemma body_close_nil : body_close [] = None.
Proof. reflexivity. Qed.

Lemma body_close_cons : forall c r,
  body_close (c :: r) =
  if negb ((c =? lbrace)%N || ((c =? rbrace)%N || false)) then
    match body_close r with
    | Some n => Some (S n)
    | None => if (c =? rbrace)%N then Some 1 else None
    end
  else if (c =? rbrace)%N then Some 1 else None.
Proof. reflexivity. Qed.

Lemma match_here_pattern_nil : match_here command_pattern [] = None.
Proof. reflexivity. Qed.

Lemma match_here_pattern_cons : forall c r,
  match_here command_pattern (c :: r) =
  if (c =? lbrace)%N then option_map S (body_close r) else None.
Proof. reflexivity. Qed.

Lemma body_close_complete : forall body rest,
  brace_free body ->
  body_close (body ++ rbrace :: rest) = Some (S (length body)).
Proof.
  induction body as [|c body IH]; intros rest [Hl Hr].
  - reflexivity.
  - simpl app. rewrite body_close_cons, IH.
    + destruct (N.eqb_spec c lbrace) as [-> | _]; [exfalso; apply Hl; now left|].
      destruct (N.eqb_spec c rbrace) as [-> | _]; [exfalso; apply Hr; now left|].
      reflexivity.
    + split; intros H; [apply Hl | apply Hr]; now right.
Qed.

Lemma body_close_sound : forall s n,
  body_close s = Some n ->
  exists body rest,
    s = body ++ rbrace :: rest /\ brace_free body /\ n = S (length body).
Proof.
  induction s as [|c r IH]; intros n H.
  - discriminate.
  - rewrite body_close_cons in H.
    destruct (N.eqb_spec c lbrace) as [El | Hl];
      destruct (N.eqb_spec c rbrace) as [Er | Hr]; simpl in H;
      try discriminate.
    + rewrite El in Er. discriminate.
    + subst c. injection H as <-. exists [], r. repeat split; auto.
    + destruct (body_close r) as [k|] eqn:Er; [|discriminate].
      injection H as <-.
      destruct (IH k eq_refl) as (body & rest & -> & [Bl Br] & ->).
      exists (c :: body), rest. repeat split; simpl; auto.
      * intros [E | E]; [congruence | contradiction].
      * intros [E | E]; [congruence | contradiction].
Qed.

Lemma match_here_complete : forall body rest,
  brace_free body ->
  match_here command_pattern (lbrace :: body ++ rbrace :: rest)
  = Some (S (S (length body))).
Proof.
  intros body rest H. rewrite match_here_pattern_cons.
  now rewrite (body_close_complete body rest H).
Qed.

Lemma match_here_sound : forall s n,
  match_here command_pattern s = Some n ->
  exists body rest,
    s = lbrace :: body ++ rbrace :: rest /\ brace_free body
    /\ n = S (S (length body)).
Proof.
  intros [|c r] n H; [discriminate|].
  rewrite match_here_pattern_cons in H.
  destruct (N.eqb_spec c lbrace) as [-> | _]; [|discriminate].
  destruct (body_close r) as [k|] eqn:E; [|discriminate].
  injection H as <-.
  destruct (body_close_sound r k E) as (body & rest & -> & Hb & ->).
  now exists body, rest.
Qed.

Lemma app_inj_length : forall (A : Type) (a a' b b' : list A),
  a ++ b = a' ++ b' -> length a = length a' -> a = a' /\ b = b'.
Proof.
  induction a as [|x a IH]; intros [|x' a'] b b' E L; simpl in *;
    try discriminate; auto.
  injection E as -> E. injection L as L.
  destruct (IH a' b b' E L) as [-> ->]. auto.
Qed.

(** At a given offset there is at most one flat object. *)
Lemma flat_object_unique : forall body rest body' rest',
  brace_free body -> brace_free body' ->
  body ++ rbrace :: rest = body' ++ rbrace :: rest' ->
  body = body' /\ rest = rest'.
Proof.
  intros body rest body' rest' H H' E.
  pose proof (body_close_complete body rest H) as C.
  rewrite E, (body_close_complete body' rest' H') in C.
  injection C as L.
  destruct (app_inj_length _ _ _ _ _ E (eq_sym L)) as [-> E'].
  now injection E' as ->.
Qed.

Lemma firstn_body : forall (A : Type) (body : list A) x rest,
  firstn (S (length body)) (body ++ x :: rest) = body ++ [x].
Proof.
  induction body as [|c body IH]; intros x rest; [reflexivity|].
  simpl. now rewrite <- (IH x rest).
Qed.

Lemma in_prefix : forall (A : Type) (l1 l2 p q : list A) x,
  l1 ++ l2 = p ++ x :: q -> length p < length l1 -> In x l1.
Proof.
  induction l1 as [|a l1 IH]; intros l2 p q x E L; simpl in *; [lia|].
  destruct p as [|b p]; simpl in *.
  - injection E as -> _. now left.
  - injection E as _ E. right. apply (IH l2 p q x E). lia.
Qed.

Lemma match_all_skip : forall re k i c r,
  match_all re (S k) i (c :: r) = match_all re k (S i) r.
Proof. reflexivity. Qed.

Lemma match_all_here : forall re i c r,
  match_all re 0 i (c :: r) =
  match match_here re (c :: r) with
  | Some n => (i, firstn n (c :: r)) :: match_all re (pred n) (S i) r
  | None => match_all re 0 (S i) r
  end.
Proof. reflexivity. Qed.

(** The matches found from a state of the search are the flat objects of
    the text that start at or after the point where the search resumes. *)
Lemma match_all_spec : forall s skip i j m,
  In (j, m) (match_all command_pattern skip i s) <->
  exists pre post,
    s = pre ++ m ++ post /\ j = i + length pre /\ skip <= length pre
    /\ flat_object m.
Proof.
  induction s as [|c r IH]; intros skip i j m.
  - split.
    + destruct skip; simpl; intros [].
    + intros (pre & post & E & _ & _ & (body & -> & _)).
      destruct pre; discriminate.
  - destruct skip as [|k].
    + rewrite match_all_here.
      destruct (match_here command_pattern (c :: r)) as [n|] eqn:M.
      * destruct (match_here_sound _ _ M) as (body & rest & E & Hb & ->).
        injection E as -> ->. cbn [pred]. rewrite firstn_cons, firstn_body.
        split.
        -- intros [Eq | Hin].
           ++ injection Eq as <- <-. exists [], rest.
              split; [simpl; now rewrite <- app_assoc|].
              split; [simpl; lia|]. split; [simpl; lia|].
              now exists body.
           ++ apply IH in Hin as (pre & post & E & -> & _ & Hm).
              exists (lbrace :: pre), post.
              split; [simpl; now rewrite E|].
              split; [simpl; lia|]. split; [simpl; lia | exact Hm].
        -- intros (pre & post & E & -> & _ & Hm).
           destruct pre as [|x pre]; simpl in E.
           ++ left. destruct Hm as (b' & -> & Hb').
              simpl in E. injection E as E. rewrite <- app_assoc in E.
              simpl in E.
              destruct (flat_object_unique _ _ _ _ Hb Hb' E) as [-> _].
              simpl. now rewrite Nat.add_0_r.
           ++ right. injection E as <- E. apply IH. exists pre, post.
              split; [exact E|]. split; [simpl; lia|]. split; [|exact Hm].
              destruct Hm as (b' & -> & _).
              destruct (Nat.le_gt_cases (S (length body)) (length pre))
                as [L | L]; [exact L|]. exfalso.
              assert (H : In lbrace (body ++ [rbrace])).
              { apply (in_prefix _ (body ++ [rbrace]) rest pre
                         (b' ++ [rbrace] ++ post)).
                - rewrite <- app_assoc. simpl. rewrite E. simpl.
                  now rewrite <- app_assoc.
                - rewrite length_app. simpl. lia. }
              apply in_app_or in H as [H | [H | []]];
                [now apply (proj1 Hb) | discriminate].
      * rewrite IH. split.
        -- intros (pre & post & -> & -> & _ & Hm).
           exists (c :: pre), post.
           split; [reflexivity|]. split; [simpl; lia|].
           split; [simpl; lia | exact Hm].
        -- intros (pre & post & E & -> & _ & Hm).
           destruct pre as [|x pre]; simpl in E.
           ++ exfalso. destruct Hm as (b' & -> & Hb').
              simpl in E. rewrite <- app_assoc in E. simpl in E.
              rewrite E, (match_here_complete b' post Hb') in M.
              discriminate.
           ++ injection E as -> ->. exists pre, post.
              split; [reflexivity|]. split; [simpl; lia|].
              split; [lia | exact Hm].
    + rewrite match_all_skip, IH. split.
      * intros (pre & post & -> & -> & L & Hm).
        exists (c :: pre), post.
        split; [reflexivity|]. split; [simpl; lia|].
        split; [simpl; lia | exact Hm].
      * intros (pre & post & E & -> & L & Hm).
        destruct pre as [|x pre]; simpl in L; [lia|].
        injection E as -> ->. exists pre, post.
        split; [reflexivity|]. split; [simpl; lia|].
        split; [lia | exact Hm].
Qed.

Lemma matches_spec : forall text i m,
  In (i, m) (matches text) <-> occurs_at text i m /\ flat_object m.
Proof.
  intros text i m. unfold matches, occurs_at. rewrite match_all_spec. split.
  - intros (pre & post & -> & -> & _ & Hm). split; [|exact Hm].
    now exists pre, post.
  - intros [(pre & post & -> & <-) Hm]. exists pre, post.
    repeat split; auto. lia.
Qed.

Lemma match_all_lower : forall re s skip i j m,
  In (j, m) (match_all re skip i s) -> i <= j.
Proof.
  induction s as [|c r IH]; intros skip i j m H.
  - destruct skip; simpl in H; [|contradiction].
    destruct (match_here re []); simpl in H; [|contradiction].
    destruct H as [H | []]. injection H as <- _. lia.
  - destruct skip as [|k].
    + rewrite match_all_here in H.
      destruct (match_here re (c :: r)).
      * destruct H as [H | H]; [injection H as <- _; lia|].
        apply IH in H. lia.
      * apply IH in H. lia.
    + rewrite match_all_skip in H. apply IH in H. lia.
Qed.

(** The matches come in the order of their offsets. *)
Lemma match_all_sorted : forall re s skip i,
  StronglySorted (fun a b : nat * jsstring => fst a < fst b)
    (match_all re skip i s).
Proof.
  induction s as [|c r IH]; intros skip i.
  - destruct skip; simpl; [|constructor].
    destruct (match_here re []); repeat constructor.
  - destruct skip as [|k].
    + rewrite match_all_here. destruct (match_here re (c :: r)).
      * constructor; [apply IH|]. apply Forall_forall. intros [j m] H.
        apply match_all_lower in H. simpl. lia.
      * apply IH.
    + rewrite match_all_skip. apply IH.
Qed.

(** The matched texts do not depend on the offset the count starts from. *)
Lemma match_all_texts : forall re s skip i i',
  map snd (match_all re skip i s) = map snd (match_all re skip i' s).
Proof.
  induction s as [|c r IH]; intros skip i i'.
  - destruct skip; simpl; [|reflexivity]. now destruct (match_here re []).
  - destruct skip as [|k].
    + rewrite !match_all_here. destruct (match_here re (c :: r)).
      * simpl. f_equal. apply IH.
      * apply IH.
    + rewrite !match_all_skip. apply IH.
Qed.

Lemma extract_one_app : forall acc m,
  extract_one acc m = acc ++ typed_command m.
Proof.
  intros acc m. unfold extract_one, typed_command.
  destruct (JSON_parse m) as [v|]; [|now rewrite app_nil_r].
  destruct v; simpl; try now rewrite app_nil_r.
  destruct (lookup fields (str "type")) as [t|]; simpl;
    [destruct (truthy t)|]; now rewrite ?app_nil_r.
Qed.

Lemma fold_extract_one : forall ms acc,
  fold_left extract_one ms acc = acc ++ flat_map typed_command ms.
Proof.
  induction ms as [|m ms IH]; intros acc; simpl.
  - now rewrite app_nil_r.
  - now rewrite IH, extract_one_app, <- app_assoc.
Qed.

Lemma extractCommands_texts : forall text,
  extractCommands text
  = flat_map typed_command (map snd (match_all command_pattern 0 0 text)).
Proof.
  intros text. unfold extractCommands, js_match.
  destruct (match_all command_pattern 0 0 text) as [|m ms]; [reflexivity|].
  apply fold_extract_one.
Qed.

Lemma accumulate_eq : forall commandBuffer text,
  accumulate commandBuffer text =
  match extractCommands (commandBuffer ++ text) with
  | [] => (commandBuffer ++ text, [])
  | commands => ([], commands)
  end.
Proof.
  intros commandBuffer text. unfold accumulate.
  now destruct (extractCommands (commandBuffer ++ text)).
Qed.

(** C5.  For every accumulated blob, the matches of the pattern are exactly
    the substrings of the blob that are an opening brace, a body without
    braces and a closing brace, in the order of their offsets;
    [extractCommands] returns, in that order, those of them that parse as
    JSON with a truthy [type]; and when it returns any command the blob is
    emptied, otherwise it is kept. *)
Theorem extractCommands_flat_objects : forall commandBuffer text,
  let blob := commandBuffer ++ text in
  (forall i m, In (i, m) (matches blob) <-> occurs_at blob i m /\ flat_object m)
  /\ StronglySorted (fun a b : nat * jsstring => fst a < fst b) (matches blob)
  /\ extractCommands blob = flat_map typed_command (map snd (matches blob))
  /\ accumulate commandBuffer text =
     match extractCommands blob with
     | [] => (blob, [])
     | commands => ([], commands)
     end.
Proof.
  intros commandBuffer text blob.
  split; [exact (matches_spec blob)|].
  split; [apply match_all_sorted|].
  split; [apply extractCommands_texts | apply accumulate_eq].
Qed.

(** *** The reset and the command that straddles it *)

Lemma match_here_no_open : forall c r,
  c <> lbrace -> match_here command_pattern (c :: r) = None.
Proof.
  intros c r H. rewrite match_here_pattern_cons.
  now rewrite (proj2 (N.eqb_neq c lbrace) H).
Qed.

(** A text without an opening brace in front of a blob adds no match. *)
Lemma match_all_after_tail : forall t y i i',
  ~ In lbrace t ->
  map snd (match_all command_pattern 0 i (t ++ y))
  = map snd (match_all command_pattern 0 i' y).
Proof.
  induction t as [|c t IH]; intros y i i' H.
  - apply match_all_texts.
  - simpl app. rewrite match_all_here, match_here_no_open.
    + apply IH. intros Hin. apply H. now right.
    + intros ->. apply H. now left.
Qed.

Lemma extractCommands_after_tail : forall t y,
  ~ In lbrace t -> extractCommands (t ++ y) = extractCommands y.
Proof.
  intros t y H. rewrite !extractCommands_texts.
  now rewrite (match_all_after_tail t y 0 0 H).
Qed.

Lemma body_close_none : forall s, ~ In rbrace s -> body_close s = None.
Proof.
  intros s H. destruct (body_close s) as [n|] eqn:E; [|reflexivity].
  destruct (body_close_sound s n E) as (body & rest & -> & _).
  exfalso. apply H. apply in_or_app. right. now left.
Qed.

Lemma body_close_before_open : forall s h,
  body_close (s ++ lbrace :: h) = body_close s.
Proof.
  induction s as [|c s IH]; intros h.
  - reflexivity.
  - simpl app. now rewrite !body_close_cons, IH.
Qed.

Lemma match_all_no_close : forall s skip i,
  ~ In rbrace s -> match_all command_pattern skip i s = [].
Proof.
  induction s as [|c r IH]; intros skip i H.
  - now destruct skip.
  - assert (Hr : ~ In rbrace r) by (intros Hin; apply H; now right).
    destruct skip as [|k].
    + rewrite match_all_here, match_here_pattern_cons.
      rewrite (body_close_none r Hr).
      destruct (c =? lbrace)%N; simpl; now apply IH.
    + rewrite match_all_skip. now apply IH.
Qed.

(** An opening brace that is never closed, at the end of a blob, adds no
    match and changes none. *)
Lemma match_all_before_head : forall y h skip i,
  ~ In rbrace h ->
  match_all command_pattern skip i (y ++ lbrace :: h)
  = match_all command_pattern skip i y.
Proof.
  induction y as [|c y IH]; intros h skip i H.
  - simpl app. rewrite match_all_no_close.
    + destruct skip; reflexivity.
    + intros [E | Hin]; [discriminate | contradiction].
  - simpl app. destruct skip as [|k].
    + rewrite !match_all_here, !match_here_pattern_cons.
      rewrite body_close_before_open.
      destruct (c =? lbrace)%N; cbn [option_map]; [|now apply IH].
      destruct (body_close y) as [n|] eqn:By; cbn [option_map pred];
        [|now apply IH].
      destruct (body_close_sound y n By) as (body & rest & Ey & _ & ->).
      rewrite (IH h _ _ H), !firstn_cons, firstn_app.
      replace (S (length body) - length y) with 0
        by (rewrite Ey, length_app; cbn [length]; lia).
      cbn [firstn]. now rewrite app_nil_r.
    + rewrite !match_all_skip. now apply IH.
Qed.

Lemma extractCommands_before_head : forall y h,
  ~ In rbrace h -> extractCommands (y ++ lbrace :: h) = extractCommands y.
Proof.
  intros y h H. rewrite !extractCommands_texts.
  now rewrite (match_all_before_head y h 0 0 H).
Qed.

(** While the buffer starts with a text without an opening brace, the run
    is the run without that text. *)
Lemma accumulate_all_after_tail : forall texts t commandBuffer,
  ~ In lbrace t ->
  accumulate_all (t ++ commandBuffer) texts = accumulate_all commandBuffer texts.
Proof.
  induction texts as [|text more IH]; intros t commandBuffer H.
  - reflexivity.
  - cbn [accumulate_all]. rewrite !accumulate_eq.
    rewrite <- (app_assoc t commandBuffer text).
    rewrite (extractCommands_after_tail t _ H).
    destruct (extractCommands (commandBuffer ++ text)); [|reflexivity].
    cbn [app]. now apply IH.
Qed.

(** The two parts of a flat object cut in two: the head is an opening brace
    and a text without a closing brace, the tail has no opening brace. *)
Lemma flat_object_cut : forall h t,
  flat_object (h ++ t) -> h <> [] -> t <> [] ->
  (exists h', h = lbrace :: h' /\ ~ In rbrace h') /\ ~ In lbrace t.
Proof.
  intros h t (body & E & [Hl Hr]) Hh Ht.
  destruct h as [|a h']; [contradiction|].
  destruct (exists_last Ht) as (t' & z & ->).
  simpl in E. injection E as -> E.
  rewrite app_assoc in E. apply app_inj_tail in E as [<- ->].
  split.
  - exists h'. split; [reflexivity|].
    intros Hin. apply Hr. apply in_or_app. now left.
  - intros Hin. apply in_app_or in Hin as [Hin | [Hin | []]].
    + apply Hl. apply in_or_app. now right.
    + discriminate.
Qed.

(** What the [data] handler writes for lines that are envelopes: the
    commands [accumulate] finds, text after text. *)
Lemma on_lines_writes : forall number_to_string texts lines commandBuffer,
  Forall2 envelope texts lines ->
  snd (on_lines number_to_string commandBuffer lines)
  = map ResWrite (accumulate_all commandBuffer texts).
Proof.
  intros number_to_string texts lines commandBuffer H. revert commandBuffer.
  induction H as [|text line texts lines (Hp & parsed & Hj & Ht) _ IH];
    intros commandBuffer; [reflexivity|].
  cbn [on_lines accumulate_all].
  rewrite (prefixed_not_blank line Hp), Hp.
  rewrite (DecoderFacts.parsed_not_sentinel _ parsed Hj), Hj, Ht.
  cbn [to_string].
  destruct (accumulate commandBuffer text) as [commandBuffer' commands].
  specialize (IH commandBuffer').
  destruct (on_lines number_to_string commandBuffer' lines) as [final calls].
  cbn [snd] in *. now rewrite map_app, IH.
Qed.

(** C10.  When [extractCommands] finds a command in the accumulated text,
    [commandBuffer] is emptied whole, the trailing head [h] of a command
    not yet complete included; that head adds nothing to the commands
    found, and the tail [t] of the command, arriving later, adds nothing
    either: the run is the run of the stream from which the text of the
    command is taken out, so the command is written neither at the reset
    nor in any later step. *)
Theorem reset_drops_straddling_command : forall commandBuffer x h t r more,
  flat_object (h ++ t) -> h <> [] -> t <> [] ->
  extractCommands (commandBuffer ++ x ++ h) <> [] ->
  accumulate commandBuffer (x ++ h)
  = ([], extractCommands (commandBuffer ++ x ++ h))
  /\ extractCommands (commandBuffer ++ x ++ h)
     = extractCommands (commandBuffer ++ x)
  /\ accumulate_all commandBuffer ((x ++ h) :: (t ++ r) :: more)
     = accumulate_all commandBuffer (x :: r :: more).
Proof.
  intros commandBuffer x h t r more Hc Hh Ht Hx.
  destruct (flat_object_cut h t Hc Hh Ht) as [(h' & -> & Hh') Hl].
  assert (Eh : extractCommands (commandBuffer ++ x ++ lbrace :: h')
               = extractCommands (commandBuffer ++ x))
    by (rewrite app_assoc; now apply extractCommands_before_head).
  rewrite Eh in *.
  assert (E : accumulate commandBuffer (x ++ lbrace :: h')
              = ([], extractCommands (commandBuffer ++ x))).
  { rewrite accumulate_eq, Eh.
    now destruct (extractCommands (commandBuffer ++ x)). }
  split; [exact E|]. split; [reflexivity|].
  cbn [accumulate_all]. rewrite E.
  rewrite (accumulate_eq commandBuffer x).
  destruct (extractCommands (commandBuffer ++ x)) as [|c cs] eqn:Ex;
    [contradiction|].
  f_equal. rewrite !accumulate_eq. cbn [app].
  rewrite (extractCommands_after_tail t r Hl).
  destruct (extractCommands r); [|reflexivity].
  cbn [app]. now apply (accumulate_all_after_tail more t r).
Qed.

Lemma reset_drops_straddling_command_witness :
  let x := quoted "[{'type':'a'}," in
  let h := quoted "{'ty" in
  let t := quoted "pe':'b'}" in
  let r := quoted ",{'type':'c'}]" in
  flat_object (h ++ t) /\ h <> [] /\ t <> []
  /\ extractCommands ([] ++ x ++ h) <> []
  /\ accumulate_all [] [x ++ h; t ++ r]
     = [VObj [(str "type", VStr (str "a"))];
        VObj [(str "type", VStr (str "c"))]].
Proof.
  intros x h t r.
  assert (Hc : flat_object (h ++ t)).
  { exists (quoted "'type':'b'"). split; [reflexivity|].
    split; intros H; vm_compute in H; intuition discriminate. }
  assert (Hh : h <> []) by discriminate.
  assert (Ht : t <> []) by discriminate.
  assert (Hx : extractCommands ([] ++ x ++ h) <> [])
    by (vm_compute; discriminate).
  do 4 (split; [assumption|]).
  rewrite (proj2 (proj2 (reset_drops_straddling_command
                           [] x h t r [] Hc Hh Ht Hx))).
  reflexivity.
Defined.

(** The same run through the whole [data] handler, envelopes included: the
    command [b], cut by the reset, is never written. *)
Example serve_drops_straddling_command : forall number_to_string,
  serve number_to_string Frames.ascii_text initial
    [quoted "data: {'candidates':[{'content':{'parts':[{'text':'[{\'type\':\'a\'},{\'ty'}]}}]}"
       ++ [LF];
     quoted "data: {'candidates':[{'content':{'parts':[{'text':'pe\':\'b\'},{\'type\':\'c\'}]'}]}}]}"
       ++ [LF];
     str "data: [DONE]" ++ [LF]]
  = [ResWrite (VObj [(str "type", VStr (str "a"))]);
     ResWrite (VObj [(str "type", VStr (str "c"))]); ResEnd; ResEnd].
Proof. intros number_to_string. reflexivity. Qed.

End ExtractFacts.

(** ** The command interpreter *)

Module InterpreterFacts.
Import Js Json LatexRenderer Client Konva Frames JsFacts.

Section WithDetector.

Variable detectLatex : value -> outcome (list MathSpan).

(** The equation of [renderCommand], in the shape of the source. *)
Lemma renderCommand_eq : forall command,
  renderCommand detectLatex command
  = render_switch detectLatex command
      (map_outcome (renderCommand detectLatex) (children_items command)).
Proof.
  intros [ | | | | | |fields]; try reflexivity.
  cbn [renderCommand]. f_equal. unfold children_items.
  induction fields as [|[k v] fs IH]; [reflexivity|].
  cbn [lookup]. destruct (str_eqb k (str "children")); [|exact IH].
  destruct v; try reflexivity.
  induction items as [|c l IHl]; [reflexivity|].
  cbn [map_outcome]. rewrite <- IHl. reflexivity.
Qed.



(** Induction on elements that goes into the children of a group. *)
Lemma element_nested_ind : forall P : element -> Prop,
  P ENull ->
  (forall p, P (Text p)) ->
  (forall text x y fontSize ms, P (MixedTextRenderer text x y fontSize ms)) ->
  (forall latex x y fontSize, P (EquationRenderer latex x y fontSize)) ->
  (forall points stroke strokeWidth lineCap lineJoin,
      P (Line points stroke strokeWidth lineCap lineJoin)) ->
  (forall x y width height stroke strokeWidth fill,
      P (Rect x y width height stroke strokeWidth fill)) ->
  (forall x y children, Forall P children -> P (Group x y children)) ->
  (forall x y children, P (GroupOf x y children)) ->
  (forall x y image width height, P (KonvaImage x y image width height)) ->
  forall e, P e.
Proof.
  intros P H0 H1 H2 H3 H4 H5 H6 H7 H8.
  fix IH 1. intros [ | | | | | |x y children| | ];
    [ apply H0 | apply H1 | apply H2 | apply H3 | apply H4 | apply H5
    | | apply H7 | apply H8 ].
  apply H6. induction children as [|c cs IHcs]; constructor.
  - apply IH.
  - exact IHcs.
Qed.

Lemma add_swap : forall a b c, add (add a b) c = add (add a c) b.
Proof.
  intros a b c. unfold add. apply Qred_complete.
  rewrite !Qred_correct. ring.
Qed.

(** Moving the origin of the parent moves every rectangle alike. *)
Lemma absolute_rects_translate : forall e ox oy dx dy,
  absolute_rects (add ox dx) (add oy dy) e
  = map (translate dx dy) (absolute_rects ox oy e).
Proof.
  induction e using element_nested_ind; intros ox oy dx dy;
    try reflexivity.
  - cbn [absolute_rects map]. unfold translate. cbn [left top Konva.width Konva.height].
    now rewrite (add_swap ox dx), (add_swap oy dy).
  - cbn [absolute_rects].
    rewrite (add_swap ox dx), (add_swap oy dy).
    induction H as [|c cs Hc _ IHcs]; [reflexivity|].
    cbn [flat_map]. now rewrite map_app, Hc, IHcs.
Qed.

Lemma flat_map_translate : forall es ox oy dx dy,
  flat_map (absolute_rects (add ox dx) (add oy dy)) es
  = map (translate dx dy) (flat_map (absolute_rects ox oy) es).
Proof.
  induction es as [|e es IH]; intros ox oy dx dy; [reflexivity|].
  cbn [flat_map]. now rewrite map_app, absolute_rects_translate, IH.
Qed.

(** C6.  A [group] command whose children render to [es] renders to a group
    node at the [x] and [y] of the command that holds [es] as they are; the
    rectangles of the group, in stage coordinates, are those of its children
    moved by the [x] and [y] of the group, whatever the depth of nesting
    below. *)
Theorem group_offsets_children : forall command x y items es,
  get command (str "type") = Ret (VStr (str "group")) ->
  get command (str "x") = Ret x ->
  get command (str "y") = Ret y ->
  get command (str "children") = Ret (VArr items) ->
  map_outcome (renderCommand detectLatex) items = Ret es ->
  renderCommand detectLatex command = Ret (Group x y es)
  /\ forall ox oy,
       absolute_rects ox oy (Group x y es)
       = map (translate (coord x) (coord y))
           (flat_map (absolute_rects ox oy) es).
Proof.
  intros command x y items es Ht Hx Hy Hc He. split.
  - rewrite renderCommand_eq. unfold render_switch.
    rewrite Ht. cbn [bind key_of has_primitive]. rewrite Hx, Hy, Hc. cbn.
    assert (children_items command = items) as ->.
    { destruct command; try discriminate.
      unfold get in Hc. unfold children_items.
      destruct (lookup fields (str "children")) as [v|];
        [injection Hc as ->; reflexivity | discriminate]. }
    now rewrite He.
  - intros ox oy. cbn [absolute_rects]. apply flat_map_translate.
Qed.

End WithDetector.

Lemma group_offsets_children_witness :
  let rect :=
    VObj [(str "type", VStr (str "rect")); (str "x", VNum 0);
          (str "y", VNum 0); (str "width", VNum 40); (str "height", VNum 40)] in
  let command :=
    VObj [(str "type", VStr (str "group")); (str "x", VNum 100);
          (str "y", VNum 50); (str "children", VArr [rect])] in
  let drawn :=
    Rect (VNum 0) (VNum 0) (VNum 40) (VNum 40)
      (str "#000") (VNum 2) (str "transparent") in
  JSON_parse
    (quoted "{'type':'group','x':100,'y':50,'children':[{'type':'rect','x':0,'y':0,'width':40,'height':40}]}")
  = Some command
  /\ get command (str "type") = Ret (VStr (str "group"))
  /\ get command (str "x") = Ret (VNum 100)
  /\ get command (str "y") = Ret (VNum 50)
  /\ get command (str "children") = Ret (VArr [rect])
  /\ map_outcome (renderCommand detect_value) [rect] = Ret [drawn]
  /\ renderCommand detect_value command
     = Ret (Group (VNum 100) (VNum 50) [drawn])
  /\ absolute_rects 0 0 (Group (VNum 100) (VNum 50) [drawn])
     = [{| left := 100; top := 50; width := 40; height := 40 |}].
Proof.
  intros rect command drawn.
  do 6 (split; [reflexivity|]).
  destruct (group_offsets_children detect_value command (VNum 100) (VNum 50)
              [rect] [drawn] eq_refl eq_refl eq_refl eq_refl eq_refl)
    as [Hrender Habs].
  split; [exact Hrender|].
  rewrite Habs. reflexivity.
Defined.



End InterpreterFacts.

(** ** The equation renderer *)

Module EquationFacts.
Import Js Json LatexRenderer EventLoop Client Spans.

(** The [catch] of [MathRenderer] stops whatever [katex.render] throws. *)
Lemma MathRenderer_effect_returns : forall katex_render latex container,
  exists content, MathRenderer_effect katex_render latex container = Ret content.
Proof.
  intros katex_render latex container. unfold MathRenderer_effect.
  destruct (katex_render latex) as [content | e]; eauto.
Qed.

(** C8.  When the typesetting of a markup fails, that is, when the promise
    of [renderLatexToCanvas] is rejected, the chain of [EquationRenderer]
    is settled by its [catch], so that no rejection is left to the caller,
    and the component then returns, without an error, a plain italic text
    at the position of the equation that holds the markup as it was given.
    The settlement changes nothing in the state of [App]; and the effect of
    [MathRenderer] never throws either. *)
Theorem failed_typeset_falls_back :
  forall renderLatexToCanvas latex x y fontSize st reason,
  renderLatexToCanvas latex x y fontSize = Rejected reason ->
  (exists set,
      EquationRenderer_effect renderLatexToCanvas latex x y fontSize
      = Fulfilled set)
  /\ EquationRenderer_render latex x y fontSize
       (EquationRenderer_settle renderLatexToCanvas latex x y fontSize st)
     = Ret (Text {| t_x := x; t_y := y; t_text := latex;
                    t_fontSize := fontSize;
                    t_fill := str "#000"; t_fontFamily := str "Arial";
                    t_align := None; t_fontStyle := Some (str "italic") |})
  /\ (forall s result, apply_turn s (TypesetSettled result) = s)
  /\ (forall katex_render container,
        exists content,
          MathRenderer_effect katex_render latex container = Ret content).
Proof.
  intros renderLatexToCanvas latex x y fontSize st reason H.
  unfold EquationRenderer_settle, EquationRenderer_effect. rewrite H.
  cbn [promise_then promise_catch].
  split; [eauto|]. split; [reflexivity|]. split; [reflexivity|].
  intros katex_render container. apply MathRenderer_effect_returns.
Qed.

Lemma failed_typeset_falls_back_witness :
  let latex := VStr (str "\frac{a}{b") in
  typeset_matched latex (VNum 20) (VNum 30) (VNum 18) = Rejected (str "ParseError")
  /\ EquationRenderer_render latex (VNum 20) (VNum 30) (VNum 18)
       (EquationRenderer_settle typeset_matched latex (VNum 20) (VNum 30)
          (VNum 18) eq_initial)
     = Ret (Text {| t_x := VNum 20; t_y := VNum 30; t_text := latex;
                    t_fontSize := VNum 18;
                    t_fill := str "#000"; t_fontFamily := str "Arial";
                    t_align := None; t_fontStyle := Some (str "italic") |}).
Proof.
  intros latex.
  assert (H : typeset_matched latex (VNum 20) (VNum 30) (VNum 18)
              = Rejected (str "ParseError")) by reflexivity.
  split; [exact H|].
  exact (proj1 (proj2 (failed_typeset_falls_back typeset_matched latex
                         (VNum 20) (VNum 30) (VNum 18) eq_initial
                         (str "ParseError") H))).
Defined.

End EquationFacts.

(** ** The math span detector *)

Module SpanFacts.
Import Js Json LatexRenderer Spans.

Lemma scan_no_delimiter : forall s i inside,
  ~ In dollar s -> scan i inside s = [].
Proof.
  induction s as [|c r IH]; intros i inside H; [reflexivity|].
  assert (Hc : (c =? dollar)%N = false).
  { apply N.eqb_neq. intros ->. apply H. now left. }
  assert (Hr : ~ In dollar r) by (intros Hin; apply H; now right).
  cbn [scan]. rewrite Hc. destruct inside as [[from acc]|]; now apply IH.
Qed.

(** The spans of a text that goes on: those of its beginning, then those
    read from the state the beginning leaves. *)
Lemma scan_app : forall a b i inside,
  scan i inside (a ++ b)
  = scan i inside a ++ scan (i + length a) (pending i inside a) b.
Proof.
  induction a as [|c a IH]; intros b i inside.
  - cbn. now rewrite Nat.add_0_r.
  - cbn [app scan pending length]. rewrite Nat.add_succ_r.
    destruct inside as [[from acc]|]; destruct (c =? dollar)%N;
      cbn [app]; now rewrite IH.
Qed.

Lemma substring2_mid : forall (p m q : jsstring),
  substring2 (p ++ m ++ q) (length p) (length p + length m) = m.
Proof.
  intros p m q. unfold substring2.
  replace (length p + length m - length p) with (length m) by lia.
  rewrite skipn_app, skipn_all, Nat.sub_diag. cbn [skipn app].
  rewrite firstn_app, firstn_all, Nat.sub_diag. cbn [firstn].
  apply app_nil_r.
Qed.

Lemma scan_delimits : forall s pre inside,
  state_ok pre inside ->
  Forall (delimits (pre ++ s)) (scan (length pre) inside s).
Proof.
  induction s as [|c r IH]; intros pre inside Hok; [constructor|].
  assert (Hlen : S (length pre) = length (pre ++ [c]))
    by (rewrite length_app; simpl; lia).
  assert (Htext : pre ++ c :: r = (pre ++ [c]) ++ r)
    by (now rewrite <- app_assoc).
  cbn [scan]. rewrite Hlen, Htext.
  destruct inside as [[from acc]|]; destruct (N.eqb_spec c dollar) as [-> | Hc].
  - destruct Hok as (p0 & -> & <- & Hacc). constructor; [|now apply IH].
    split; cbn [start stop latex].
    + replace (length ((p0 ++ dollar :: rev acc) ++ [dollar]))
        with (length p0 + length (dollar :: rev acc ++ [dollar]))
        by (cbn [length]; rewrite !length_app; cbn [length]; lia).
      replace (((p0 ++ dollar :: rev acc) ++ [dollar]) ++ r)
        with (p0 ++ (dollar :: rev acc ++ [dollar]) ++ r)
        by (rewrite <- !app_assoc; cbn [app]; now rewrite <- app_assoc).
      apply substring2_mid.
    + intros Hin. apply Hacc. now apply in_rev.
  - apply IH. destruct Hok as (p0 & -> & <- & Hacc).
    exists p0. split; [|split; [reflexivity|]].
    + cbn [rev]. rewrite <- app_assoc. reflexivity.
    + intros [E | Hin]; [congruence | contradiction].
  - apply IH. exists pre. repeat split; auto.
  - now apply IH.
Qed.

Lemma scan_bounds : forall s i inside sp,
  match inside with None => True | Some (from, _) => from < i end ->
  In sp (scan i inside s) ->
  match inside with None => i | Some (from, _) => from end <= start sp
  /\ start sp < stop sp.
Proof.
  induction s as [|c r IH]; intros i inside sp Hi Hin; [contradiction|].
  cbn [scan] in Hin.
  destruct inside as [[from acc]|]; destruct (c =? dollar)%N.
  - destruct Hin as [<- | Hin]; cbn [start stop]; [lia|].
    apply (IH (S i) None sp I) in Hin. lia.
  - apply (IH (S i) (Some (from, c :: acc)) sp) in Hin; [exact Hin | lia].
  - apply (IH (S i) (Some (i, [])) sp) in Hin; [exact Hin | lia].
  - apply (IH (S i) None sp I) in Hin. lia.
Qed.

(** The spans come from left to right and do not overlap. *)
Lemma scan_sorted : forall s i inside,
  match inside with None => True | Some (from, _) => from < i end ->
  StronglySorted (fun a b => stop a <= start b) (scan i inside s).
Proof.
  induction s as [|c r IH]; intros i inside Hi; [constructor|].
  cbn [scan].
  destruct inside as [[from acc]|]; destruct (c =? dollar)%N.
  - constructor; [now apply IH|].
    apply Forall_forall. intros sp Hin.
    apply (scan_bounds r (S i) None sp I) in Hin. cbn [stop]. lia.
  - apply IH. lia.
  - apply IH. lia.
  - now apply IH.
Qed.

(** C7.  On the example the detector returns the one span of the markup
    [x^2], whose offsets delimit the markup with its delimiters in the
    source; on a text without delimiter it returns no span; on a text
    whose delimiters are unbalanced it returns no span either, whatever
    pairs the text holds; it is a total function, so it never fails.  The
    spans it returns delimit their markups in the source, in order and
    without overlap. *)
Theorem detectLatex_spans : forall text u a,
  ~ In dollar text -> ~ balanced u ->
  detectLatex (str "solve $x^2$ now")
  = [{| start := 6; stop := 11; latex := str "x^2" |}]
  /\ substring2 (str "solve $x^2$ now") 6 11 = str "$x^2$"
  /\ detectLatex text = []
  /\ detectLatex u = []
  /\ Forall (delimits a) (detectLatex a)
  /\ StronglySorted (fun s1 s2 => stop s1 <= start s2) (detectLatex a).
Proof.
  intros text u a Ht Hu.
  split; [reflexivity|]. split; [reflexivity|].
  split.
  { unfold detectLatex. destruct (pending 0 None text); [reflexivity|].
    now apply scan_no_delimiter. }
  split.
  { unfold detectLatex. unfold balanced in Hu.
    destruct (pending 0 None u); [reflexivity|]. now contradiction Hu. }
  unfold detectLatex. destruct (pending 0 None a).
  - split; constructor.
  - split.
    + exact (scan_delimits a [] None I).
    + exact (scan_sorted a 0 None I).
Qed.

Lemma detectLatex_spans_witness :
  let text := str "no math here" in
  let u := str "cost $c$ and $price" in
  ~ In dollar text /\ ~ balanced u
  /\ detectLatex text = []
  /\ detectLatex u = [].
Proof.
  intros text u.
  assert (Ht : ~ In dollar text)
    by (intros H; vm_compute in H; intuition discriminate).
  assert (Hu : ~ balanced u) by (intros H; vm_compute in H; discriminate).
  do 2 (split; [assumption|]).
  destruct (detectLatex_spans text u [] Ht Hu) as (_ & _ & H1 & H2 & _).
  split; [exact H1 | exact H2].
Defined.

End SpanFacts.

(** ** Requests in flight *)

Module RequestFacts.
Import Js Json EventLoop Frames Requests.

(** Turns that change nothing drop out of an interleaving. *)
Lemma interleave_quiet :
  forall (S T : Type) (step : S -> T -> S) (still : T -> Prop),
  (forall s t, still t -> step s t = s) ->
  forall pending rest l, Interleave pending rest l ->
  Forall still pending ->
  forall s, fold_left step l s = fold_left step rest s.
Proof.
  intros S T step still Hstill pending rest l H.
  induction H as [|t l1 l2 l _ IH|t l1 l2 l _ IH]; intros Hq s.
  - reflexivity.
  - inversion Hq as [|? ? Ht Hq']; subst. cbn [fold_left].
    rewrite (Hstill s t Ht). now apply IH.
  - cbn [fold_left]. now apply IH.
Qed.

Lemma commands_apply_update : forall s u,
  Client.commands (Client.apply_update s u)
  = commands_update (Client.commands s) u.
Proof. intros s []; reflexivity. Qed.

Lemma commands_apply_turn : forall t s,
  Client.commands (Client.apply_turn s t)
  = commands_turn (Client.commands s) t.
Proof.
  intros [us | r] s; [|reflexivity]. cbn.
  revert s. induction us as [|u us IH]; intros s; [reflexivity|].
  cbn [fold_left]. now rewrite IH, commands_apply_update.
Qed.

Lemma commands_run : forall ts s,
  Client.commands (Client.run s ts)
  = fold_left commands_turn ts (Client.commands s).
Proof.
  unfold Client.run. induction ts as [|t ts IH]; intros s; [reflexivity|].
  cbn [fold_left]. now rewrite IH, commands_apply_turn.
Qed.

Lemma quiet_commands_turn : forall cs t,
  quiet t = true -> commands_turn cs t = cs.
Proof.
  intros cs [us | r] H; [|reflexivity]. cbn in *.
  revert cs. induction us as [|u us IH]; intros cs; [reflexivity|].
  cbn in H. apply andb_true_iff in H as [Hu Hus].
  cbn [fold_left]. rewrite (IH Hus). now destruct u.
Qed.

Lemma commands_of_reads : forall reads cs,
  fold_left commands_turn
    (map (fun l => Client.Updates (map Client.AddCommand l)) reads) cs
  = cs ++ concat reads.
Proof.
  induction reads as [|l reads IH]; intros cs; cbn.
  - now rewrite app_nil_r.
  - rewrite IH, app_assoc. f_equal.
    clear. revert cs. induction l as [|c l IHl]; intros cs; cbn.
    + now rewrite app_nil_r.
    + rewrite IHl, <- app_assoc. reflexivity.
Qed.

Lemma lists_apply_update : forall s u,
  lists (Batch.apply_update s u) = lists_update (lists s) u.
Proof. intros s []; reflexivity. Qed.

Lemma lists_run : forall ts s,
  lists (Batch.run s ts) = fold_left lists_turn ts (lists s).
Proof.
  unfold Batch.run. induction ts as [|t ts IH]; intros s; [reflexivity|].
  cbn [fold_left]. rewrite IH. f_equal.
  revert s. induction t as [|u us IHus]; intros s; [reflexivity|].
  unfold lists_turn in *. cbn [fold_left].
  now rewrite IHus, lists_apply_update.
Qed.

Lemma batch_quiet_lists_turn : forall p t,
  batch_quiet t = true -> lists_turn p t = p.
Proof.
  intros p t. unfold lists_turn, batch_quiet.
  revert p. induction t as [|u us IH]; intros p H; [reflexivity|].
  cbn in H. apply andb_true_iff in H as [Hu Hus].
  cbn [fold_left]. rewrite (IH _ Hus). now destruct u.
Qed.

(** C2, as stated, fails.  The earlier request has shown its equation and
    the typesetting is pending when the new prompt empties the list; the
    second frame of the earlier stream, read after that, is appended as
    well: the final list holds a command of the abandoned request next to
    the one of the new prompt. *)
Lemma stale_command_is_applied :
  Client.handleGenerate (str "old") old_response
  = firstn 2 stale_run
    ++ [Client.Updates [Client.AddCommand old_text];
        Client.Updates [Client.SetLoading false]]
  /\ Client.handleGenerate (str "new") new_response
     = [nth 2 stale_run (Client.Updates []);
        Client.Updates [Client.AddCommand new_text];
        Client.Updates [Client.SetLoading false]]
  /\ Interleave old_pending
       (tl (Client.handleGenerate (str "new") new_response))
       (skipn 3 stale_run)
  /\ Client.commands (Client.run Client.initial stale_run)
     = [old_text; new_text]
  /\ Client.decode (Client.body new_response) = [new_text].
Proof.
  split; [reflexivity|]. split; [reflexivity|].
  split; [|split; reflexivity].
  change (tl (Client.handleGenerate (str "new") new_response))
    with [Client.Updates [Client.AddCommand new_text];
          Client.Updates [Client.SetLoading false]].
  unfold old_pending, stale_run. cbn [skipn].
  apply Interleave_left, Interleave_left, Interleave_right,
    Interleave_left, Interleave_right, Interleave_nil.
Qed.

Lemma streaming_alone : forall s prompt r first rest,
  Client.handleGenerate prompt r = first :: rest ->
  commands_turn (Client.commands s) first = []
  /\ fold_left commands_turn rest []
     = (if Client.ok r then Client.decode (Client.body r) else []).
Proof.
  intros s prompt r first rest H. unfold Client.handleGenerate in H.
  destruct (str_truthy (trim prompt)); [|discriminate].
  injection H as <- <-. split; [reflexivity|].
  unfold Client.fetchStreamingResponse, Client.decode.
  destruct r as [message | [|] status body failure];
    cbn [Client.ok Client.body]; [reflexivity | | reflexivity].
  rewrite fold_left_app, commands_of_reads.
  now destruct failure.
Qed.

Lemma batch_first_resets : forall message less prompt r first rest p,
  Batch.handleGenerate message less prompt r = first :: rest ->
  lists_turn p first = ([], []).
Proof.
  intros message less prompt r first rest p H.
  unfold Batch.handleGenerate in H.
  destruct (str_truthy (trim prompt)); [|discriminate].
  now injection H as <- _.
Qed.

(** C2, amended.  When a new prompt is issued and what is still pending from
    earlier requests are turns that set neither list, such as the
    settlements of their typeset promises and their [finally], then, however
    these turns fall among the turns of the new request, the final
    [commands] are the commands decoded from the stream of the new prompt
    alone, and in the batch version the final [commands] and [equations] are
    those the new request gives on an empty canvas.  The settlement of a
    typeset promise changes nothing in the state of [App]. *)
Theorem new_prompt_after_earlier_streams_ended :
  forall s prompt r first rest pending l
         message less bs bprompt br bfirst brest bpending bl,
  Client.handleGenerate prompt r = first :: rest ->
  Forall (fun t => quiet t = true) pending ->
  Interleave pending rest l ->
  Batch.handleGenerate message less bprompt br = bfirst :: brest ->
  Forall (fun t => batch_quiet t = true) bpending ->
  Interleave bpending brest bl ->
  Client.commands (Client.run s (first :: l))
  = (if Client.ok r then Client.decode (Client.body r) else [])
  /\ lists (Batch.run bs (bfirst :: bl))
     = lists (Batch.run Batch.initial
                (Batch.handleGenerate message less bprompt br))
  /\ (forall s' result,
        Client.apply_turn s' (Client.TypesetSettled result) = s').
Proof.
  intros s prompt r first rest pending l
         message less bs bprompt br bfirst brest bpending bl
         H Hq Hi Hb Hbq Hbi.
  split; [|split; [|reflexivity]].
  - destruct (streaming_alone s prompt r first rest H) as [H1 H2].
    rewrite commands_run. cbn [fold_left]. rewrite H1.
    rewrite (interleave_quiet _ _ commands_turn (fun t => quiet t = true)
               quiet_commands_turn pending rest l Hi Hq).
    exact H2.
  - rewrite Hb, !lists_run. cbn [fold_left].
    rewrite !(batch_first_resets message less bprompt br bfirst brest _ Hb).
    exact (interleave_quiet _ _ lists_turn (fun t => batch_quiet t = true)
             batch_quiet_lists_turn bpending brest bl Hbi Hbq _).
Qed.

Lemma new_prompt_after_earlier_streams_ended_witness :
  let s :=
    {| Client.commands := [old_equation; old_text];
       Client.loading := false; Client.error := [] |} in
  let reset :=
    Client.Updates [Client.SetLoading true; Client.SetError [];
                    Client.SetCommands []] in
  let rest :=
    [Client.Updates [Client.AddCommand new_text];
     Client.Updates [Client.SetLoading false]] in
  let settled :=
    Client.TypesetSettled (Rejected (str "ParseError")) in
  let equation :=
    VObj [(str "type", VStr (str "equation")); (str "latex", VStr (str "b"))] in
  let breply :=
    Batch.Reply true 200%N
      (Fulfilled (VObj [(str "commands", VArr [new_text; equation])])) in
  let breset :=
    [Batch.SetLoading true; Batch.SetError []; Batch.SetCommands [];
     Batch.SetEquations []] in
  let badded :=
    Batch.AddEquation
      {| Batch.id := str "eq-1"; Batch.latex := VStr (str "b");
         Batch.x := VUndefined; Batch.y := VUndefined;
         Batch.fontSize := VNum 20 |} in
  let brest :=
    [[Batch.AddCommand new_text]; [badded; Batch.SetLoading false]] in
  Client.handleGenerate (str "new") new_response = reset :: rest
  /\ Batch.handleGenerate v8_message Batch.never_less (str "new") breply
     = breset :: brest
  /\ Client.commands
       (Client.run s
          [reset; Client.Updates [Client.AddCommand new_text]; settled;
           Client.Updates [Client.SetLoading false]])
     = [new_text]
  /\ lists (Batch.run Batch.initial
              [breset; [Batch.SetError []]; [Batch.AddCommand new_text];
               [badded; Batch.SetLoading false]])
     = ([new_text],
        [{| Batch.id := str "eq-1"; Batch.latex := VStr (str "b");
            Batch.x := VUndefined; Batch.y := VUndefined;
            Batch.fontSize := VNum 20 |}]).
Proof.
  intros s reset rest settled equation breply breset badded brest.
  assert (H : Client.handleGenerate (str "new") new_response = reset :: rest)
    by reflexivity.
  assert (Hb : Batch.handleGenerate v8_message Batch.never_less
                 (str "new") breply = breset :: brest)
    by reflexivity.
  assert (Hq : Forall (fun t => quiet t = true) [settled])
    by (repeat constructor).
  assert (Hi : Interleave [settled] rest
                 [Client.Updates [Client.AddCommand new_text]; settled;
                  Client.Updates [Client.SetLoading false]])
    by apply Interleave_right, Interleave_left, Interleave_right,
         Interleave_nil.
  assert (Hbq : Forall (fun t => batch_quiet t = true) [[Batch.SetError []]])
    by (repeat constructor).
  assert (Hbi : Interleave [[Batch.SetError []]] brest
                  [[Batch.SetError []]; [Batch.AddCommand new_text];
                   [badded; Batch.SetLoading false]])
    by apply Interleave_left, Interleave_right, Interleave_right,
         Interleave_nil.
  split; [exact H|]. split; [exact Hb|].
  destruct (new_prompt_after_earlier_streams_ended
              s (str "new") new_response reset rest [settled] _
              v8_message Batch.never_less
              Batch.initial (str "new") breply breset brest
              [[Batch.SetError []]] _ H Hq Hi Hb Hbq Hbi)
    as (H1 & H2 & _).
  split; [exact H1|]. etransitivity; [exact H2 | reflexivity].
Defined.

End RequestFacts.

(** ** More on the stream decoder and on [handleGenerate] *)

Module DecoderMore.
Import Js Json EventLoop Client Canvas Frames Requests JsFacts DecoderFacts
  RequestFacts.

(** X1.  When no complete line of the stream is a sentinel, whatever the
    lines are (frames, blank lines, lines without prefix, payloads that do
    not parse), the commands handed to [onCommand] only depend on the text
    of the stream and not on its chunks: they are the payloads that parse of
    its complete, prefixed lines, in order. *)
Theorem decode_depends_on_text : forall chunks chunks',
  Forall (fun p => is_sentinel p = false) (lines_of (concat chunks)) ->
  concat chunks' = concat chunks ->
  decode chunks = flat_map line_commands (lines_of (concat chunks))
  /\ decode chunks' = decode chunks.
Proof.
  intros chunks chunks' H E.
  assert (every : forall cs, concat cs = concat chunks ->
            decode cs = flat_map line_commands (lines_of (concat chunks))).
  { intros cs Hcs. unfold decode. rewrite read_loop_whole.
    - cbn [app]. now rewrite Hcs.
    - intros [].
    - cbn [app]. now rewrite Hcs. }
  split; [now apply every|].
  now rewrite (every chunks' E), (every chunks eq_refl).
Qed.

Lemma decode_depends_on_text_witness :
  let text :=
    quoted "data: {'type':'rect'}" ++ [LF] ++ str "   " ++ [LF]
    ++ quoted ": comment" ++ [LF] ++ quoted "data: {'type':" ++ [LF]
    ++ quoted "data: 7" ++ [LF] in
  let chunks := [firstn 9 text; skipn 9 text] in
  Forall (fun p => is_sentinel p = false) (lines_of (concat chunks))
  /\ concat (one_by_one text) = concat chunks
  /\ decode (one_by_one text)
     = [VObj [(str "type", VStr (str "rect"))]; VNum 7].
Proof.
  intros text chunks.
  assert (H : Forall (fun p => is_sentinel p = false) (lines_of (concat chunks)))
    by (vm_compute; repeat constructor).
  assert (E : concat (one_by_one text) = concat chunks)
    by (vm_compute; reflexivity).
  split; [exact H|]. split; [exact E|].
  destruct (decode_depends_on_text chunks (one_by_one text) H E) as [H1 H2].
  rewrite H2, H1. vm_compute. reflexivity.
Defined.

(** X2.  What follows the last line feed of the stream is never decoded: a
    stream of well-formed frames followed by a text without line feed, be
    it a whole frame, gives the commands of the frames and nothing for that
    text. *)
Theorem unterminated_frame_is_dropped : forall payloads cmds last chunks,
  Forall2 well_formed payloads cmds ->
  ~ In LF last ->
  concat chunks = concat (map frame payloads) ++ last ->
  decode chunks = cmds.
Proof.
  intros payloads cmds last chunks H Hl E.
  destruct (frames_commands payloads cmds H) as (Hn & Hs & Hc).
  assert (L : lines_of (concat chunks)
              = flat_map (fun p => [str "data: " ++ p; []]) payloads).
  { rewrite E.
    rewrite (lines_of_app _ last _ [] (split_frames payloads Hn)).
    cbn [app]. rewrite (lines_of_fragment last Hl). apply app_nil_r. }
  unfold decode. rewrite read_loop_whole; cbn [app]; rewrite ?L; auto.
Qed.

Lemma unterminated_frame_is_dropped_witness :
  let payloads := [quoted "{'type':'rect'}"] in
  let cmds := [VObj [(str "type", VStr (str "rect"))]] in
  let last := quoted "data: {'type':'line'}" in
  let chunks := [frame (quoted "{'type':'rect'}"); last] in
  Forall2 well_formed payloads cmds /\ ~ In LF last
  /\ concat chunks = concat (map frame payloads) ++ last
  /\ decode chunks = cmds.
Proof.
  intros payloads cmds last chunks.
  assert (H : Forall2 well_formed payloads cmds).
  { repeat constructor;
      solve [ intros H; vm_compute in H; intuition discriminate
            | vm_compute; reflexivity ]. }
  assert (Hl : ~ In LF last)
    by (intros H'; vm_compute in H'; intuition discriminate).
  assert (E : concat chunks = concat (map frame payloads) ++ last)
    by (vm_compute; reflexivity).
  do 3 (split; [assumption|]).
  exact (unterminated_frame_is_dropped payloads cmds last chunks H Hl E).
Defined.

Lemma process_parts_app : forall l1 l2,
  Forall (fun p => is_sentinel p = false) l1 ->
  process_parts (l1 ++ l2) = flat_map line_commands l1 ++ process_parts l2.
Proof.
  induction 1 as [|part parts H _ IH]; [reflexivity|].
  cbn [app flat_map]. rewrite process_parts_step by assumption.
  now rewrite IH, app_assoc.
Qed.

Lemma sentinel_breaks : forall part rest,
  is_sentinel part = true -> process_parts (part :: rest) = [].
Proof.
  intros part rest H. unfold is_sentinel in H.
  apply andb_true_iff in H as [H H3]. apply andb_true_iff in H as [H1 H2].
  now rewrite process_parts_cons, H1, H2, H3.
Qed.

(** X3.  Among the lines of one read, those after the first sentinel are
    dropped whatever they are, and those before it are decoded as usual. *)
Theorem lines_after_sentinel_dropped : forall before part after,
  Forall (fun p => is_sentinel p = false) before ->
  is_sentinel part = true ->
  process_parts (before ++ part :: after) = flat_map line_commands before.
Proof.
  intros before part after H Hp.
  rewrite (process_parts_app before _ H), (sentinel_breaks part after Hp).
  apply app_nil_r.
Qed.

Lemma lines_after_sentinel_dropped_witness :
  let before := [quoted "data: {'type':'rect'}"; []] in
  let after := [quoted "data: {'type':'line'}"; str "data: [DONE]"] in
  Forall (fun p => is_sentinel p = false) before
  /\ is_sentinel (str "data: [DONE]") = true
  /\ process_parts (before ++ str "data: [DONE]" :: after)
     = [VObj [(str "type", VStr (str "rect"))]].
Proof.
  intros before after.
  assert (H : Forall (fun p => is_sentinel p = false) before)
    by (repeat constructor).
  split; [exact H|]. split; [reflexivity|].
  rewrite (lines_after_sentinel_dropped before (str "data: [DONE]") after H
             eq_refl).
  reflexivity.
Defined.

Lemma run_adds : forall reads s,
  run s (map (fun cs => Updates (map AddCommand cs)) reads)
  = {| commands := commands s ++ concat reads;
       loading := loading s; error := error s |}.
Proof.
  unfold run. induction reads as [|cs reads IH]; intros [c l e].
  - cbn. now rewrite app_nil_r.
  - cbn [map fold_left concat]. rewrite IH. cbn [apply_turn].
    assert (A : forall cs0 s0,
               fold_left apply_update (map AddCommand cs0) s0
               = {| commands := commands s0 ++ cs0;
                    loading := loading s0; error := error s0 |}).
    { induction cs0 as [|c0 cs0 IH0]; intros [c' l' e']; cbn.
      - now rewrite app_nil_r.
      - rewrite IH0. cbn. now rewrite <- app_assoc. }
    rewrite A. cbn. now rewrite app_assoc.
Qed.

(** X4.  A request that runs alone.  With a blank prompt nothing happens.
    If not, at the end [loading] is false and: when the [fetch] rejects,
    [commands] is empty and the error holds the message of the rejection;
    when the response is not ok, [commands] is empty and the error tells
    the status; otherwise [commands] holds exactly the commands decoded
    from the chunks read, and the error is empty when the stream was read
    to its end and holds the message of the error that ended the reading
    when there was one.  What the state held before does not matter. *)
Theorem handleGenerate_alone : forall s prompt r,
  run s (handleGenerate prompt r)
  = if str_truthy (trim prompt) then
      match r with
      | NoResponse message =>
          {| commands := []; loading := false;
             error := str "Error: " ++ message |}
      | Response true _ body failure =>
          {| commands := decode body; loading := false;
             error := match failure with
                      | None => []
                      | Some message => str "Error: " ++ message
                      end |}
      | Response false status _ _ =>
          {| commands := []; loading := false;
             error := str "Error: HTTP error! status: " ++ N_to_string status |}
      end
    else s.
Proof.
  intros s prompt r. unfold handleGenerate.
  destruct (str_truthy (trim prompt)); [|reflexivity].
  unfold fetchStreamingResponse.
  destruct r as [message | [|] status body failure]; try reflexivity.
  unfold run. cbn [fold_left]. rewrite fold_left_app.
  fold (run (apply_turn s
               (Updates [SetLoading true; SetError []; SetCommands []]))
            (map (fun cs => Updates (map AddCommand cs))
               (read_loop [] body))).
  rewrite run_adds. now destruct failure.
Qed.

(** X5.  Clear does not stop a request: when it is clicked after some reads
    of a running request, the commands of those reads are gone and the
    commands of all later reads are still appended; at the end [commands]
    holds the later ones only. *)
Theorem clear_keeps_stream_running : forall s prompt r reads1 reads2,
  str_truthy (trim prompt) = true ->
  fetchStreamingResponse r = (reads1 ++ reads2, None) ->
  run s (insert_turn (S (length reads1)) clearCanvas (handleGenerate prompt r))
  = {| commands := concat reads2; loading := false; error := [] |}.
Proof.
  intros s prompt r reads1 reads2 Hp Hr.
  unfold handleGenerate, insert_turn. rewrite Hp, Hr.
  cbn [firstn skipn]. rewrite map_app, <- app_assoc.
  set (adds := fun cs : list value => Updates (map AddCommand cs)).
  assert (L : length (map adds reads1) = length reads1) by apply length_map.
  rewrite <- L, firstn_app, skipn_app, firstn_all, skipn_all, Nat.sub_diag.
  cbn [firstn skipn app]. rewrite app_nil_r.
  unfold run. cbn [fold_left]. rewrite !fold_left_app.
  fold (run (apply_turn s
               (Updates [SetLoading true; SetError []; SetCommands []]))
            (map adds reads1)).
  unfold adds. rewrite run_adds. cbn [fold_left]. rewrite fold_left_app.
  pose proof (run_adds reads2) as A. unfold run in A. rewrite A.
  reflexivity.
Qed.

Lemma clear_keeps_stream_running_witness :
  let r :=
    Response true 200%N
      [frame (quoted "{'type':'text','text':'old'}");
       frame (quoted "{'type':'text','text':'new'}")] None in
  str_truthy (trim (str "draw")) = true
  /\ fetchStreamingResponse r = ([[old_text]] ++ [[new_text]], None)
  /\ commands
       (run initial
          (insert_turn 2 clearCanvas (handleGenerate (str "draw") r)))
     = [new_text].
Proof.
  intros r.
  assert (Hp : str_truthy (trim (str "draw")) = true) by reflexivity.
  assert (Hr : fetchStreamingResponse r = ([[old_text]] ++ [[new_text]], None))
    by reflexivity.
  split; [exact Hp|]. split; [exact Hr|].
  exact (f_equal commands
           (clear_keeps_stream_running initial (str "draw") r
              [[old_text]] [[new_text]] Hp Hr)).
Defined.

End DecoderMore.

(** ** More on the streaming endpoint *)

Module ServerMore.
Import Js Json Regex Server Frames Patterns Boundaries JsFacts DecoderFacts
  ExtractFacts.

Section WithNumbers.

Variable number_to_string : Q -> jsstring.
Variable Buffer_toString : list N -> jsstring.

Lemma on_lines_cons : forall commandBuffer line rest,
  is_sentinel line = false ->
  on_lines number_to_string commandBuffer (line :: rest)
  = (let (cb1, c1) := on_lines number_to_string commandBuffer [line] in
     let (cb2, c2) := on_lines number_to_string cb1 rest in
     (cb2, c1 ++ c2)).
Proof.
  intros commandBuffer line rest H. unfold is_sentinel in H.
  cbn [on_lines].
  destruct (str_truthy (trim line)); cbn [andb] in H;
    [|now destruct (on_lines number_to_string commandBuffer rest)].
  destruct (startsWith line (str "data: ")); cbn [andb] in H;
    [|now destruct (on_lines number_to_string commandBuffer rest)].
  rewrite H.
  destruct (JSON_parse (substring line 6)) as [parsed|];
    [|now destruct (on_lines number_to_string commandBuffer rest)].
  destruct (candidate_text parsed) as [[text|]|e];
    try now destruct (on_lines number_to_string commandBuffer rest).
  destruct (to_string number_to_string text) as [text'|e];
    [|now destruct (on_lines number_to_string commandBuffer rest)].
  destruct (accumulate commandBuffer text') as [cb1 commands].
  destruct (on_lines number_to_string cb1 rest) as [cb2 c2].
  now rewrite app_nil_r.
Qed.

Lemma on_lines_app : forall l1 l2 commandBuffer,
  Forall (fun p => is_sentinel p = false) l1 ->
  on_lines number_to_string commandBuffer (l1 ++ l2)
  = (let (cb1, c1) := on_lines number_to_string commandBuffer l1 in
     let (cb2, c2) := on_lines number_to_string cb1 l2 in
     (cb2, c1 ++ c2)).
Proof.
  induction l1 as [|line l1 IH]; intros l2 commandBuffer H.
  - cbn. now destruct (on_lines number_to_string commandBuffer l2).
  - inversion H as [|? ? Hl Hr]; subst. cbn [app].
    rewrite (on_lines_cons _ line (l1 ++ l2) Hl),
      (on_lines_cons _ line l1 Hl).
    destruct (on_lines number_to_string commandBuffer [line]) as [cb1 c1].
    rewrite (IH l2 cb1 Hr).
    destruct (on_lines number_to_string cb1 l1) as [cb2 c2].
    destruct (on_lines number_to_string cb2 l2) as [cb3 c3].
    now rewrite app_assoc.
Qed.

Lemma on_data_eq : forall st chunk init last,
  split LF (buffer st ++ Buffer_toString chunk) = init ++ [last] ->
  on_data number_to_string Buffer_toString st chunk
  = (let (cb, calls) := on_lines number_to_string (commandBuffer st) init in
     ({| buffer := last; commandBuffer := cb |}, calls)).
Proof.
  intros st chunk init last E. unfold on_data. now rewrite E, pop_snoc.
Qed.

(** Without a sentinel the calls of the whole run are those of the loop
    over the complete lines of the texts of the chunks put together, then
    [end]. *)
Lemma serve_whole : forall chunks st,
  ~ In LF (buffer st) ->
  Forall (fun p => is_sentinel p = false)
    (lines_of (buffer st ++ concat (map Buffer_toString chunks))) ->
  serve number_to_string Buffer_toString st chunks
  = snd (on_lines number_to_string (commandBuffer st)
           (lines_of (buffer st ++ concat (map Buffer_toString chunks))))
    ++ [ResEnd].
Proof.
  induction chunks as [|chunk chunks IH]; intros st Hb H.
  - cbn [serve map concat]. rewrite app_nil_r.
    now rewrite (lines_of_fragment _ Hb).
  - destruct (split_snoc LF (buffer st ++ Buffer_toString chunk))
      as (init & last & E & Hl & _).
    cbn [serve map concat]. cbn [map concat] in H.
    rewrite (on_data_eq st chunk init last E).
    rewrite app_assoc in *. rewrite (lines_of_app _ _ init last E) in *.
    apply Forall_app in H as [Hi Hr].
    rewrite (on_lines_app init _ _ Hi).
    destruct (on_lines number_to_string (commandBuffer st) init) as [cb calls].
    rewrite (IH {| buffer := last; commandBuffer := cb |} Hl Hr).
    cbn [buffer commandBuffer].
    destruct (on_lines number_to_string cb
                (lines_of (last ++ concat (map Buffer_toString chunks))))
      as [cb2 c2].
    cbn [snd]. now rewrite app_assoc.
Qed.

(** X6.  The handler decodes each chunk by itself.  When no complete line
    of the texts so decoded is a sentinel, the calls it makes on the
    response only depend on these texts put together: two deliveries of
    the body whose chunks decode to the same whole text give the same
    calls.  Cuts between characters are such deliveries; a cut inside a
    character of several bytes is not, the two halves being decoded to
    replacement characters. *)
Theorem serve_depends_on_decoded_text : forall chunks chunks',
  Forall (fun p => is_sentinel p = false)
    (lines_of (concat (map Buffer_toString chunks))) ->
  concat (map Buffer_toString chunks') = concat (map Buffer_toString chunks) ->
  serve number_to_string Buffer_toString initial chunks'
  = serve number_to_string Buffer_toString initial chunks.
Proof.
  intros chunks chunks' H E.
  rewrite !serve_whole; cbn [buffer initial app]; rewrite ?E; auto.
Qed.

Lemma split_join_lines : forall lines,
  Forall (fun l => ~ In LF l) lines ->
  split LF (join_lines lines) = lines ++ [[]].
Proof.
  induction 1 as [|l ls Hl _ IH]; [reflexivity|].
  unfold join_lines in *. cbn [map concat].
  rewrite <- app_assoc. cbn [app]. now rewrite split_line, IH.
Qed.

(** X7.  The handler keeps no trace of the end of the response: after the
    chunk that held the sentinel, the envelopes of a later chunk are still
    read and their commands written, after the call of [end]. *)
Theorem envelopes_after_sentinel_are_written : forall texts lines first second,
  Forall2 envelope texts lines ->
  Forall (fun l => ~ In LF l) lines ->
  Buffer_toString first = str "data: [DONE]" ++ [LF] ->
  Buffer_toString second = join_lines lines ->
  serve number_to_string Buffer_toString initial [first; second]
  = ResEnd :: map ResWrite (accumulate_all [] texts) ++ [ResEnd].
Proof.
  intros texts lines first second He Hn H1 H2. cbn [serve].
  assert (D : on_data number_to_string Buffer_toString initial first
              = (initial, [ResEnd]))
    by (unfold on_data; rewrite H1; reflexivity).
  rewrite D. cbv beta iota.
  assert (S2 : split LF (buffer initial ++ Buffer_toString second)
               = lines ++ [[]])
    by (rewrite H2; exact (split_join_lines lines Hn)).
  rewrite (on_data_eq initial second lines [] S2).
  pose proof (on_lines_writes number_to_string texts lines [] He) as W.
  cbn [commandBuffer initial].
  destruct (on_lines number_to_string [] lines) as [cb calls].
  cbn [snd] in W. subst calls. reflexivity.
Qed.

End WithNumbers.

Lemma serve_depends_on_decoded_text_witness :
  let body :=
    quoted "data: {'candidates':[{'content':{'parts':[{'text':'{\'type\':\'a\'}'}]}}]}"
    ++ [LF] ++ quoted "data: oops" ++ [LF]
    ++ quoted "data: {'candidates':[]}" ++ [LF] in
  let chunks := [firstn 30 body; skipn 30 body] in
  Forall (fun p => is_sentinel p = false)
    (lines_of (concat (map ascii_text chunks)))
  /\ concat (map ascii_text [body]) = concat (map ascii_text chunks)
  /\ serve (fun _ => []) ascii_text initial chunks
     = [ResWrite (VObj [(str "type", VStr (str "a"))]); ResEnd].
Proof.
  intros body chunks.
  assert (H : Forall (fun p => is_sentinel p = false)
                (lines_of (concat (map ascii_text chunks))))
    by (vm_compute; repeat constructor).
  assert (E : concat (map ascii_text [body]) = concat (map ascii_text chunks))
    by (vm_compute; reflexivity).
  split; [exact H|]. split; [exact E|].
  rewrite <- (serve_depends_on_decoded_text (fun _ => []) ascii_text
                chunks [body] H E).
  vm_compute. reflexivity.
Defined.

Lemma envelopes_after_sentinel_are_written_witness :
  let line :=
    quoted "data: {'candidates':[{'content':{'parts':[{'text':'{\'type\':\'a\'}'}]}}]}" in
  Forall2 envelope [quoted "{'type':'a'}"] [line]
  /\ Forall (fun l => ~ In LF l) [line]
  /\ serve (fun _ => []) ascii_text initial
       [str "data: [DONE]" ++ [LF]; join_lines [line]]
     = [ResEnd; ResWrite (VObj [(str "type", VStr (str "a"))]); ResEnd].
Proof.
  intros line.
  assert (He : Forall2 envelope [quoted "{'type':'a'}"] [line]).
  { repeat constructor. eexists. split; vm_compute; reflexivity. }
  assert (Hn : Forall (fun l => ~ In LF l) [line]).
  { repeat constructor. intros H. vm_compute in H. intuition discriminate. }
  split; [exact He|]. split; [exact Hn|].
  etransitivity;
    [exact (envelopes_after_sentinel_are_written (fun _ => []) ascii_text
              [quoted "{'type':'a'}"] [line]
              (str "data: [DONE]" ++ [LF]) (join_lines [line])
              He Hn eq_refl eq_refl)|].
  vm_compute. reflexivity.
Defined.

(** *** Boundaries that lose nothing *)

Lemma body_close_app : forall r b,
  has_brace r -> body_close (r ++ b) = body_close r.
Proof.
  induction r as [|c r IH]; intros b H.
  - destruct H as [[] | []].
  - cbn [app]. rewrite !body_close_cons.
    destruct (N.eqb_spec c lbrace) as [El | Hl];
      destruct (N.eqb_spec c rbrace) as [Er | Hr]; cbn [orb negb];
      try reflexivity.
    rewrite IH; [reflexivity|].
    destruct H as [[E | H] | [E | H]];
      [congruence | now left | congruence | now right].
Qed.

Lemma closed_end_tail : forall c r, closed_end (c :: r) -> closed_end r.
Proof.
  intros c r [H | (s' & H)]; [discriminate|].
  destruct s' as [|x s']; cbn in H; injection H as _ H.
  - left. exact H.
  - right. now exists s'.
Qed.

Lemma closed_end_has_close : forall r, closed_end r -> r <> [] -> In rbrace r.
Proof.
  intros r [H | (s' & ->)] Hne; [contradiction|].
  apply in_or_app. right. now left.
Qed.

(** A text that ends with a closing brace is searched apart from what
    follows it: no match goes over its end. *)
Lemma match_all_app_closed : forall a b skip i i',
  closed_end a -> skip <= length a ->
  map snd (match_all command_pattern skip i (a ++ b))
  = map snd (match_all command_pattern skip i a)
    ++ map snd (match_all command_pattern 0 i' b).
Proof.
  induction a as [|c r IH]; intros b skip i i' Ha Hs.
  - cbn [length] in Hs. replace skip with 0 by lia. cbn [app].
    apply match_all_texts.
  - pose proof (closed_end_tail c r Ha) as Hr. cbn [app].
    destruct skip as [|k].
    + rewrite !match_all_here, !match_here_pattern_cons.
      destruct (N.eqb_spec c lbrace) as [-> | Hc]; [|now apply IH; [|lia]].
      assert (Hne : r <> []).
      { intros ->. destruct Ha as [H | (s' & H)]; [discriminate|].
        destruct s' as [|x [|y s']]; cbn in H; discriminate. }
      rewrite (body_close_app r b
                 (or_intror (closed_end_has_close r Hr Hne))).
      destruct (body_close r) as [n|] eqn:Bn; cbn [option_map pred];
        [|now apply IH; [|lia]].
      destruct (body_close_sound r n Bn) as (body & rest & Er & _ & ->).
      assert (Ln : S (length body) <= length r)
        by (rewrite Er, length_app; cbn [length]; lia).
      cbn [map snd app]. rewrite !firstn_cons, firstn_app.
      replace (S (length body) - length r) with 0 by lia.
      cbn [firstn]. rewrite app_nil_r. f_equal.
      now apply IH.
    + rewrite !match_all_skip. apply IH; [assumption|cbn [length] in Hs; lia].
Qed.

Lemma extractCommands_app_closed : forall a b,
  closed_end a ->
  extractCommands (a ++ b) = extractCommands a ++ extractCommands b.
Proof.
  intros a b Ha. rewrite !extractCommands_texts.
  rewrite (match_all_app_closed a b 0 0 0 Ha (Nat.le_0_l _)).
  apply flat_map_app.
Qed.

Lemma closed_end_app : forall a b, closed_end a -> closed_end b -> closed_end (a ++ b).
Proof.
  intros a b Ha [-> | (s' & ->)].
  - now rewrite app_nil_r.
  - right. exists (a ++ s'). now rewrite app_assoc.
Qed.

Lemma accumulate_all_closed : forall texts commandBuffer,
  closed_end commandBuffer -> extractCommands commandBuffer = [] ->
  Forall closed_end texts ->
  accumulate_all commandBuffer texts = extractCommands (concat texts).
Proof.
  induction texts as [|text more IH]; intros commandBuffer Hb Hx H.
  - reflexivity.
  - inversion H as [|? ? Ht Hm]; subst.
    cbn [accumulate_all concat]. rewrite accumulate_eq.
    rewrite (extractCommands_app_closed text _ Ht).
    rewrite (extractCommands_app_closed commandBuffer text Hb), Hx.
    cbn [app].
    destruct (extractCommands text) as [|c cs] eqn:Et.
    + cbn [app]. apply IH;
        [ now apply closed_end_app
        | now rewrite (extractCommands_app_closed commandBuffer text Hb), Hx, Et
        | exact Hm ].
    + cbn [app]. f_equal. f_equal.
      apply IH; [left; reflexivity | reflexivity | exact Hm].
Qed.

(** X8.  When every text the upstream sends is empty or ends with a closing
    brace, the resets lose nothing: the commands written over the run are
    those [extractCommands] finds in the whole text, in order. *)
Theorem closed_texts_lose_nothing : forall texts,
  Forall closed_end texts ->
  accumulate_all [] texts = extractCommands (concat texts).
Proof.
  intros texts H. apply accumulate_all_closed; auto. now left.
Qed.

Lemma closed_texts_lose_nothing_witness :
  let texts :=
    [quoted "[{'type':'a'}"; []; quoted ",{'type':'b'},{'x':1}";
     quoted ",{'type':'c'}"] in
  Forall closed_end texts
  /\ accumulate_all [] texts
     = [VObj [(str "type", VStr (str "a"))];
        VObj [(str "type", VStr (str "b"))];
        VObj [(str "type", VStr (str "c"))]].
Proof.
  intros texts.
  assert (H : Forall closed_end texts).
  { apply Forall_cons; [right; now exists (quoted "[{'type':'a'")|].
    apply Forall_cons; [now left|].
    apply Forall_cons; [right; now exists (quoted ",{'type':'b'},{'x':1")|].
    apply Forall_cons; [right; now exists (quoted ",{'type':'c'")|].
    apply Forall_nil. }
  split; [exact H|].
  rewrite (closed_texts_lose_nothing texts H). vm_compute. reflexivity.
Defined.

Lemma typed_command_object : forall m c,
  In c (typed_command m) ->
  JSON_parse m = Some c
  /\ exists fields type,
       c = VObj fields /\ lookup fields (str "type") = Some type
       /\ truthy type = true.
Proof.
  intros m c. unfold typed_command.
  destruct (JSON_parse m) as [[ | | | | | |fields]|]; try (intros []).
  destruct (lookup fields (str "type")) as [type|] eqn:L; [|intros []].
  destruct (truthy type) eqn:T; [|intros []].
  intros [<- | []]. split; [reflexivity|]. now exists fields, type.
Qed.

(** X9.  Every command [extractCommands] returns is an object with a
    truthy [type], and is the value of a substring of the text made of an
    opening brace, a body without braces and a closing brace: never [null],
    never a string or a number, never a value with braces inside. *)
Theorem extracted_commands_are_typed_objects : forall text c,
  In c (extractCommands text) ->
  (exists fields type,
      c = VObj fields /\ lookup fields (str "type") = Some type
      /\ truthy type = true)
  /\ exists i m,
       occurs_at text i m /\ flat_object m /\ JSON_parse m = Some c.
Proof.
  intros text c H. rewrite extractCommands_texts in H.
  apply in_flat_map in H as (m & Hm & Hc).
  apply in_map_iff in Hm as ([i m'] & E & Hin). cbn in E. subst m'.
  destruct (typed_command_object m c Hc) as [Hp Ho].
  split; [exact Ho|].
  exists i, m. apply matches_spec in Hin as [H1 H2]. auto.
Qed.

Lemma extracted_commands_are_typed_objects_witness :
  let text := quoted "null {'a':1} 'x' {'type':'rect','x':0} {'type':0}" in
  let c := VObj [(str "type", VStr (str "rect")); (str "x", VNum 0)] in
  extractCommands text = [c]
  /\ exists fields type,
       c = VObj fields /\ lookup fields (str "type") = Some type
       /\ truthy type = true.
Proof.
  intros text c.
  assert (E : extractCommands text = [c]) by (vm_compute; reflexivity).
  split; [exact E|].
  apply (extracted_commands_are_typed_objects text c).
  rewrite E. now left.
Defined.

End ServerMore.

(** ** When the interpreter throws *)

Module InterpreterMore.
Import Js Json LatexRenderer Client Konva Frames Shapes JsFacts
  InterpreterFacts.

(** Induction on values that goes into arrays and objects. *)
Lemma value_nested_ind : forall P : value -> Prop,
  P VUndefined -> P VNull -> (forall b, P (VBool b)) ->
  (forall q, P (VNum q)) -> (forall s, P (VStr s)) ->
  (forall items, Forall P items -> P (VArr items)) ->
  (forall fields, Forall (fun kv => P (snd kv)) fields -> P (VObj fields)) ->
  forall v, P v.
Proof.
  intros P H0 H1 H2 H3 H4 H5 H6.
  fix IH 1. intros [ | |b|q|s|items|fields];
    [ apply H0 | apply H1 | apply H2 | apply H3 | apply H4 | | ].
  - apply H5. induction items as [|c cs IHcs]; constructor.
    + apply IH.
    + exact IHcs.
  - apply H6. induction fields as [|[k v] fs IHfs]; constructor.
    + apply IH.
    + exact IHfs.
Qed.

Lemma lookup_in : forall fields k v,
  lookup fields k = Some v -> exists k', In (k', v) fields.
Proof.
  induction fields as [|[k' v'] fs IH]; intros k v H; [discriminate|].
  cbn [lookup] in H. destruct (str_eqb k' k).
  - injection H as ->. exists k'. now left.
  - destruct (IH k v H) as (k'' & Hin). exists k''. now right.
Qed.

Lemma map_outcome_returns : forall (A B : Type) (f : A -> outcome B) l,
  (exists bs, map_outcome f l = Ret bs)
  <-> Forall (fun a => exists b, f a = Ret b) l.
Proof.
  intros A B f. induction l as [|a l IH]; cbn [map_outcome].
  - split; [constructor | now exists []].
  - split.
    + intros (bs & H). destruct (f a) as [b|e] eqn:Ea; [|discriminate].
      cbn [bind] in H.
      destruct (map_outcome f l) as [bs'|e] eqn:El; [|discriminate].
      constructor; [now exists b|]. apply IH. now exists bs'.
    + intros H. inversion H as [|? ? (b & Hb) Hl]; subst.
      apply IH in Hl as (bs & Hbs). rewrite Hb, Hbs. cbn. eauto.
Qed.

Section WithDetector.

Variable detectLatex : value -> outcome (list MathSpan).

Lemma is_group_not_text : forall type,
  is_str type (str "group") = true -> is_str type (str "text") = false.
Proof.
  intros [ | | | |s| | ] H; try discriminate.
  cbn [is_str] in *. apply str_eqb_eq in H. now subst s.
Qed.

Lemma is_group_only : forall type,
  is_str type (str "group") = true ->
  is_str type (str "equation") = false /\ is_str type (str "line") = false
  /\ is_str type (str "rect") = false.
Proof.
  intros [ | | | |s| | ] H; try discriminate.
  cbn [is_str] in *. apply str_eqb_eq in H. now subst s.
Qed.

Lemma get_total : forall c k type,
  get c (str "type") = Ret type -> exists v, get c k = Ret v.
Proof.
  intros [ | | | | | |fields] k type H; try discriminate; cbn [get]; eauto.
  destruct (lookup fields k); eauto.
Qed.

Lemma is_str_primitive : forall type s,
  is_str type s = true -> has_primitive type = true.
Proof. intros [ | | | |t| | ] s H; try discriminate; reflexivity. Qed.

(** What [render_switch] needs to return, given what the children give. *)
Lemma render_switch_returns : forall c children,
  (exists e, render_switch detectLatex c children = Ret e)
  <-> exists type,
        get c (str "type") = Ret type
        /\ has_primitive type = true
        /\ (is_str type (str "text") = true ->
            exists text spans,
              get c (str "text") = Ret text /\ detectLatex text = Ret spans)
        /\ (is_str type (str "group") = true ->
            exists kids,
              get c (str "children") = Ret kids
              /\ (truthy kids = true ->
                  (exists items, kids = VArr items)
                  /\ exists es, children = Ret es)).
Proof.
  intros c children. unfold render_switch, key_of.
  destruct (get c (str "type")) as [type|e] eqn:Ht; cbn [bind];
    [|split; [intros (? & ?); discriminate
             | intros (? & ? & _); discriminate]].
  destruct (has_primitive type) eqn:Hp; cbn [bind];
    [|split; [intros (? & ?); discriminate
             | intros (type' & E & Hp' & _); injection E as <-; congruence]].
  destruct (get_total c (str "text") type Ht) as (text & Htext).
  destruct (get_total c (str "latex") type Ht) as (latex & Hlatex).
  destruct (get_total c (str "x") type Ht) as (x & Hx).
  destruct (get_total c (str "y") type Ht) as (y & Hy).
  destruct (get_total c (str "fontSize") type Ht) as (fs & Hfs).
  destruct (get_total c (str "points") type Ht) as (pts & Hpts).
  destruct (get_total c (str "strokeWidth") type Ht) as (sw & Hsw).
  destruct (get_total c (str "width") type Ht) as (w & Hw).
  destruct (get_total c (str "height") type Ht) as (h & Hh).
  destruct (get_total c (str "children") type Ht) as (kids & Hkids).
  rewrite Htext, Hlatex, Hx, Hy, Hfs, Hpts, Hsw, Hw, Hh, Hkids.
  cbn [bind].
  destruct (is_str type (str "text")) eqn:Et.
  - split.
    + intros (e & H).
      destruct (detectLatex text) as [spans|err] eqn:Ed; [|discriminate].
      exists type. split; [reflexivity|]. split; [exact Hp|]. split.
      * intros _. now exists text, spans.
      * intros Hg. apply is_group_not_text in Hg. congruence.
    + intros (type' & E & _ & H1 & _). injection E as <-.
      destruct (H1 ltac:(first [reflexivity | assumption])) as (text' & spans & E1 & E2).
      injection E1 as <-. rewrite E2. cbn [bind].
      destruct spans; eauto.
  - destruct (is_str type (str "equation")) eqn:Ee;
      [|destruct (is_str type (str "line")) eqn:El;
        [|destruct (is_str type (str "rect")) eqn:Er;
          [|destruct (is_str type (str "group")) eqn:Eg]]].
    1-3: split; [intros _; exists type; split; [reflexivity|];
                 split; [exact Hp|];
                 split; [intros; congruence|];
                 intros Hg; apply is_group_only in Hg; intuition congruence
                | eauto].
    + split.
      * intros (e & H). exists type. split; [reflexivity|].
        split; [exact Hp|].
        split; [intros; congruence|]. intros _. exists kids.
        split; [reflexivity|]. intros Ht'. rewrite Ht' in H.
        destruct kids; try discriminate.
        split; [eauto|].
        destruct children as [es|err]; [eauto | discriminate].
      * intros (type' & E & _ & _ & H2). injection E as <-.
        destruct (H2 ltac:(first [reflexivity | assumption])) as (kids' & E1 & H3). injection E1 as <-.
        destruct (truthy kids) eqn:Tk; [|eauto].
        destruct (H3 ltac:(first [reflexivity | assumption])) as ((items & ->) & es & ->). cbn. eauto.
    + split; [|eauto]. intros _. exists type. split; [reflexivity|].
      split; [exact Hp|]. split; intros; congruence.
Qed.

Lemma children_items_get : forall c l,
  get c (str "children") = Ret (VArr l) -> children_items c = l.
Proof.
  intros [ | | | | | |fields] l H; try discriminate.
  unfold get in H. unfold children_items.
  destruct (lookup fields (str "children")) as [v|];
    [injection H as ->; reflexivity | discriminate].
Qed.

(** X10.  [renderCommand] returns an element exactly on the renderable
    commands: it throws when the command, or a command at any depth in the
    [children] arrays of groups, is [null] or has a [type] that the key
    cannot convert to a string, when a group has a [children] that is
    truthy and not an array, or when the detector throws on the text of a
    text command, and never otherwise. *)
Theorem renderCommand_returns_iff : forall c,
  renderable detectLatex c
  <-> exists e, renderCommand detectLatex c = Ret e.
Proof.
  intros c.
  enough (Q : (renderable detectLatex c
               <-> exists e, renderCommand detectLatex c = Ret e)
              /\ match c with
                 | VArr items =>
                     Forall (fun i => renderable detectLatex i
                              <-> exists e, renderCommand detectLatex i = Ret e)
                       items
                 | _ => True
                 end) by apply Q.
  induction c as [ | |b|q|s|items IHitems|fields IHfields]
    using value_nested_ind.
  - split; [|exact I].
    split; [intros H; inversion H; discriminate | intros (e & H); discriminate].
  - split; [|exact I].
    split; [intros H; inversion H; discriminate | intros (e & H); discriminate].
  - split; [|exact I]. split; [intros _; now exists ENull|].
    intros _. apply (@Renderable_plain detectLatex _ VUndefined); reflexivity.
  - split; [|exact I]. split; [intros _; now exists ENull|].
    intros _. apply (@Renderable_plain detectLatex _ VUndefined); reflexivity.
  - split; [|exact I]. split; [intros _; now exists ENull|].
    intros _. apply (@Renderable_plain detectLatex _ VUndefined); reflexivity.
  - split.
    + split; [intros _; now exists ENull|].
      intros _. apply (@Renderable_plain detectLatex _ VUndefined); reflexivity.
    + apply Forall_impl with (2 := IHitems). intros a Ha. apply Ha.
  - split; [|exact I].
    rewrite renderCommand_eq, render_switch_returns.
    assert (kids_ok : forall items,
              get (VObj fields) (str "children") = Ret (VArr items) ->
              (Forall (renderable detectLatex) items
               <-> exists es,
                     map_outcome (renderCommand detectLatex) items = Ret es)).
    { intros items Hk. rewrite map_outcome_returns.
      unfold get in Hk.
      destruct (lookup fields (str "children")) as [v|] eqn:L;
        [|discriminate].
      injection Hk as ->. destruct (lookup_in _ _ _ L) as (k' & Hin).
      rewrite Forall_forall in IHfields.
      destruct (IHfields _ Hin) as [_ Hitems]. cbn [snd] in Hitems.
      rewrite Forall_forall in Hitems. rewrite !Forall_forall.
      split; intros H i Hi; apply (Hitems i Hi), H, Hi. }
    split.
    + intros H. inversion H as
        [c' type text spans Ht Hs Htext Hd
        |c' type Ht Hp Hs Hg
        |c' type kids Ht Hg Hk Hf
        |c' type items Ht Hg Hk Hi]; subst; exists type;
        (split; [exact Ht|]).
      * split; [exact (is_str_primitive _ _ Hs)|].
        split; [intros _; now exists text, spans|].
        intros Hg. apply is_group_not_text in Hg. congruence.
      * split; [exact Hp|]. split; intros; congruence.
      * split; [exact (is_str_primitive _ _ Hg)|].
        split; [intros Hs; apply is_group_not_text in Hg; congruence|].
        intros _. exists kids. split; [exact Hk|]. congruence.
      * split; [exact (is_str_primitive _ _ Hg)|].
        split; [intros Hs; apply is_group_not_text in Hg; congruence|].
        intros _. exists (VArr items). split; [exact Hk|]. intros _.
        split; [eauto|].
        rewrite (children_items_get _ _ Hk). now apply kids_ok.
    + intros (type & Ht & Hp & H1 & H2).
      destruct (is_str type (str "text")) eqn:Es.
      * destruct (H1 ltac:(first [reflexivity | assumption])) as (text & spans & E1 & E2).
        now apply (@Renderable_text detectLatex _ type text spans).
      * destruct (is_str type (str "group")) eqn:Eg.
        -- destruct (H2 ltac:(first [reflexivity | assumption])) as (kids & Hk & H3).
           destruct (truthy kids) eqn:Tk.
           ++ destruct (H3 ltac:(first [reflexivity | assumption])) as ((items & ->) & es & He).
              apply (@Renderable_group detectLatex _ type items); auto.
              apply kids_ok; [exact Hk|].
              rewrite (children_items_get _ _ Hk) in He. eauto.
           ++ now apply (@Renderable_childless detectLatex _ type kids).
        -- now apply (@Renderable_plain detectLatex _ type).
Qed.

Lemma map_outcome_throws : forall (A B : Type) (f : A -> outcome B) l a e,
  In a l -> f a = Throw e -> exists e', map_outcome f l = Throw e'.
Proof.
  intros A B f l a e. induction l as [|x l IH]; intros Hin Ha; [contradiction|].
  cbn [map_outcome]. destruct Hin as [-> | Hin].
  - rewrite Ha. cbn. eauto.
  - destruct (f x); [|cbn; eauto]. cbn [bind].
    destruct (IH Hin Ha) as (e' & ->). cbn. eauto.
Qed.

(** X11.  One [null] among the decoded commands, as the frame [data: null]
    gives, makes the interpretation of the whole list throw: nothing is
    drawn, the commands before and after it included. *)
Theorem null_command_breaks_rendering : forall chunks,
  In VNull (decode chunks) ->
  exists e, render_all detectLatex (decode chunks) = Throw e.
Proof.
  intros chunks H.
  apply (map_outcome_throws _ _ _ _ VNull TypeError H). reflexivity.
Qed.

End WithDetector.

Lemma null_command_breaks_rendering_witness :
  let chunks :=
    [quoted "data: {'type':'rect','x':1}" ++ [LF] ++ str "data: null" ++ [LF]] in
  In VNull (decode chunks)
  /\ render_all detect_value (decode chunks) = Throw TypeError.
Proof.
  intros chunks.
  assert (H : In VNull (decode chunks)) by (vm_compute; auto).
  split; [exact H|].
  destruct (null_command_breaks_rendering detect_value chunks H) as (e & He).
  rewrite He. vm_compute in He. now injection He as <-.
Defined.

End InterpreterMore.


(* ------------------------------------------------------------------ *)
Module EquationMore.
Import Js Json EventLoop Client Spans.

Lemma get_of_truthy : forall v k,
  truthy v = true -> exists w, get v k = Ret w.
Proof.
  intros v k H. destruct v; try discriminate; cbn [get]; eauto.
  destruct (lookup fields k); eauto.
Qed.

(** X12.  [EquationRenderer] throws on nothing but an image it cannot
    scale: it returns an element exactly when it has failed, or has no
    image data yet, or the [width] and the [height] of the image data have
    primitive values.  The image data are read only once they are truthy,
    so no read of them throws, whatever the typesetter resolved with. *)
Theorem EquationRenderer_renders_iff : forall latex x y fontSize st,
  (exists e, EquationRenderer_render latex x y fontSize st = Ret e)
  <-> failed st = true
      \/ truthy (imageData st) = false
      \/ exists w h,
           get (imageData st) (str "width") = Ret w
           /\ get (imageData st) (str "height") = Ret h
           /\ has_primitive w = true /\ has_primitive h = true.
Proof.
  intros latex x y fontSize st. unfold EquationRenderer_render, times.
  destruct (failed st); [split; [now left | eauto]|].
  destruct (truthy (imageData st)) eqn:T; cbn [negb];
    [|split; [right; now left | eauto]].
  destruct (get_of_truthy _ (str "x") T) as [ix ->].
  destruct (get_of_truthy _ (str "y") T) as [iy ->].
  destruct (get_of_truthy _ (str "image") T) as [im ->].
  destruct (get_of_truthy _ (str "width") T) as [w ->].
  destruct (get_of_truthy _ (str "height") T) as [h ->].
  cbn [bind]. split.
  - intros (e & H). right. right. exists w, h.
    destruct (has_primitive w); [|discriminate]. cbn [bind] in H.
    destruct (has_primitive h); [|discriminate]. now repeat split.
  - intros [K | [K | (w' & h' & Ew & Eh & Hw & Hh)]]; try discriminate.
    injection Ew as <-. injection Eh as <-. rewrite Hw. cbn [bind].
    rewrite Hh. cbn [bind]. eauto.
Qed.

End EquationMore.


(* ------------------------------------------------------------------ *)
Module MixedFacts.
Import Js Json LatexRenderer Client Spans Mixed.





Lemma sorted_snoc : forall (A : Type) (R : A -> A -> Prop) l p,
  StronglySorted R l -> Forall (fun a => R a p) l ->
  StronglySorted R (l ++ [p]).
Proof.
  intros A R l p Hs Hf. induction Hs as [|a l Hs IH Ha]; cbn [app].
  - constructor; constructor.
  - inversion Hf as [|? ? Hap Hl]; subst. constructor; [now apply IH|].
    apply Forall_app. split; [assumption|]. constructor; [assumption|constructor].
Qed.

Section OnAText.

Variable s : jsstring.
Variables x y fontSize : value.

(** A property that each span keeps holds when the loop ends. *)
Lemma forEach_invariant : forall (P : layout -> list MathSpan -> Prop),
  (forall st m more,
     P st (m :: more) -> P (each_match s y fontSize st m) more) ->
  forall spans st, P st spans ->
  P (fold_left (each_match s y fontSize) spans st) [].
Proof.
  intros P step. induction spans as [|m more IH]; intros st H; [exact H|].
  cbn [fold_left]. apply IH. exact (step _ _ _ H).
Qed.



End OnAText.




Lemma reaches_further : forall q q' l,
  (q <= q')%Q -> Forall (reaches q) l -> Forall (reaches q') l.
Proof.
  intros q q' l Hq H. induction H as [|p l (qp & Hp & Hle) _ IH];
    constructor; [|exact IH].
  exists qp. split; [exact Hp|]. now apply Qle_trans with q.
Qed.

Lemma push_part : forall q l p,
  position_value (p_x p) = Some q ->
  StronglySorted left_of l -> Forall (reaches q) l ->
  StronglySorted left_of (l ++ [p]) /\ Forall (reaches q) (l ++ [p]).
Proof.
  intros q l p Hp Hs Hf. split.
  - apply sorted_snoc; [exact Hs|].
    apply Forall_forall. intros a Ha.
    destruct (proj1 (Forall_forall _ _) Hf a Ha) as (qa & Ea & Hle).
    exists qa, q. now repeat split.
  - apply Forall_app. split; [exact Hf|].
    constructor; [|constructor]. exists q. split; [exact Hp|apply Qle_refl].
Qed.

Lemma text_width_nonneg : forall len f,
  (0 <= f)%Q -> (0 <= inject_Z (Z.of_nat len) * f * (6 # 10))%Q.
Proof.
  intros len f Hf. apply Qmult_le_0_compat; [|discriminate].
  apply Qmult_le_0_compat; [|exact Hf].
  unfold Qle. cbn. lia.
Qed.

Lemma moved_right : forall q t, (0 <= t)%Q -> (q <= Qred (q + t))%Q.
Proof.
  intros q t Ht. rewrite Qred_correct.
  rewrite <- (Qplus_0_r q) at 1. apply Qplus_le_compat; [apply Qle_refl|exact Ht].
Qed.

(** X16. With a numeric [x] and a font size that is not negative, the
    parts of [MixedTextRenderer] are laid out from left to right in the
    order of the text: no part starts to the left of an earlier one. *)
Theorem mixed_parts_left_to_right : forall s qx y qf spans,
  (0 <= qf)%Q ->
  StronglySorted left_of (mixed_parts s (VNum qx) y (VNum qf) spans).
Proof.
  intros s qx y qf spans Hf. unfold mixed_parts.
  destruct (forEach_invariant s y (VNum qf)
    (fun st _ =>
       exists q, position_value (currentXPos st) = Some q
                 /\ StronglySorted left_of (parts st)
                 /\ Forall (reaches q) (parts st)))
    with (spans := spans)
    (st := {| parts := []; lastIndex := 0; currentXPos := At (VNum qx) |})
    as (q & Hq & Hs & Hr).
  - intros st m more (q & Hq & Hs & Hr).
    assert (I1 : exists q1,
               position_value (currentXPos (before_match s y (VNum qf) st m))
               = Some q1
               /\ StronglySorted left_of (parts (before_match s y (VNum qf) st m))
               /\ Forall (reaches q1) (parts (before_match s y (VNum qf) st m))).
    { unfold before_match.
      destruct (lastIndex st <? start m); [|now exists q].
      destruct (str_truthy (trim (substring2 s (lastIndex st) (start m))));
        [|now exists q].
      cbn [parts currentXPos position_value]. rewrite Hq. cbn [option_map].
      eexists. split; [reflexivity|].
      destruct (push_part q (parts st)
                  (text_part y (VNum qf)
                     (substring2 s (lastIndex st) (start m)) (currentXPos st))
                  Hq Hs Hr) as [Hs' Hr'].
      split; [exact Hs'|].
      apply (reaches_further q); [|exact Hr'].
      apply moved_right. now apply text_width_nonneg. }
    destruct I1 as (q1 & Hq1 & Hs1 & Hr1).
    unfold each_match. cbn [parts currentXPos position_value].
    rewrite Hq1. cbn [option_map].
    eexists. split; [reflexivity|].
    destruct (push_part q1 (parts (before_match s y (VNum qf) st m))
                (latex_part y (VNum qf) (latex m)
                   (currentXPos (before_match s y (VNum qf) st m)))
                Hq1 Hs1 Hr1) as [Hs' Hr'].
    split; [exact Hs'|].
    apply (reaches_further q1); [|exact Hr'].
    apply moved_right. discriminate.
  - exists qx. split; [reflexivity|]. split; constructor.
  - unfold remaining.
    destruct (lastIndex _ <? length s); [|exact Hs].
    destruct (str_truthy (trim (substring s _))); [|exact Hs].
    exact (proj1 (push_part q _ (text_part y (VNum qf) _ _) Hq Hs Hr)).
Qed.

Lemma mixed_parts_left_to_right_witness :
  let s := str "solve $x^2$ and   $y$ now" in
  let ps := mixed_parts s (VNum 20) (VNum 5) (VNum 10) (detectLatex s) in
  map (fun p => position_value (p_x p)) ps
  = [Some 20; Some 56; Some 156; Some 198; Some 298]%Q
  /\ StronglySorted left_of ps.
Proof.
  intros s ps. split; [reflexivity|].
  apply (mixed_parts_left_to_right s 20%Q (VNum 5) 10%Q (detectLatex s)).
  discriminate.
Defined.

End MixedFacts.


(* ------------------------------------------------------------------ *)
Module BoardFacts.
Import Js Json EventLoop Batch Board.

Lemma uint_chars_inj : forall u v,
  Client.uint_chars u = Client.uint_chars v -> u = v.
Proof.
  induction u as [|u IH|u IH|u IH|u IH|u IH|u IH|u IH|u IH|u IH|u IH];
    destruct v; cbn [Client.uint_chars]; intros H;
    try discriminate H; try reflexivity;
    injection H as H; f_equal; exact (IH _ H).
Qed.

Lemma N_to_string_inj : forall n m,
  Client.N_to_string n = Client.N_to_string m -> n = m.
Proof.
  intros n m H. apply uint_chars_inj in H.
  rewrite <- (DecimalN.Unsigned.of_to n), <- (DecimalN.Unsigned.of_to m).
  now rewrite H.
Qed.

Lemma equation_id_inj : forall i j, equation_id i = equation_id j -> i = j.
Proof.
  intros i j H. unfold equation_id in H. apply app_inv_head in H.
  apply N_to_string_inj in H. now apply Nat2N.inj.
Qed.

Lemma get_readable : forall c k,
  readable c = true -> exists v, get c k = Ret v.
Proof.
  intros c k H. destruct c; try discriminate; cbn [get]; eauto.
  destruct (lookup fields k); eauto.
Qed.

Lemma get_unreadable : forall c k,
  readable c = false -> get c k = Throw TypeError.
Proof. intros c k H. destruct c; try discriminate; reflexivity. Qed.

Lemma run_cons : forall s t ts,
  run s (t :: ts) = run (fold_left apply_update t s) ts.
Proof. reflexivity. Qed.

Lemma positions_increase : forall items i j,
  In j (equation_positions i items) -> i <= j.
Proof.
  induction items as [|c rest IH]; intros i j H; [contradiction|].
  cbn [equation_positions] in H. destruct (is_equation c).
  - destruct H as [<- | H]; [lia|]. apply IH in H. lia.
  - apply IH in H. lia.
Qed.

Lemma positions_distinct : forall items i, NoDup (equation_positions i items).
Proof.
  induction items as [|c rest IH]; intros i; [constructor|].
  cbn [equation_positions]. destruct (is_equation c); [|apply IH].
  constructor; [|apply IH]. intros H. apply positions_increase in H. lia.
Qed.

Lemma distinct_map : forall (A B : Type) (f : A -> B) l,
  (forall a b, f a = f b -> a = b) -> NoDup l -> NoDup (map f l).
Proof.
  intros A B f l inj H. induction H as [|a l Ha _ IH]; cbn [map];
    constructor; [|exact IH].
  intros Hin. apply in_map_iff in Hin. destruct Hin as (b & E & Hb).
  apply inj in E. now subst.
Qed.

Lemma lookup_key : forall fields k v,
  lookup fields k = Some v -> In k (map fst fields).
Proof.
  induction fields as [|[k' v'] fs IH]; intros k v H; [discriminate|].
  cbn [lookup] in H. cbn [map fst]. destruct (str_eqb k' k) eqn:E.
  - left. now apply JsFacts.str_eqb_eq.
  - right. exact (IH k v H).
Qed.

Lemma forallb_false : forall (A : Type) (f : A -> bool) l,
  forallb f l = false -> exists a, In a l /\ f a = false.
Proof.
  intros A f. induction l as [|a l IH]; intros H; [discriminate|].
  cbn [forallb] in H. destruct (f a) eqn:E.
  - destruct (IH H) as (b & Hb & Eb). exists b. split; [now right | exact Eb].
  - exists a. split; [now left | exact E].
Qed.

(** Among the indices up to the number of the properties of an object one
    has no property. *)
Lemma missing_index : forall fields,
  exists i,
    In i (seq 0 (S (length fields)))
    /\ lookup fields (Client.N_to_string (N.of_nat i)) = None.
Proof.
  intros fields.
  set (key := fun i => Client.N_to_string (N.of_nat i)).
  set (present := fun i => match lookup fields (key i) with
                           | Some _ => true
                           | None => false
                           end).
  destruct (forallb present (seq 0 (S (length fields)))) eqn:E.
  - exfalso. rewrite forallb_forall in E.
    assert (D : NoDup (map key (seq 0 (S (length fields))))).
    { apply distinct_map; [|apply seq_NoDup].
      intros a b H. apply N_to_string_inj in H. now apply Nat2N.inj. }
    assert (I : incl (map key (seq 0 (S (length fields)))) (map fst fields)).
    { intros k Hk. apply in_map_iff in Hk. destruct Hk as (i & <- & Hi).
      specialize (E i Hi). unfold present in E.
      destruct (lookup fields (key i)) as [v|] eqn:L; [|discriminate].
      exact (lookup_key _ _ _ L). }
    pose proof (NoDup_incl_length D I) as K.
    rewrite !length_map, length_seq in K. lia.
  - destruct (forallb_false _ _ _ E) as (i & Hi & Ei). exists i.
    split; [exact Hi|]. unfold present, key in Ei.
    now destruct (lookup fields (Client.N_to_string (N.of_nat i))).
Qed.

Section WithEngine.

Variable message : value -> jsstring -> jsstring.
Variable less : nat -> value -> outcome bool.

(** The loop over an object stops at an index without property, whatever
    indices follow. *)
Lemma object_items_cut : forall fields len indices more,
  (exists i, In i indices
             /\ lookup fields (Client.N_to_string (N.of_nat i)) = None) ->
  object_items less fields len (indices ++ more)
  = object_items less fields len indices.
Proof.
  intros fields len. induction indices as [|i indices IH]; intros more H.
  - destruct H as (i & [] & _).
  - cbn [app object_items]. destruct (below less i len) as [[|]|e];
      try reflexivity.
    destruct (lookup fields (Client.N_to_string (N.of_nat i))) as [c|] eqn:L;
      [|reflexivity].
    rewrite IH; [reflexivity|].
    destruct H as (k & [<- | Hk] & E); [congruence|]. now exists k.
Qed.

(** The indices up to the number of the properties are all the loop over
    an object can reach: more of them change nothing. *)
Lemma object_loop_bounded : forall fields len n,
  S (length fields) <= n ->
  object_items less fields len (seq 0 n)
  = object_items less fields len (seq 0 (S (length fields))).
Proof.
  intros fields len n H.
  replace n with (S (length fields) + (n - S (length fields))) by lia.
  rewrite seq_app. apply object_items_cut, missing_index.
Qed.

Lemma read_readable : forall c k,
  readable c = true -> read message c k = get c k.
Proof.
  intros c k H. unfold read.
  now destruct (get_readable c k H) as [v ->].
Qed.

(** What [deliver] gives for a command whose properties can be read. *)
Lemma deliver_readable : forall i c,
  readable c = true ->
  if is_equation c
  then exists e,
         deliver message i c = Ret (AddEquation e) /\ id e = equation_id i
  else deliver message i c = Ret (AddCommand c).
Proof.
  intros i c H. unfold is_equation, deliver.
  rewrite (read_readable c _ H).
  destruct (get_readable c (str "type") H) as [type ->]. cbn [bind].
  destruct (is_str type (str "equation")); [|reflexivity].
  destruct (get_readable c (str "latex") H) as [v1 ->].
  destruct (get_readable c (str "text") H) as [v2 ->].
  destruct (get_readable c (str "x") H) as [v3 ->].
  destruct (get_readable c (str "y") H) as [v4 ->].
  destruct (get_readable c (str "fontSize") H) as [v5 ->].
  cbn [bind]. eexists. split; reflexivity.
Qed.

Lemma deliver_unreadable : forall i c,
  readable c = false ->
  deliver message i c = Throw (message c (str "type")).
Proof.
  intros i c H. unfold deliver, read. now rewrite (get_unreadable c _ H).
Qed.

(** The loop over readable items, then an item that cannot be read: the
    readable items are stored, and the handler ends on the message of the
    read that failed. *)
Lemma deliver_all_run : forall items stop i s closing,
  forallb readable items = true ->
  readable stop = false ->
  forall after,
  let s' := run s (deliver_all message i (items ++ stop :: after) closing) in
  commands s' = commands s ++ filter (fun c => negb (is_equation c)) items
  /\ map id (equations s')
     = map id (equations s) ++ map equation_id (equation_positions i items)
  /\ loading s' = false
  /\ error s' = str "Error: " ++ message stop (str "type").
Proof.
  induction items as [|c rest IH]; intros stop i s closing Hr Hs after.
  - cbn [app deliver_all]. rewrite (deliver_unreadable i stop Hs).
    cbn. rewrite !app_nil_r. now repeat split.
  - cbn [forallb] in Hr. apply andb_prop in Hr. destruct Hr as [Hc Hr].
    cbn [app deliver_all]. pose proof (deliver_readable i c Hc) as D.
    cbn [filter equation_positions].
    destruct (is_equation c); cbn [negb].
    + destruct D as (e & -> & He).
      destruct (rest ++ stop :: after) eqn:E;
        [destruct rest; discriminate E|].
      rewrite <- E, run_cons.
      destruct (IH stop (S i) (fold_left apply_update [AddEquation e] s)
                  closing Hr Hs after) as (A & B & C & D).
      cbv zeta. rewrite A, B, C, D. cbn [fold_left apply_update commands
        equations]. rewrite map_app. cbn [map]. rewrite He.
      rewrite <- app_assoc. now repeat split.
    + rewrite D.
      destruct (rest ++ stop :: after) eqn:E;
        [destruct rest; discriminate E|].
      rewrite <- E, run_cons.
      destruct (IH stop (S i) (fold_left apply_update [AddCommand c] s)
                  closing Hr Hs after) as (A & B & C & D').
      cbv zeta. rewrite A, B, C, D'. cbn [fold_left apply_update commands
        equations]. rewrite <- app_assoc. now repeat split.
Qed.

Lemma deliver_all_run_complete : forall items i s,
  forallb readable items = true -> items <> [] ->
  let s' := run s (deliver_all message i items [SetLoading false]) in
  commands s' = commands s ++ filter (fun c => negb (is_equation c)) items
  /\ map id (equations s')
     = map id (equations s) ++ map equation_id (equation_positions i items)
  /\ loading s' = false
  /\ error s' = error s.
Proof.
  induction items as [|c rest IH]; intros i s Hr Hne; [congruence|].
  cbn [forallb] in Hr. apply andb_prop in Hr. destruct Hr as [Hc Hr].
  cbn [deliver_all]. pose proof (deliver_readable i c Hc) as D.
  cbn [filter equation_positions].
  destruct (is_equation c); cbn [negb].
  - destruct D as (e & -> & He). destruct rest as [|c' rest'].
    + unfold run. cbn [fold_left apply_update commands equations loading
        error filter equation_positions].
      rewrite map_app. cbn [map]. rewrite He, app_nil_r. now repeat split.
    + rewrite run_cons.
      destruct (IH (S i) (fold_left apply_update [AddEquation e] s) Hr
                  ltac:(discriminate)) as (A & B & C & D).
      cbv zeta. rewrite A, B, C, D. cbn [fold_left apply_update commands
        equations error]. rewrite map_app. cbn [map]. rewrite He.
      rewrite <- app_assoc. now repeat split.
  - rewrite D. destruct rest as [|c' rest'].
    + unfold run. cbn [fold_left apply_update commands equations loading
        error filter equation_positions map].
      rewrite app_nil_r. now repeat split.
    + rewrite run_cons.
      destruct (IH (S i) (fold_left apply_update [AddCommand c] s) Hr
                  ltac:(discriminate)) as (A & B & C & D').
      cbv zeta. rewrite A, B, C, D'. cbn [fold_left apply_update commands
        equations error]. rewrite <- app_assoc. now repeat split.
Qed.

(** What [handleGenerate] runs on a body whose [commands] is this
    array. *)
Lemma handleGenerate_array : forall prompt status data items,
  str_truthy (trim prompt) = true ->
  get data (str "commands") = Ret (VArr items) ->
  handleGenerate message less prompt (Reply true status (Fulfilled data))
  = [SetLoading true; SetError []; SetCommands []; SetEquations []]
    :: match items with
       | [] => [[SetLoading false]]
       | _ :: _ => deliver_all message 0 items [SetLoading false]
       end.
Proof.
  intros prompt status data items Hp Hd.
  unfold handleGenerate, on_data, read. rewrite Hp, Hd.
  cbn [truthy items_of]. reflexivity.
Qed.

(** X17. A reply of [/api/generate] whose [commands] is an array of
    items that can all be read reaches the board whole: the items that
    are no equations, in their order, make the commands; the equations get
    the distinct ids [eq-i] of their places in the reply; the handler ends
    idle and without an error. *)
Theorem batch_reply_reaches_board : forall s prompt status data items,
  str_truthy (trim prompt) = true ->
  get data (str "commands") = Ret (VArr items) ->
  forallb readable items = true ->
  let s' := run s (handleGenerate message less prompt
                     (Reply true status (Fulfilled data))) in
  commands s' = filter (fun c => negb (is_equation c)) items
  /\ map id (equations s') = map equation_id (equation_positions 0 items)
  /\ NoDup (map id (equations s'))
  /\ loading s' = false
  /\ error s' = [].
Proof.
  intros s prompt status data items Hp Hd Hr.
  rewrite (handleGenerate_array prompt status data items Hp Hd).
  destruct items as [|c rest].
  - cbn. repeat split. constructor.
  - rewrite run_cons.
    destruct (deliver_all_run_complete (c :: rest) 0
                (fold_left apply_update
                   [SetLoading true; SetError []; SetCommands [];
                    SetEquations []] s) Hr ltac:(discriminate))
      as (A & B & C & D).
    cbv zeta. rewrite A, B, C, D. repeat split.
    apply distinct_map; [exact equation_id_inj | apply positions_distinct].
Qed.

(** X18. An item of the reply that is [null] stops the delivery: the items
    before it are on the board, no item after it is ever delivered, and
    the handler ends idle with the message of the read that failed, the one
    of [type] on that item. *)
Theorem unreadable_item_stops_delivery :
  forall s prompt status data before c after,
  str_truthy (trim prompt) = true ->
  get data (str "commands") = Ret (VArr (before ++ c :: after)) ->
  forallb readable before = true -> readable c = false ->
  let s' := run s (handleGenerate message less prompt
                     (Reply true status (Fulfilled data))) in
  commands s' = filter (fun c => negb (is_equation c)) before
  /\ map id (equations s') = map equation_id (equation_positions 0 before)
  /\ loading s' = false
  /\ error s' = str "Error: " ++ message c (str "type").
Proof.
  intros s prompt status data before c after Hp Hd Hr Hc.
  rewrite (handleGenerate_array prompt status data _ Hp Hd).
  destruct (before ++ c :: after) eqn:E; [destruct before; discriminate E|].
  rewrite <- E, run_cons.
  destruct (deliver_all_run before c 0
              (fold_left apply_update
                 [SetLoading true; SetError []; SetCommands [];
                  SetEquations []] s) [SetLoading false] Hr Hc after)
    as (A & B & C & D).
  cbv zeta. rewrite A, B, C, D. now repeat split.
Qed.




End WithEngine.







Lemma batch_reply_reaches_board_witness :
  let text := VObj [(str "type", VStr (str "text")); (str "text", VStr (str "Area"))] in
  let eq1 := VObj [(str "type", VStr (str "equation")); (str "latex", VStr (str "a^2"))] in
  let line := VObj [(str "type", VStr (str "line"))] in
  let eq2 := VObj [(str "type", VStr (str "equation")); (str "text", VStr (str "b^2"))] in
  let data := VObj [(str "commands", VArr [text; eq1; line; eq2])] in
  let s' := run initial
              (handleGenerate v8_message never_less (str "draw")
                 (Reply true 200%N (Fulfilled data))) in
  commands s' = [text; line]
  /\ map id (equations s') = [str "eq-1"; str "eq-3"]
  /\ NoDup (map id (equations s'))
  /\ loading s' = false
  /\ error s' = [].
Proof.
  intros text eq1 line eq2 data.
  exact (batch_reply_reaches_board v8_message never_less initial (str "draw")
           200%N data [text; eq1; line; eq2] eq_refl eq_refl eq_refl).
Defined.

Lemma unreadable_item_stops_delivery_witness :
  let text := VObj [(str "type", VStr (str "text")); (str "text", VStr (str "Area"))] in
  let eq1 := VObj [(str "type", VStr (str "equation")); (str "latex", VStr (str "a^2"))] in
  let data := VObj [(str "commands", VArr [text; VNull; eq1])] in
  let s' := run initial
              (handleGenerate v8_message never_less (str "draw")
                 (Reply true 200%N (Fulfilled data))) in
  commands s' = [text]
  /\ map id (equations s') = []
  /\ loading s' = false
  /\ error s' = str "Error: Cannot read properties of null (reading 'type')".
Proof.
  intros text eq1 data.
  exact (unreadable_item_stops_delivery v8_message never_less initial
           (str "draw") 200%N data [text] VNull [eq1]
           eq_refl eq_refl eq_refl eq_refl).
Defined.


End BoardFacts.


(* ------------------------------------------------------------------ *)
Module WireFacts.
Import Js Json Server Frames Wire.

Lemma wire_frames : forall JSON_stringify calls,
  wire JSON_stringify calls
  = concat (map frame (map JSON_stringify (written calls))).
Proof.
  intros f. induction calls as [|[c|] more IH]; [reflexivity| |reflexivity].
  cbn [wire written map concat]. now rewrite IH.
Qed.

(** X20. The two ends fit: when [JSON.stringify] puts each command the
    server writes on one line as a JSON text of that command, the client
    decodes, however the response is cut into chunks, exactly the commands
    the server wrote before it ended the response, in their order. *)
Theorem client_decodes_what_server_writes :
  forall number_to_string Buffer_toString JSON_stringify upstream chunks,
  let calls := serve number_to_string Buffer_toString initial upstream in
  Forall (fun c => well_formed (JSON_stringify c) c) (written calls) ->
  concat chunks = wire JSON_stringify calls ->
  Client.decode chunks = written calls.
Proof.
  intros n d f upstream chunks calls H E.
  apply (DecoderFacts.decode_frames (map f (written calls))).
  - clear E. induction H as [|c l Hc _ IH]; cbn [map]; constructor;
      assumption.
  - now rewrite E, wire_frames.
Qed.

Lemma client_decodes_what_server_writes_witness :
  let upstream :=
    [quoted "data: {'candidates':[{'content':{'parts':[{'text':'[{\'type\':\'line\'},'}]}}]}"
     ++ [LF];
     quoted "data: {'candidates':[{'content':{'parts':[{'text':'{\'type\':\'rect\'}]'}]}}]}"
     ++ [LF]] in
  let calls := serve (fun _ => []) ascii_text initial upstream in
  let sent := wire stringify_type calls in
  let chunks := [firstn 20 sent; skipn 20 sent] in
  written calls = [VObj [(str "type", VStr (str "line"))];
                   VObj [(str "type", VStr (str "rect"))]]
  /\ Client.decode chunks = written calls.
Proof.
  intros upstream calls sent chunks. split; [reflexivity|].
  apply (client_decodes_what_server_writes (fun _ => []) ascii_text
           stringify_type upstream chunks).
  - repeat constructor; try (vm_compute; reflexivity);
      intros H; vm_compute in H; intuition discriminate.
  - cbn [concat chunks]. rewrite app_nil_r. apply firstn_skipn.
Defined.

End WireFacts.


(* ------------------------------------------------------------------ *)
Module SpeechFacts.
Import Js Json Batch Board Speech.

Section WithBrowser.

Variable number_to_string : Q -> jsstring.
Variable toLowerCase : jsstring -> jsstring.

Lemma sentence_not_blank : forall a s b,
  str_truthy (trim (a ++ s ++ str ". " ++ b)) = true.
Proof.
  intros a s b. apply (JsFacts.trim_truthy 46%N); [|reflexivity].
  apply in_or_app. right. apply in_or_app. right. now left.
Qed.

(** The conversion to a string throws nothing but the [TypeError] of a
    value without primitive. *)
Lemma to_string_throws : forall v e,
  Server.to_string number_to_string v = Throw e -> e = TypeError.
Proof.
  induction v as [ | |b|q|s|items IH|fields _]
    using InterpreterMore.value_nested_ind; intros e H;
    try discriminate H.
  - destruct b; discriminate H.
  - cbn [Server.to_string] in H.
    match type of H with
    | bind (?each items) _ = _ =>
        assert (T : forall e', each items = Throw e' -> e' = TypeError)
    end.
    { clear H. induction IH as [|x r Hx _ IHr]; intros e' H;
        [discriminate H|].
      assert (X : forall e0,
                 match x with
                 | VUndefined | VNull => Ret []
                 | _ => Server.to_string number_to_string x
                 end = Throw e0 -> e0 = TypeError).
      { intros e0 H0. destruct x; try discriminate H0; exact (Hx e0 H0). }
      destruct (match x with
                | VUndefined | VNull => Ret []
                | _ => Server.to_string number_to_string x
                end) as [e1|e1] eqn:E1.
      - cbn [bind] in H.
        match type of H with
        | bind ?m _ = _ => destruct m as [es|e2] eqn:E2
        end.
        + discriminate H.
        + cbn [bind] in H. injection H as <-. exact (IHr e2 eq_refl).
      - cbn [bind] in H. injection H as <-. exact (X e1 eq_refl). }
    match type of H with
    | bind ?m _ = _ => destruct m as [es|e2]
    end; [discriminate H|].
    cbn [bind] in H. injection H as <-. exact (T e2 eq_refl).
  - cbn [Server.to_string] in H.
    destruct (lookup fields (str "toString")); [|discriminate H].
    now injection H as <-.
Qed.

(** The first loop: it throws on a command that cannot be read and on a
    text without primitive; otherwise it adds nothing when no command is a
    text, and a sentence when one is. *)
Lemma speak_commands_result : forall cmds acc,
  speak_commands number_to_string acc cmds = Throw TypeError
  \/ forallb readable cmds = true
     /\ exists tail,
          speak_commands number_to_string acc cmds = Ret (acc ++ tail)
          /\ (if forallb silent cmds then tail = []
              else exists s b, tail = s ++ str ". " ++ b).
Proof.
  induction cmds as [|c rest IH]; intros acc.
  - right. split; [reflexivity|]. cbn. exists []. now rewrite app_nil_r.
  - cbn [forallb speak_commands]. unfold silent at 1, is_text.
    destruct (readable c) eqn:R; cbn [andb].
    + destruct (BoardFacts.get_readable c (str "type") R) as [type ->].
      cbn [bind]. destruct (is_str type (str "text")); cbn [negb andb].
      * destruct (BoardFacts.get_readable c (str "text") R) as [text ->].
        cbn [bind].
        destruct (Server.to_string number_to_string text) as [t|e] eqn:T.
        -- cbn [bind].
           destruct (IH (acc ++ t ++ str ". ")) as [E | (Rr & tail & E & _)];
             [now left|].
           right. split; [exact Rr|]. rewrite E.
           exists ((t ++ str ". ") ++ tail).
           split; [now rewrite <- !app_assoc|].
           exists t, tail. now rewrite <- !app_assoc.
        -- left. cbn [bind]. now rewrite (to_string_throws text e T).
      * exact (IH acc).
    + left. now rewrite (BoardFacts.get_unreadable c _ R).
Qed.

(** The first loop returns the text unchanged where no command speaks. *)
Lemma speak_commands_silent : forall cmds acc,
  forallb silent cmds = true ->
  speak_commands number_to_string acc cmds = Ret acc.
Proof.
  induction cmds as [|c rest IH]; intros acc H; [reflexivity|].
  cbn [forallb] in H. apply andb_prop in H. destruct H as [Hc Hr].
  unfold silent, is_text in Hc. apply andb_prop in Hc.
  destruct Hc as [R Hc]. cbn [speak_commands].
  destruct (BoardFacts.get_readable c (str "type") R) as [type E].
  rewrite E in Hc |- *. cbn [bind].
  destruct (is_str type (str "text")); [discriminate Hc|].
  exact (IH acc Hr).
Qed.

Lemma speak_equations_result : forall eqs acc,
  if forallb has_markup eqs then
    exists tail,
      speak_equations acc eqs = Ret (acc ++ tail)
      /\ (match eqs with
          | [] => tail = []
          | _ :: _ => exists s b, tail = s ++ str ". " ++ b
          end)
  else speak_equations acc eqs = Throw TypeError.
Proof.
  induction eqs as [|e rest IH]; intros acc.
  - cbn. exists []. now rewrite app_nil_r.
  - cbn [forallb speak_equations]. unfold has_markup at 1.
    destruct (latex e) as [ | |b|q|s|l|f]; cbn [andb]; try reflexivity.
    specialize (IH (acc ++ str "Equation: " ++ replace_backslashes s
                    ++ str ". ")).
    destruct (forallb has_markup rest); [|exact IH].
    destruct IH as (tail & E & _). rewrite E.
    exists ((str "Equation: " ++ replace_backslashes s ++ str ". ") ++ tail).
    split; [now rewrite <- !app_assoc|].
    exists (str "Equation: " ++ replace_backslashes s), tail.
    now rewrite <- !app_assoc.
Qed.

(** X21. Where speech synthesis exists, [handleSpeak] answers that there
    is nothing on the board exactly when the board holds no equation and
    no text command (and every command can be read): a text command is
    spoken even when its text is empty or missing, since its sentence ends
    in a full stop. *)
Theorem nothing_to_speak_iff : forall voices s,
  handleSpeak number_to_string toLowerCase true voices s
  = Ret (Alert (str "Nothing on the board to speak."))
  <-> equations s = [] /\ forallb silent (commands s) = true.
Proof.
  intros voices s. unfold handleSpeak. cbn [negb].
  destruct (speak_commands_result (commands s) [])
    as [C | (R & tail & C & Ht)].
  - rewrite C. cbn [bind]. split; [discriminate|].
    intros [_ K]. rewrite (speak_commands_silent _ [] K) in C.
    discriminate C.
  - rewrite C. cbn [app bind].
    pose proof (speak_equations_result (equations s) tail) as E.
    destruct (forallb has_markup (equations s)).
    + destruct E as (tail2 & -> & Ht2). cbn [bind].
      destruct (forallb silent (commands s)).
      * subst tail. cbn [app] in *.
        destruct (equations s) as [|e rest].
        -- subst tail2. cbn. now split.
        -- destruct Ht2 as (s0 & b & ->).
           rewrite (sentence_not_blank [] s0 b
                    : str_truthy (trim (s0 ++ str ". " ++ b)) = true).
           cbn [negb].
           split; [discriminate | intros [K _]; discriminate K].
      * destruct Ht as (s0 & b & ->).
        replace ((s0 ++ str ". " ++ b) ++ tail2)
          with ([] ++ s0 ++ str ". " ++ (b ++ tail2))
          by (cbn [app]; now rewrite <- !app_assoc).
        rewrite sentence_not_blank. cbn [negb].
        split; [discriminate | intros [_ K]; discriminate K].
    + rewrite E. cbn [bind]. split; [discriminate|].
      intros [K _]. rewrite K in E. cbn in E. discriminate E.
Qed.

(** X22. An equation whose markup is no string breaks the reading aloud:
    with it on the board, [handleSpeak] throws instead of speaking; such an
    equation comes from a reply item of type [equation] that holds neither
    [latex] nor [text]. *)
Theorem speak_needs_markup : forall voices s,
  forallb readable (commands s) = true ->
  forallb has_markup (equations s) = false ->
  handleSpeak number_to_string toLowerCase true voices s = Throw TypeError.
Proof.
  intros voices s R M. unfold handleSpeak. cbn [negb].
  destruct (speak_commands_result (commands s) [])
    as [C | (_ & tail & C & _)]; rewrite C; [reflexivity|].
  cbn [bind].
  pose proof (speak_equations_result (equations s) ([] ++ tail)) as E.
  rewrite M in E. now rewrite E.
Qed.

End WithBrowser.

Lemma speak_needs_markup_witness :
  let item := VObj [(str "type", VStr (str "equation")); (str "x", VNum 20)] in
  let r :=
    Reply true 200%N (EventLoop.Fulfilled (VObj [(str "commands", VArr [item])])) in
  let s := run initial (handleGenerate v8_message never_less (str "draw") r) in
  map latex (equations s) = [VUndefined]
  /\ handleSpeak (fun _ => []) (fun n => n) true [] s = Throw TypeError.
Proof.
  intros item r s. split; [reflexivity|].
  exact (speak_needs_markup (fun _ => []) (fun n => n) [] s eq_refl eq_refl).
Defined.

End SpeechFacts.


(* ------------------------------------------------------------------ *)
Module GenerateFacts.
Import Js Json Generate.

Lemma trimStart_fixed : forall c s,
  is_space c = false -> trimStart (c :: s) = c :: s.
Proof. intros c s H. cbn [trimStart]. now rewrite H. Qed.

Lemma trimStart_spaces : forall ws s,
  forallb is_space ws = true -> trimStart (ws ++ s) = trimStart s.
Proof.
  induction ws as [|w ws IH]; intros s H; [reflexivity|].
  cbn [forallb] in H. apply andb_prop in H. destruct H as [Hw H].
  cbn [app trimStart]. rewrite Hw. now apply IH.
Qed.

(** A text between two code units that are no white space is trimmed. *)
Lemma trim_fixed : forall a s b,
  is_space a = false -> is_space b = false ->
  trim (a :: s ++ [b]) = a :: s ++ [b].
Proof.
  intros a s b Ha Hb. unfold trim, trimEnd.
  rewrite (trimStart_fixed a _ Ha).
  replace (rev (a :: s ++ [b])) with (b :: rev s ++ [a]).
  - rewrite (trimStart_fixed b _ Hb). cbn [rev].
    rewrite rev_app_distr, rev_involutive. reflexivity.
  - cbn [rev]. rewrite rev_app_distr. reflexivity.
Qed.

Lemma trim_fenced : forall m, trim (fence ++ m ++ fence) = fence ++ m ++ fence.
Proof.
  intros m.
  replace (fence ++ m ++ fence)
    with (96%N :: ([96; 96]%N ++ m ++ [96; 96]%N) ++ [96%N]).
  - apply trim_fixed; reflexivity.
  - change fence with [96; 96; 96]%N. cbn [app]. do 3 f_equal.
    rewrite <- app_assoc. reflexivity.
Qed.

Lemma startsWith_i_app : forall p s rest,
  length s = length p -> startsWith_i s p = true ->
  startsWith_i (s ++ rest) p = true.
Proof.
  induction p as [|x p IH]; intros s rest Hl H; [reflexivity|].
  destruct s as [|y s]; [discriminate Hl|].
  cbn [startsWith_i app] in *. apply andb_prop in H. destruct H as [H1 H2].
  rewrite H1. cbn [andb]. apply IH; [|exact H2]. now injection Hl.
Qed.

(** The closing fence at the end of a text is what the third replacement
    cuts off, whatever stands before it. *)
Lemma strip_closing_fence_end : forall inner,
  strip_closing_fence (inner ++ fence) = inner.
Proof.
  induction inner as [|c r IH]; [reflexivity|].
  cbn [app strip_closing_fence]. rewrite IH.
  assert (E : forallb is_space (skipn 3 (c :: r ++ fence)) = false).
  { change fence with ([96; 96]%N ++ [96%N]). rewrite app_assoc.
    change (c :: (r ++ [96%N; 96%N]) ++ [96%N])
      with ((c :: r ++ [96%N; 96%N]) ++ [96%N]).
    rewrite skipn_app.
    replace (3 - length (c :: r ++ [96%N; 96%N])) with 0
      by (cbn [length]; rewrite length_app; cbn [length]; lia).
    cbn [skipn]. rewrite forallb_app. cbn. apply andb_false_r. }
  rewrite E, andb_false_r. reflexivity.
Qed.

Lemma upto_last_close_none : forall s,
  ~ In 93%N s -> upto_last_close s = None.
Proof.
  induction s as [|c r IH]; intros H; [reflexivity|].
  cbn [upto_last_close]. rewrite IH by (intros K; apply H; now right).
  destruct (N.eqb_spec c 93) as [-> | _]; [|reflexivity].
  exfalso. apply H. now left.
Qed.

Lemma upto_last_close_last : forall mid post,
  ~ In 93%N post ->
  upto_last_close (mid ++ 93%N :: post) = Some (mid ++ [93%N]).
Proof.
  induction mid as [|c mid IH]; intros post H.
  - cbn [app upto_last_close]. now rewrite (upto_last_close_none post H).
  - cbn [app upto_last_close]. now rewrite (IH post H).
Qed.

(** The fallback finds the text from the first opening bracket to the last
    closing one. *)
Lemma match_array_spec : forall pre mid post,
  ~ In 91%N pre -> ~ In 93%N post ->
  match_array (pre ++ 91%N :: mid ++ 93%N :: post)
  = Some (91%N :: mid ++ [93%N]).
Proof.
  induction pre as [|c pre IH]; intros mid post Hpre Hpost.
  - cbn [app match_array]. rewrite N.eqb_refl.
    now rewrite (upto_last_close_last mid post Hpost).
  - cbn [app match_array].
    destruct (N.eqb_spec c 91) as [-> | _].
    + exfalso. apply Hpre. now left.
    + apply IH; [|exact Hpost]. intros K. apply Hpre. now right.
Qed.

Section WithStringify.

Variable JSON_stringify : value -> option jsstring.
Variable TypeError_message : value -> jsstring -> jsstring.
Variable json_message : jsstring -> jsstring.

Lemma property_of_truthy : forall v k,
  truthy v = true -> exists w, get v k = Ret w.
Proof.
  intros v k H. destruct v; try discriminate; cbn [get]; eauto.
  destruct (lookup fields k); eauto.
Qed.

Lemma first_of_truthy : forall v, truthy v = true -> exists w, get0 v = Ret w.
Proof.
  intros v H. destruct v; try discriminate; cbn [get0]; eauto.
  - destruct s; eauto.
  - destruct items; eauto.
  - destruct (lookup fields (str "0")); eauto.
Qed.

(** The reads guarded by line 209 cannot throw: what reaches the [catch]
    from the extraction of the text is the error of one of the two reads
    that are not guarded, with the message of the engine. *)
Lemma raw_text_throws : forall body e,
  raw_text JSON_stringify TypeError_message body = Throw e ->
  exists v k, get v k = Throw TypeError /\ e = TypeError_message v k.
Proof.
  intros body e. unfold raw_text, read.
  destruct (get body (str "candidates")) as [candidates|e0] eqn:Ec;
    cbn [bind].
  2:{ intros H. injection H as <-. exists body, (str "candidates").
      split; [|reflexivity].
      destruct body; try discriminate Ec; try reflexivity.
      cbn [get] in Ec. destruct (lookup fields (str "candidates"));
        discriminate Ec. }
  destruct (truthy candidates) eqn:T1; [|discriminate].
  destruct (first_of_truthy candidates T1) as [first ->]. cbn [bind].
  destruct (truthy first) eqn:T2; [|discriminate].
  destruct (property_of_truthy first (str "content") T2) as [content ->].
  cbn [bind]. destruct (truthy content) eqn:T3; [|discriminate].
  destruct (property_of_truthy content (str "parts") T3) as [parts ->].
  cbn [bind]. destruct (truthy parts) eqn:T4; [|discriminate].
  destruct (first_of_truthy parts T4) as [part ->]. cbn [bind].
  destruct (get part (str "text")) as [text|e0] eqn:Et; [discriminate|].
  intros H. injection H as <-. exists part, (str "text").
  split; [|reflexivity].
  destruct part; try discriminate Et; try reflexivity.
  cbn [get] in Et. destruct (lookup fields (str "text")); discriminate Et.
Qed.

(** X23. A JSON text the model wraps in a code fence tagged [json], in
    any case of the letters, is recovered: the endpoint answers with the
    commands the text between the fences denotes. *)
Theorem fenced_json_is_recovered : forall u body tag ws c rest commands,
  up_ok u = true ->
  JSON_parse (up_text u) = Some body ->
  raw_text JSON_stringify TypeError_message body
  = Ret (VStr (fence ++ tag ++ ws ++ (c :: rest) ++ fence)) ->
  length tag = 4 -> startsWith_i tag (str "json") = true ->
  forallb is_space ws = true ->
  is_space c = false -> c <> 96%N ->
  JSON_parse (c :: rest) = Some commands -> truthy commands = true ->
  generate JSON_stringify TypeError_message json_message u
  = {| r_status := 200; r_body := VObj [(str "commands", commands)] |}.
Proof.
  intros u body tag ws c rest commands Hok Hbody Hraw Hlen Htag Hws Hc Hq Hp Ht.
  destruct u as [m | ok text]; [discriminate Hok|].
  cbn [up_ok up_text] in Hok, Hbody. subst ok.
  unfold generate. rewrite Hbody, Hraw. cbn [bind as_string].
  unfold respond.
  assert (S : sanitize (fence ++ tag ++ ws ++ (c :: rest) ++ fence)
              = c :: rest).
  { unfold sanitize.
    assert (T : trim (fence ++ tag ++ ws ++ (c :: rest) ++ fence)
                = fence ++ tag ++ ws ++ (c :: rest) ++ fence).
    { pose proof (trim_fenced (tag ++ ws ++ c :: rest)) as K.
      rewrite <- !app_assoc in K. exact K. }
    rewrite T. unfold strip_json_fence.
    change (skipn 3 (fence ++ tag ++ ws ++ (c :: rest) ++ fence))
      with (tag ++ ws ++ (c :: rest) ++ fence).
    rewrite (startsWith_i_app (str "json") tag _ Hlen Htag).
    change (startsWith (fence ++ tag ++ ws ++ (c :: rest) ++ fence) fence)
      with true.
    cbn [andb].
    replace (skipn 7 (fence ++ tag ++ ws ++ (c :: rest) ++ fence))
      with (ws ++ (c :: rest) ++ fence).
    2:{ change (skipn 7 (fence ++ tag ++ ws ++ (c :: rest) ++ fence))
          with (skipn 4 (tag ++ ws ++ (c :: rest) ++ fence)).
        rewrite <- Hlen. rewrite skipn_app, Nat.sub_diag, skipn_all.
        reflexivity. }
    rewrite (trimStart_spaces ws _ Hws). cbn [app].
    rewrite (trimStart_fixed c _ Hc). unfold strip_fence.
    assert (F : startsWith (c :: rest ++ fence) fence = false).
    { change fence with [96; 96; 96]%N. cbn [startsWith app].
      destruct (N.eqb_spec 96 c) as [E | _]; [now subst c | reflexivity]. }
    rewrite F. exact (strip_closing_fence_end (c :: rest)). }
  rewrite S. unfold parse_commands. rewrite Hp, Ht. reflexivity.
Qed.

(** X24. A JSON array the model wraps in prose is recovered by the
    fallback when the prose before it holds no opening bracket and the
    prose after it no closing one: the endpoint answers with the commands
    of the text from the first opening to the last closing bracket. *)
Theorem array_in_prose_is_recovered : forall rawText pre mid post commands,
  sanitize rawText = pre ++ 91%N :: mid ++ 93%N :: post ->
  JSON_parse (sanitize rawText) = None ->
  ~ In 91%N pre -> ~ In 93%N post ->
  JSON_parse (91%N :: mid ++ [93%N]) = Some commands ->
  truthy commands = true ->
  respond rawText
  = {| r_status := 200; r_body := VObj [(str "commands", commands)] |}.
Proof.
  intros rawText pre mid post commands E Hn Hpre Hpost Hp Ht.
  unfold respond, parse_commands. rewrite Hn, E.
  rewrite (match_array_spec pre mid post Hpre Hpost), Hp, Ht. reflexivity.
Qed.

(** X25. Whatever the upstream answers, the endpoint replies in one of
    three shapes: status 500 with an error object, status 200 with a bare
    string (the sanitized text), or status 200 with an object whose
    [commands] is truthy; it never sends [commands] that the client's test
    [data.commands] would take for missing. *)
Theorem generate_reply_shapes : forall u,
  let r := generate JSON_stringify TypeError_message json_message u in
  (r_status r = 500%N
   /\ exists kind details,
        r_body r = VObj [(str "error", VStr kind); (str "details", VStr details)])
  \/ (r_status r = 200%N
      /\ ((exists text, r_body r = VStr text)
          \/ (exists commands,
                r_body r = VObj [(str "commands", commands)]
                /\ truthy commands = true))).
Proof.
  intros u. cbv zeta. unfold generate.
  destruct u as [m | [|] upstream_text];
    try (left; split; [reflexivity | do 2 eexists; reflexivity]).
  destruct (JSON_parse upstream_text) as [body|];
    [|left; split; [reflexivity | do 2 eexists; reflexivity]].
  destruct (raw_text JSON_stringify TypeError_message body)
    as [rawText | e]; cbn [bind];
    [|left; split; [reflexivity | do 2 eexists; reflexivity]].
  destruct (as_string JSON_stringify TypeError_message rawText)
    as [text | e]; cbn [bind];
    [|left; split; [reflexivity | do 2 eexists; reflexivity]].
  right. unfold respond.
  destruct (parse_commands (sanitize text)) as [commands|];
    [|split; [reflexivity | left; eexists; reflexivity]].
  destruct (truthy commands) eqn:T; (split; [reflexivity|]).
  - right. exists commands. now split.
  - left. eexists. reflexivity.
Qed.

End WithStringify.

Lemma fenced_json_is_recovered_witness :
  let u :=
    Upstream true
      (quoted "{'candidates':[{'content':{'parts':[{'text':'```JSON\n[{\'type\':\'text\'}]\n```'}],'role':'model'}}]}") in
  generate stringify_none v8_message (fun text => []) u
  = {| r_status := 200;
       r_body := VObj [(str "commands",
                        VArr [VObj [(str "type", VStr (str "text"))]])] |}.
Proof.
  intros u.
  refine (fenced_json_is_recovered stringify_none v8_message (fun text => [])
            u _ (str "JSON") [LF]
            91%N (quoted "{'type':'text'}]" ++ [LF]) _
            eq_refl eq_refl eq_refl eq_refl eq_refl eq_refl eq_refl _
            eq_refl eq_refl).
  discriminate.
Defined.

Lemma array_in_prose_is_recovered_witness :
  let rawText := quoted "Sure, here it is: [{'type':'rect'}] Enjoy!" in
  respond rawText
  = {| r_status := 200;
       r_body := VObj [(str "commands",
                        VArr [VObj [(str "type", VStr (str "rect"))]])] |}.
Proof.
  intros rawText.
  refine (array_in_prose_is_recovered rawText (str "Sure, here it is: ")
            (quoted "{'type':'rect'}") (str " Enjoy!") _
            eq_refl eq_refl _ _ eq_refl eq_refl).
  - intros H. vm_compute in H. intuition discriminate.
  - intros H. vm_compute in H. intuition discriminate.
Defined.

Lemma trimStart_incl : forall c s, In c (trimStart s) -> In c s.
Proof.
  intros c. induction s as [|d s IH]; intros H; [exact H|].
  cbn [trimStart] in H. destruct (is_space d); [right; exact (IH H) | exact H].
Qed.

Lemma trim_incl : forall c s, In c (trim s) -> In c s.
Proof.
  intros c s H. unfold trim, trimEnd in H.
  apply in_rev in H. apply trimStart_incl in H. apply in_rev in H.
  exact (trimStart_incl c s H).
Qed.

Lemma no_fence_start : forall s, ~ In 96%N s -> startsWith s fence = false.
Proof.
  intros [|c r] H; [reflexivity|].
  change fence with [96; 96; 96]%N. cbn [startsWith].
  destruct (N.eqb_spec 96 c) as [E | _]; [|reflexivity].
  exfalso. apply H. now left.
Qed.

Lemma no_fence_end : forall s, ~ In 96%N s -> strip_closing_fence s = s.
Proof.
  induction s as [|c r IH]; intros H; [reflexivity|].
  cbn [strip_closing_fence]. rewrite (no_fence_start (c :: r) H).
  cbn [andb]. f_equal. apply IH. intros K. apply H. now right.
Qed.

(** X26. The sanitizing touches fenced texts only: a raw text that holds
    no backtick is trimmed and nothing else. *)
Theorem sanitize_without_fence : forall rawText,
  ~ In 96%N rawText -> sanitize rawText = trim rawText.
Proof.
  intros rawText H.
  assert (T : ~ In 96%N (trim rawText))
    by (intros K; apply H; exact (trim_incl _ _ K)).
  unfold sanitize, strip_json_fence, strip_fence.
  rewrite (no_fence_start _ T). cbn [andb].
  rewrite (no_fence_start _ T). exact (no_fence_end _ T).
Qed.

Lemma sanitize_without_fence_witness :
  let rawText := [LF] ++ quoted "  [{'type':'rect'}]  " ++ [LF] in
  sanitize rawText = quoted "[{'type':'rect'}]".
Proof.
  intros rawText.
  refine (eq_trans (sanitize_without_fence rawText _) eq_refl).
  intros H. vm_compute in H. intuition discriminate.
Defined.

End GenerateFacts.
